(** * Oral-messages Byzantine agreement simulator (main.cpp)

    A shallow embedding of the message tree construction
    ([Process::GenerateChildren]), of the messaging rounds
    ([Process::SendMessages], [Process::ReceiveMessage]) and of the
    bottom-up majority reduction ([Process::GetMajority],
    [Process::Decide]) and of the dump routines ([Process::Dump],
    [Process::DumpDot]), together with the properties of the design
    document that the code validates or refutes, and with further
    properties of the program: validity and agreement of the decisions
    among them.

    Conventions of the embedding.  The [int] and [size_t] values of the
    source (ids, ranks, rounds, tallies) are natural numbers: the source
    never takes them below zero and none comes near a machine bound.  A
    [std::map] is a [gmap], a [std::vector] a list, a [std::string] a list
    of characters.  The static members of [Process] and the vector
    [processes] of [main] are passed explicitly.  The dump routines
    return the text that they write; the output of [main] to [std::cout]
    is the list of the decisions, and its interactive loop is left
    out. *)

From Stdlib Require Import Ascii.
From stdpp Require Import gmap strings list fin_maps pretty.

Local Open Scope nat_scope.
#[local] Set Warnings "-clear-no-such-hyp".

(** ** Values, paths and nodes *)

(** [typedef std::string Path]: a path is a sequence of [char]s. *)
Abbreviation Path := (list ascii).

Definition ONE : ascii := "1"%char.
Definition ZERO : ascii := "0"%char.
Definition UNKNOWN : ascii := "?"%char.
Definition FAULTY : ascii := "X"%char.

Record Node := mkNode { input_value : ascii; output_value : ascii }.

(** [Node( char input = FAULTY, char output = FAULTY )], what
    [std::map::operator[]] materialises for an absent key. *)
Definition default_Node : Node := mkNode FAULTY FAULTY.

Global Instance Node_eq_dec : EqDecision Node.
Proof. solve_decision. Defined.

(** [static_cast<char>( id + '0' )]; the conversion of an [int] to the
    8-bit [char] keeps the low eight bits, which is what [ascii_of_nat]
    does. *)
Definition id_char (id : nat) : ascii := ascii_of_nat (id + 48).

(** ** The Traits class

    The members of [class Traits]: the three numeric parameters, the
    debug switch, and the four methods through which a run is
    customised. *)

Record Traits := mkTraits {
  mSource : nat;
  mM : nat;
  mN : nat;
  mDebug : bool;
  GetSourceValue : Node;
  GetValue : ascii → nat → nat → Path → ascii;
  GetDefault : ascii;
  IsFaulty : nat → bool
}.

(** The class as it is written in main.cpp, for arbitrary constructor
    arguments [Traits( source, m, n, debug )]. *)
Definition reference_GetValue (source : nat)
    (value : ascii) (src destination : nat) (path : Path) : ascii :=
  if decide (src = source) then
    (if decide (Nat.land destination 1 = 0) then ONE else ZERO)
  else if decide (src = 2) then ONE
  else value.

Definition reference_Traits (source m n : nat) (debug : bool) : Traits :=
  {| mSource := source; mM := m; mN := n; mDebug := debug;
     GetSourceValue := mkNode ZERO UNKNOWN;
     GetValue := reference_GetValue source;
     GetDefault := ONE;
     IsFaulty := λ process,
       if decide (process = source ∨ process = 2) then true else false |}.

(** [N], [M], [SOURCE], [DEBUG] of main.cpp. *)
Definition N : nat := 7.
Definition M : nat := 2.
Definition SOURCE : nat := 3.
Definition DEBUG : bool := false.
Definition main_Traits : Traits := reference_Traits SOURCE M N DEBUG.

(** ** The static topology: [mChildren] and [mPathsByRank] *)

Record Topology := mkTopology {
  mChildren : gmap Path (list Path);
  mPathsByRank : gmap nat (gmap nat (list Path))
}.

Definition empty_Topology : Topology := mkTopology ∅ ∅.

(** Reads [mChildren[ path ]] and [mPathsByRank[ r ][ i ]].  On an absent
    key [operator[]] inserts an empty vector and returns it; every later
    read also goes through [operator[]], so the inserted empty vector is
    not distinguishable from absence and the reads are modelled as
    lookups with the empty vector as default. *)
Definition children_of (topo : Topology) (path : Path) : list Path :=
  default [] (mChildren topo !! path).

Definition paths_by_rank (topo : Topology) (r i : nat) : list Path :=
  match mPathsByRank topo !! r with
  | Some by_id => default [] (by_id !! i)
  | None => []
  end.

(** [mPathsByRank[ rank ][ source ].push_back( path )] *)
Definition push_path (rank source : nat) (path : Path) (topo : Topology)
    : Topology :=
  let by_id := default ∅ (mPathsByRank topo !! rank) in
  mkTopology (mChildren topo)
    (<[rank := <[source := default [] (by_id !! source) ++ [path]]> by_id]>
       (mPathsByRank topo)).

(** [mChildren[ parent ].push_back( child )] *)
Definition push_child (parent child : Path) (topo : Topology) : Topology :=
  mkTopology
    (<[parent := default [] (mChildren topo !! parent) ++ [child]]>
       (mChildren topo))
    (mPathsByRank topo).

(** [mChildren[ path ].size()] in the debug trace: the read creates the
    entry when it is absent. *)
Definition touch_children (path : Path) (topo : Topology) : Topology :=
  mkTopology
    (<[path := default [] (mChildren topo !! path)]> (mChildren topo))
    (mPathsByRank topo).

(** [Process::GenerateChildren].  The recursion of the source descends
    while [rank < m]; [fuel] bounds its depth and [m - rank] is enough
    (lemma [GenerateChildren_fuel]).  [ids] is passed by value, so the
    update [ids[ source ] = false] is seen by the calls below and by no
    sibling; [source] is within [ids] in every call that [main] leads to.
    [n] is passed along and not used, as in the source.  [debug] is
    [mTraits.mDebug]. *)
Fixpoint GenerateChildren (debug : bool) (fuel : nat) (m n : nat)
    (ids : list bool) (source : nat) (current_path : Path) (rank : nat)
    (topo : Topology) : Topology :=
  let ids := <[source := false]> ids in
  let current_path := current_path ++ [id_char source] in
  let topo := push_path rank source current_path topo in
  let topo :=
    if decide (rank < m) then
      match fuel with
      | 0 => topo
      | S fuel =>
          foldl (λ topo i,
                   if default false (ids !! i) then
                     push_child current_path (current_path ++ [id_char i])
                       (GenerateChildren debug fuel m n ids i current_path
                          (rank + 1) topo)
                   else topo)
                topo (seq 0 (length ids))
      end
    else topo in
  if debug then touch_children current_path topo else topo.

(** ** Processes *)

Record Process := mkProcess {
  mId : nat;
  mNodes : gmap Path Node
}.

(** The whole program state: the static members of [Process] and the
    vector [processes] of [main]. *)
Record World := mkWorld {
  topo : Topology;
  processes : list Process
}.

Section Engine.
Context (T : Traits).

(** [Process::Process( int id )] *)
Definition Process_ctor (id : nat) (tp : Topology) : Process * Topology :=
  let tp :=
    if decide (size (mChildren tp) = 0) then
      GenerateChildren (mDebug T) (mM T) (mM T) (mN T)
        (replicate (mN T) true) (mSource T) [] 0 tp
    else tp in
  (mkProcess id
     (if decide (id = mSource T) then {[ [] := GetSourceValue T ]} else ∅),
   tp).

(** The first loop of [main]: [processes.push_back( Process( i ) )]. *)
Definition construct_step (w : World) (i : nat) : World :=
  let '(p, tp) := Process_ctor i (topo w) in
  mkWorld tp (processes w ++ [p]).

Definition construct : World :=
  foldl construct_step (mkWorld empty_Topology []) (seq 0 (mN T)).

(** [mNodes[ path ]] on the process at index [self] of the vector: the
    node found, or a default node that is inserted. *)
Definition node_at (self : nat) (path : Path) (procs : list Process)
    : Node * list Process :=
  match procs !! self with
  | Some p =>
      match mNodes p !! path with
      | Some nd => (nd, procs)
      | None =>
          (default_Node,
           <[self := mkProcess (mId p) (<[path := default_Node]> (mNodes p))]>
             procs)
      end
  | None => (default_Node, procs)
  end.

(** [Process::ReceiveMessage] on [processes[ j ]]; [j] is always within
    the vector in [SendMessages]. *)
Definition ReceiveMessage (j : nat) (path : Path) (node : Node)
    (procs : list Process) : list Process :=
  match procs !! j with
  | Some p => <[j := mkProcess (mId p) (<[path := node]> (mNodes p))]> procs
  | None => procs
  end.

(** The body of the outer loop of [SendMessages] for one path. *)
Definition send_path (self : nat)
    (procs : list Process) (path : Path) : list Process :=
  let id := default self (mId <$> procs !! self) in
  let source_node_path := take (length path - 1) path in
  let '(source_node, procs) := node_at self source_node_path procs in
  foldl (λ procs j,
           if decide (j ≠ mSource T) then
             ReceiveMessage j path
               (mkNode (GetValue T (input_value source_node) id j path)
                  UNKNOWN)
               procs
           else procs)
        procs (seq 0 (mN T)).

(** [processes[ self ].SendMessages( round, processes )]: the sender is
    an element of the vector that it delivers to, and it is among the
    receivers. *)
Definition SendMessages (tp : Topology) (round self : nat)
    (procs : list Process) : list Process :=
  let id := default self (mId <$> procs !! self) in
  foldl (send_path self) procs (paths_by_rank tp round id).

(** The second loop of [main]: rounds [0..M], senders [0..N-1]. *)
Definition run_round (tp : Topology) (procs : list Process) (round : nat)
    : list Process :=
  foldl (λ procs j, SendMessages tp round j procs) procs (seq 0 (mN T)).

Definition run_rounds (w : World) : World :=
  mkWorld (topo w)
    (foldl (run_round (topo w)) (processes w) (seq 0 (mM T + 1))).

(** ** The decision phase

    [Decide] works on the node map of one process.  The state carries,
    next to the map, the list of the paths at which [operator[]] found
    no node and inserted a default one. *)
Record DState := mkDState {
  nodes : gmap Path Node;
  missed : list Path
}.

(** [mNodes[ path ]] *)
Definition node_ref (path : Path) (s : DState) : Node * DState :=
  match nodes s !! path with
  | Some nd => (nd, s)
  | None =>
      (default_Node,
       mkDState (<[path := default_Node]> (nodes s)) (missed s ++ [path]))
  end.

(** [node.output_value = v] through a reference obtained from
    [mNodes[ path ]]. *)
Definition set_output (path : Path) (v : ascii) (s : DState) : DState :=
  mkDState (alter (λ nd, mkNode (input_value nd) v) path (nodes s))
           (missed s).

(** [counts[ c ]] on the [std::map<char,size_t>] of [GetMajority]. *)
Definition count (counts : gmap ascii nat) (c : ascii) : nat :=
  default 0 (counts !! c).

Definition count_vote (acc : gmap ascii nat * DState) (child : Path)
    : gmap ascii nat * DState :=
  let '(node, s) := node_ref child (acc.2) in
  (<[output_value node := S (count (acc.1) (output_value node))]> (acc.1),
   s).

(** [Process::GetMajority] *)
Definition GetMajority (tp : Topology) (path : Path) (s : DState)
    : ascii * DState :=
  let counts := <[UNKNOWN := 0]> (<[ZERO := 0]> (<[ONE := 0]> ∅)) in
  let n := length (children_of tp path) in
  let '(counts, s) := foldl count_vote (counts, s) (children_of tp path) in
  (if decide (n / 2 < count counts ONE) then ONE
   else if decide (n / 2 < count counts ZERO) then ZERO
   else if decide (count counts ONE = count counts ZERO
                   ∧ count counts ONE = n / 2)
        then GetDefault T
   else UNKNOWN,
   s).

Definition leaf_step (s : DState) (path : Path) : DState :=
  let '(node, s) := node_ref path s in
  set_output path (input_value node) s.

Definition reduce_step (tp : Topology) (s : DState) (path : Path)
    : DState :=
  let '(_, s) := node_ref path s in
  let '(v, s) := GetMajority tp path s in
  set_output path v s.

(** [for i < mN: for j < mPathsByRank[ r ][ i ].size()] *)
Definition for_rank {S : Type} (tp : Topology) (r : nat)
    (body : S → Path → S) (s : S) : S :=
  foldl (λ s i, foldl body s (paths_by_rank tp r i)) s (seq 0 (mN T)).

(** [vector::front()]; the vector is not empty where [Decide] uses it
    (lemma [front_root]). *)
Definition front (l : list Path) : Path := default [] (head l).

(** [Process::Decide] *)
Definition Decide (tp : Topology) (p : Process) : ascii * DState :=
  let s := mkDState (mNodes p) [] in
  if decide (mId p = mSource T) then
    let '(node, s) := node_ref [] s in
    (input_value node, s)
  else
    let s := for_rank tp (mM T) leaf_step s in
    let s :=
      foldl (λ s round, for_rank tp round (reduce_step tp) s)
            s (rev (seq 0 (mM T))) in
    let top_path := front (paths_by_rank tp 0 (mSource T)) in
    let '(top_node, s) := node_ref top_path s in
    (output_value top_node, s).

(** [processes[ j ].Decide()] in the vector, for [j] within the vector:
    the value returned and the vector afterwards. *)
Definition Decide_at (tp : Topology) (j : nat) (procs : list Process)
    : ascii * list Process :=
  match procs !! j with
  | Some p =>
      let '(v, s) := Decide tp p in
      (v, <[j := mkProcess (mId p) (nodes s)]> procs)
  | None => (FAULTY, procs)
  end.

(** The reporting loop of [main]: [Decide] is called on the processes
    that are not faulty, in ascending order. *)
Definition report (tp : Topology) (procs : list Process)
    : list (nat * option ascii) * list Process :=
  foldl (λ acc j,
           if IsFaulty T j then (acc.1 ++ [(j, None)], acc.2)
           else
             let '(v, procs) := Decide_at tp j (acc.2) in
             (acc.1 ++ [(j, Some v)], procs))
        ([], procs) (seq 0 (mN T)).

Definition main_run : list (nat * option ascii) :=
  let w := run_rounds construct in
  (report (topo w) (processes w)).1.
End Engine.

(** ** The dump routines

    [Dump] and [DumpDot] write the tree of one process as text.  They
    read the node map with [mNodes[ path ]], which creates the nodes
    that are absent, and the children with [mChildren[ path ]].  An
    entry that such a read creates in [mChildren] is an empty vector;
    only the test [mChildren.size() == 0] of the constructor can tell
    it from absence, and [main] has constructed all processes before
    the first dump, so the topology is read here and passed on as it
    is.  The output is the list of the characters written. *)

(** The text of a string literal of the source. *)
Definition text (s : string) : list ascii := String.list_ascii_of_string s.

(** The newline character and the double quote character of the string
    literals. *)
Definition nl : ascii := "010"%char.
Definition dq : ascii := "034"%char.

(** What both routines write for a node: an opening brace, the input
    value, a comma, the path, a comma, the output value and a closing
    brace. *)
Definition node_text (node : Node) (path : Path) : list ascii :=
  text "{" ++ [input_value node] ++ text "," ++ path ++ text ","
    ++ [output_value node] ++ text "}".

(** [Process::Dump]; the recursion is bounded by [fuel], and [None] is
    a call that needs more. *)
Fixpoint Dump (T : Traits) (fuel : nat) (tp : Topology) (path : Path)
    (s : DState) : option (list ascii * DState) :=
  match fuel with
  | 0 => None
  | S fuel =>
      let path :=
        if decide (path = []) then front (paths_by_rank tp 0 (mSource T))
        else path in
      '(out, s) ←
        foldl (λ acc child,
                 '(out, s) ← acc;
                 '(t, s) ← Dump T fuel tp child s;
                 Some (out ++ t, s))
              (Some ([], s)) (children_of tp path);
      let '(node, s) := node_ref path s in
      Some (out ++ node_text node path ++ [nl], s)
  end.

(** The lines that [DumpDot] writes before the tree, for the process
    [id]. *)
Definition dot_header (id : nat) : list ascii :=
  text "digraph byz {" ++ [nl]
    ++ text "rankdir=LR;" ++ [nl]
    ++ text "nodesep=.0025;" ++ [nl]
    ++ text "label=" ++ [dq] ++ text "Process " ++ text (pretty id)
    ++ [dq] ++ text ";" ++ [nl]
    ++ text "node [fontsize=8,width=.005,height=.005,shape=plaintext];"
    ++ [nl]
    ++ text "edge [fontsize=8,arrowsize=0.25];" ++ [nl].

(** [Process::DumpDot] of the process [id].  [node] is a reference into
    [mNodes] that is taken before the children are visited and read
    after. *)
Fixpoint DumpDot (T : Traits) (fuel : nat) (tp : Topology) (id : nat)
    (path : Path) (s : DState) : option (list ascii * DState) :=
  match fuel with
  | 0 => None
  | S fuel =>
      let root := bool_decide (path = []) in
      let out := if root then dot_header id else [] in
      let path :=
        if root then front (paths_by_rank tp 0 (mSource T)) else path in
      let '(_, s) := node_ref path s in
      '(out, s) ←
        foldl (λ acc child,
                 '(out, s) ← acc;
                 '(t, s) ← DumpDot T fuel tp id child s;
                 Some (out ++ t, s))
              (Some (out, s)) (children_of tp path);
      let '(out, s) :=
        if decide (length path = 1) then (out ++ text "General->", s)
        else
          let parent_path := take (length path - 1) path in
          let '(parent_node, s) := node_ref parent_path s in
          (out ++ [dq] ++ node_text parent_node parent_path ++ [dq]
             ++ text "->", s) in
      let node := default default_Node (nodes s !! path) in
      let out := out ++ [dq] ++ node_text node path ++ [dq] ++ text ";"
                   ++ [nl] in
      Some (if root then out ++ text "};" ++ [nl] else out, s)
  end.

(** * Notions used in the statements and in the proofs *)

(** ** The topology as a trace of pushes

    [GenerateChildren] only ever appends to vectors of the two static
    maps, so its effect is the replay of a list of pushes. *)

(** One push: onto [mPathsByRank[ rank ][ source ]], onto
    [mChildren[ parent ]], or the debug read of [mChildren[ path ]]. *)
Inductive event :=
  | EPath (rank source : nat) (path : Path)
  | EChild (parent child : Path)
  | ETouch (path : Path).

Definition apply_event (tp : Topology) (e : event) : Topology :=
  match e with
  | EPath r s p => push_path r s p tp
  | EChild p c => push_child p c tp
  | ETouch p => touch_children p tp
  end.

(** The pushes of one call of [GenerateChildren], in the order in which
    the call makes them (lemma [GC_events_spec]). *)
Fixpoint GC_events (debug : bool) (fuel : nat) (m : nat)
    (ids : list bool) (source : nat) (current_path : Path) (rank : nat)
    : list event :=
  let ids := <[source := false]> ids in
  let current_path := current_path ++ [id_char source] in
  EPath rank source current_path ::
  (if decide (rank < m) then
     match fuel with
     | 0 => []
     | S fuel =>
         flat_map (λ i,
           if default false (ids !! i) then
             GC_events debug fuel m ids i current_path (rank + 1)
               ++ [EChild current_path (current_path ++ [id_char i])]
           else []) (seq 0 (length ids))
     end
   else [])
  ++ (if debug then [ETouch current_path] else []).

(** The path an event is about. *)
Definition event_path (e : event) : Path :=
  match e with EPath _ _ p => p | EChild p _ => p | ETouch p => p end.

(** A push onto [mPathsByRank]. *)
Definition is_EPath (e : event) : Prop :=
  match e with EPath _ _ _ => True | _ => False end.

(** What a list of pushes appends to [mPathsByRank[ r ][ i ]]. *)
Definition pbr_of (r i : nat) (E : list event) : list Path :=
  flat_map (λ e, match e with
                 | EPath r' i' p => if decide (r' = r ∧ i' = i) then [p] else []
                 | _ => []
                 end) E.

(** What a list of pushes appends to [mChildren[ K ]]. *)
Definition kids_of (K : Path) (E : list event) : list Path :=
  flat_map (λ e, match e with
                 | EChild p c => if decide (p = K) then [c] else []
                 | _ => []
                 end) E.

(** An entry of [mChildren] exists exactly when some push or debug read
    named its key. *)
Definition names_key (K : Path) (e : event) : Prop :=
  match e with
  | EPath _ _ _ => False
  | EChild p _ => p = K
  | ETouch p => p = K
  end.

(** An event that is in the list of the debug read, [[ETouch P]] or
    [[]], and is not an [ETouch]: there is none. *)
Ltac not_a_touch debug H :=
  destruct debug; [|by apply not_elem_of_nil in H];
  by apply list_elem_of_singleton in H.

(** ** The children that a path is expected to have *)

(** [P·j] for the ids [j < n] whose character does not occur in [P], in
    ascending order. *)
Definition expected_kids (n : nat) (P : Path) : list Path :=
  map (λ j, P ++ [id_char j]) (filter (λ j, id_char j ∉ P) (seq 0 n)).

(** The pushes of one round of the loop of [GenerateChildren], for the
    id [i]. *)
Definition GC_sub (debug : bool) (fuel m : nat) (ids : list bool)
    (P0 : Path) (rank : nat) (i : nat) : list event :=
  if default false (ids !! i) then
    GC_events debug fuel m ids i P0 (rank + 1)
      ++ [EChild P0 (P0 ++ [id_char i])]
  else [].

(** [ids] marks exactly the ids that do not occur in [path]. *)
Definition ids_track (n : nat) (ids : list bool) (path : Path) : Prop :=
  length ids = n ∧
  ∀ j, j < n → (ids !! j = Some true ↔ id_char j ∉ path).

(** The number of ids below [n] that do not occur in [path]. *)
Definition free_count (n : nat) (path : Path) : nat :=
  length (filter (λ j, id_char j ∉ path) (seq 0 n)).

(** ** The topology that [main] builds

    Every constructor call finds [mChildren] empty or not; when the first
    [GenerateChildren] leaves it empty (no path has a child), the later
    constructors run [GenerateChildren] again and the same pushes are
    replayed. *)

(** [k] replays of a list of pushes. *)
Fixpoint rep_events (k : nat) (E : list event) : list event :=
  match k with
  | 0 => []
  | S k => rep_events k E ++ E
  end.

(** The pushes of the call that the constructor makes. *)
Definition init_events (T : Traits) : list event :=
  GC_events (mDebug T) (mM T) (mM T) (replicate (mN T) true) (mSource T) [] 0.

(** The process that the constructor makes for the id [i]. *)
Definition init_process (T : Traits) (i : nat) : Process :=
  mkProcess i
    (if decide (i = mSource T) then {[ [] := GetSourceValue T ]} else ∅).

(** ** The messaging rounds *)

(** [mNodes[ path ]] as a read: the map afterwards. *)
Definition ensure (path : Path) (m : gmap Path Node) : gmap Path Node :=
  match m !! path with
  | Some _ => m
  | None => <[path := default_Node]> m
  end.

(** The inner loop of [SendMessages]: one delivery to every process but
    the source. *)
Definition deliver (T : Traits) (P : Path) (val : nat → Node)
    (procs : list Process) (j : nat) : list Process :=
  if decide (j ≠ mSource T) then ReceiveMessage j P (val j) procs else procs.

(** The vector has [mN] processes, the process at index [j] has id [j],
    and the source process is as its constructor left it. *)
Definition Good (T : Traits) (procs : list Process) : Prop :=
  length procs = mN T
  ∧ (∀ j p, procs !! j = Some p → mId p = j)
  ∧ procs !! mSource T = Some (init_process T (mSource T)).

(** Every process other than the source holds a node at [P]. *)
Definition Has (T : Traits) (procs : list Process) (P : Path) : Prop :=
  ∀ j p, procs !! j = Some p → j ≠ mSource T → is_Some (mNodes p !! P).

(** ** The majority reduction *)

(** The output value that a read [mNodes[ P ].output_value] sees. *)
Definition out (nds : gmap Path Node) (P : Path) : ascii :=
  output_value (default default_Node (nds !! P)).

(** The votes at [P]: the output values of its children, in the order
    of [mChildren[ P ]]. *)
Definition child_votes (tp : Topology) (P : Path) (nds : gmap Path Node)
    : list ascii :=
  out nds <$> children_of tp P.

(** The number of votes for [v]. *)
Definition tally (v : ascii) (votes : list ascii) : nat :=
  length (filter (λ x, x = v) votes).

(** The reduction as the design document words it: ONE on a strict
    majority of ONE votes, else ZERO on a strict majority of ZERO votes,
    else the default when both tallies equal [n/2], else UNKNOWN. *)
Definition majority_spec (d : ascii) (votes : list ascii) : ascii :=
  let n := length votes in
  if decide (n / 2 < tally ONE votes) then ONE
  else if decide (n / 2 < tally ZERO votes) then ZERO
  else if decide (tally ONE votes = tally ZERO votes
                  ∧ tally ONE votes = n / 2) then d
  else UNKNOWN.

(** The same class with another tie-break default. *)
Definition with_default (d : ascii) (T : Traits) : Traits :=
  mkTraits (mSource T) (mM T) (mN T) (mDebug T) (GetSourceValue T)
           (GetValue T) d (IsFaulty T).

(** ** The passes of [Decide] on a complete node map *)

(** One pass of [Decide]: at every path of the list in turn, the output
    value becomes [g] of the current map. *)
Definition step (g : gmap Path Node → Path → ascii)
    (nds : gmap Path Node) (P : Path) : gmap Path Node :=
  alter (λ nd, mkNode (input_value nd) (g nds P)) P nds.

(** A whole pass over the paths of [L]. *)
Definition pass (g : gmap Path Node → Path → ascii) (L : list Path)
    (nds : gmap Path Node) : gmap Path Node :=
  foldl (step g) nds L.

(** The leaf pass writes the input value of the node. *)
Definition g_leaf (nds : gmap Path Node) (P : Path) : ascii :=
  input_value (default default_Node (nds !! P)).

(** Two node maps with the same keys and input values, and the same
    output values outside [S]. *)
Definition agree (S : Path → Prop) (a b : gmap Path Node) : Prop :=
  ∀ P, match a !! P, b !! P with
       | Some x, Some y =>
           input_value x = input_value y
           ∧ (¬ S P → output_value x = output_value y)
       | None, None => True
       | _, _ => False
       end.

(** The paths that the loops of [Decide] visit at rank [r]. *)
Definition rank_paths (T : Traits) (tp : Topology) (r : nat) : list Path :=
  flat_map (paths_by_rank tp r) (seq 0 (mN T)).

(** [P] is a path of the topology. *)
Definition in_topo (tp : Topology) (P : Path) : Prop :=
  ∃ r i, P ∈ paths_by_rank tp r i.

(** The node map holds a node at every path of the topology. *)
Definition Present (tp : Topology) (nds : gmap Path Node) : Prop :=
  ∀ P, in_topo tp P → is_Some (nds !! P).

(** A reduction pass writes the majority of the children's votes. *)
Definition g_red (T : Traits) (tp : Topology)
    (nds : gmap Path Node) (P : Path) : ascii :=
  majority_spec (GetDefault T) (child_votes tp P nds).

(** What [Decide] makes of a complete node map. *)
Definition decide_nodes (T : Traits) (tp : Topology)
    (nds : gmap Path Node) : gmap Path Node :=
  foldl (λ nds r, pass (g_red T tp) (rank_paths T tp r) nds)
        (pass g_leaf (rank_paths T tp (mM T)) nds)
        (rev (seq 0 (mM T))).

(** The paths of the topology of length at most [k]. *)
Definition below (T : Traits) (k : nat) (P : Path) : Prop :=
  in_topo (topo (construct T)) P ∧ length P ≤ k.

(** ** The schedule of [main] as a list of calls *)


(** A list of calls run in order. *)
Definition run_schedule (T : Traits) (tp : Topology)
    (sched : list (nat * nat)) (procs : list Process) : list Process :=
  foldl (λ procs rj, SendMessages T tp rj.1 rj.2 procs) procs sched.

(** ** Notions for the properties beyond the claims *)

(** The lists of ids behind the paths of the tree: pairwise different ids
    below [n], the source first, at most [m + 1] of them. *)
Definition tree_path (T : Traits) (r i : nat) (P : Path) : Prop :=
  ∃ l : list nat,
    P = id_char <$> l ∧ NoDup l ∧ (∀ k, k ∈ l → k < mN T)
    ∧ head l = Some (mSource T) ∧ last l = Some i
    ∧ length l = r + 1 ∧ r ≤ mM T.

(** [path.substr( 0, path.size() - 1 )] *)
Definition parent (P : Path) : Path := take (length P - 1) P.

(** The node map of the process at index [j] of the vector. *)
Definition nodes_of (procs : list Process) (j : nat) : gmap Path Node :=
  default ∅ (mNodes <$> procs !! j).

(** The input value that process [i] reads at [Q] with [mNodes[ Q ]]. *)
Definition held (procs : list Process) (i : nat) (Q : Path) : ascii :=
  input_value (default default_Node (nodes_of procs i !! Q)).

(** The node that [SendMessages] of process [i] makes for the receiver
    [j] and the path [P]. *)
Definition relayed (T : Traits) (procs : list Process) (i j : nat)
    (P : Path) : Node :=
  mkNode (GetValue T (held procs i (parent P)) i j P) UNKNOWN.

(** Every node of a process other than the source sits at a path of the
    topology of length at most [k], and is the node that the owner of the
    path made from what it holds at the parent path. *)
Definition Relayed (T : Traits) (k : nat) (procs : list Process) : Prop :=
  ∀ j P nd, j ≠ mSource T → nodes_of procs j !! P = Some nd →
    length P ≤ k
    ∧ ∃ i, i < mN T
         ∧ P ∈ paths_by_rank (topo (construct T)) (length P - 1) i
         ∧ nd = relayed T procs i j P.

(** The state of the vector at the start of round [k]. *)
Definition RInv (T : Traits) (k : nat) (procs : list Process) : Prop :=
  Good T procs
  ∧ (∀ r i Q, r < k → Q ∈ paths_by_rank (topo (construct T)) r i →
       Has T procs Q)
  ∧ Relayed T (k + 1) procs.

(** The value of the path [P] seen from [d] ranks above the leaves: the
    input value at a leaf, the majority of the values of the children
    elsewhere. *)
Fixpoint eval (T : Traits) (tp : Topology) (nds : gmap Path Node)
    (d : nat) (P : Path) : ascii :=
  match d with
  | 0 => g_leaf nds P
  | S d => majority_spec (GetDefault T) (eval T tp nds d <$> children_of tp P)
  end.

(** Process [i] passes on what it holds, to every receiver and on every
    path: [GetValue] returns its argument [value]. *)
Definition honest (T : Traits) (i : nat) : Prop :=
  ∀ v j P, GetValue T v i j P = v.

(** The ids below [mN] that [IsFaulty] marks. *)
Definition faulty_ids (T : Traits) : list nat :=
  filter (λ k, IsFaulty T k = true) (seq 0 (mN T)).

(** Those of them that do not occur in [P]. *)
Definition faulty_free (T : Traits) (P : Path) : list nat :=
  filter (λ k, id_char k ∉ P) (faulty_ids T).

(** What a subtree of non-faulty relays of depth [d] makes of the value
    [v]: a value other than ONE and ZERO is no vote, so a majority of
    such values is UNKNOWN. *)
Definition settled (d : nat) (v : ascii) : ascii :=
  match d with
  | 0 => v
  | S _ => if decide (v = ONE ∨ v = ZERO) then v else UNKNOWN
  end.

(** The value that [processes[ j ].Decide()] returns after the rounds of
    [main]. *)
Definition decision (T : Traits) (j : nat) : ascii :=
  (Decide_at T (topo (construct T)) j
     (processes (run_rounds T (construct T)))).1.

(** The same class with another setting of [mDebug]. *)
Definition with_debug (b : bool) (T : Traits) : Traits :=
  mkTraits (mSource T) (mM T) (mN T) b (GetSourceValue T)
           (GetValue T) (GetDefault T) (IsFaulty T).

(** The paths below [P] down to [d] ranks, the children before the
    parent. *)
Fixpoint post_order (tp : Topology) (d : nat) (P : Path) : list Path :=
  match d with
  | 0 => [P]
  | S d => (children_of tp P ≫= post_order tp d) ++ [P]
  end.

(** The line of [Dump] for the path [Q]. *)
Definition dump_line (nds : gmap Path Node) (Q : Path) : list ascii :=
  node_text (default default_Node (nds !! Q)) Q ++ [nl].

(** The line of [DumpDot] for the path [Q]: the edge from the parent
    path, or from the General for the root path. *)
Definition dot_line (nds : gmap Path Node) (Q : Path) : list ascii :=
  (if decide (length Q = 1) then text "General->"
   else [dq] ++ node_text (default default_Node (nds !! parent Q)) (parent Q)
          ++ [dq] ++ text "->")
    ++ [dq] ++ node_text (default default_Node (nds !! Q)) Q ++ [dq]
    ++ text ";" ++ [nl].

(** The number of nodes of a tree of depth [d] whose root has [c]
    children, their nodes [c - 1] children, and so on. *)
Fixpoint tree_size (c d : nat) : nat :=
  match d with
  | 0 => 1
  | S d => 1 + c * tree_size (c - 1) d
  end.

(** ** Scenarios used as concrete inputs *)

(** The state of process [j] in [Decide] after the leaf pass, in the run
    of [main] under [T]. *)
Definition state_after_leaves (T : Traits) (j : nat) : DState :=
  let w := run_rounds T (construct T) in
  match processes w !! j with
  | Some p => for_rank T (topo w) (mM T) leaf_step (mkDState (mNodes p) [])
  | None => mkDState ∅ []
  end.

(** The process at index [j] of the vector after the rounds of [main]. *)
Definition process_at (T : Traits) (j : nat) : Process :=
  default (mkProcess j ∅) (processes (run_rounds T (construct T)) !! j).

(** Four processes, one relay round, source 0; the source sends ONE to
    process 1, ZERO to process 2 and UNKNOWN to process 3, and every other
    process relays what it holds.  [d] is the tie-break default. *)
Definition tie3_Traits (d : ascii) : Traits :=
  {| mSource := 0; mM := 1; mN := 4; mDebug := false;
     GetSourceValue := mkNode ONE UNKNOWN;
     GetValue := λ value src destination path,
       if decide (src = 0) then
         (if decide (destination = 1) then ONE
          else if decide (destination = 2) then ZERO
          else UNKNOWN)
       else value;
     GetDefault := d;
     IsFaulty := λ process, if decide (process = 0) then true else false |}.

(** [n] processes, one relay round, source 0; the source sends UNKNOWN to
    everybody and every other process relays what it holds. *)
Definition mute_Traits (n : nat) : Traits :=
  {| mSource := 0; mM := 1; mN := n; mDebug := false;
     GetSourceValue := mkNode ONE UNKNOWN;
     GetValue := λ value src destination path,
       if decide (src = 0) then UNKNOWN else value;
     GetDefault := ONE;
     IsFaulty := λ process, if decide (process = 0) then true else false |}.

(** Four processes, one relay round, a non-faulty source 0 with the value
    ONE; process 3 is faulty and sends ZERO whatever it holds. *)
Definition loyal_Traits : Traits :=
  {| mSource := 0; mM := 1; mN := 4; mDebug := false;
     GetSourceValue := mkNode ONE UNKNOWN;
     GetValue := λ value src destination path,
       if decide (src = 3) then ZERO else value;
     GetDefault := ZERO;
     IsFaulty := λ process, if decide (process = 3) then true else false |}.

(** * Lemmas

    ** Replaying the trace of [GenerateChildren] *)

Lemma foldl_flat_map {A B C} (f : A → B → A) (g : C → list B) (l : list C) a :
  foldl f a (flat_map g l) = foldl (λ a c, foldl f a (g c)) a l.
Proof.
  revert a. induction l as [|c l IH]; intros a; simpl; [done|].
  by rewrite foldl_app, IH.
Qed.

Lemma GC_events_spec debug m n fuel :
  ∀ ids source current_path rank tp,
    GenerateChildren debug fuel m n ids source current_path rank tp
    = foldl apply_event tp (GC_events debug fuel m ids source current_path rank).
Proof.
  induction fuel as [|fuel IH]; intros ids source current_path rank tp; simpl.
  - destruct (decide (rank < m)); destruct debug; simpl; done.
  - rewrite foldl_app. simpl.
    destruct (decide (rank < m)) as [Hlt|Hge].
    + rewrite foldl_flat_map.
      assert (Hloop : ∀ l tp0,
        foldl (λ tp1 i,
                 if default false (<[source:=false]> ids !! i) then
                   push_child (current_path ++ [id_char source])
                     ((current_path ++ [id_char source]) ++ [id_char i])
                     (GenerateChildren debug fuel m n (<[source:=false]> ids) i
                        (current_path ++ [id_char source]) (rank + 1) tp1)
                 else tp1) tp0 l
        = foldl (λ a c,
                   foldl apply_event a
                     (if default false (<[source:=false]> ids !! c) then
                        GC_events debug fuel m (<[source:=false]> ids) c
                          (current_path ++ [id_char source]) (rank + 1)
                          ++ [EChild (current_path ++ [id_char source])
                                ((current_path ++ [id_char source]) ++ [id_char c])]
                      else [])) tp0 l).
      { induction l as [|i l IHl]; intros tp0; simpl; [done|].
        rewrite <- IHl. f_equal.
        destruct (default false (<[source:=false]> ids !! i)); [|done].
        by rewrite foldl_app, <- IH. }
      rewrite Hloop. by destruct debug.
    + by destruct debug.
Qed.

(** [m - rank] levels of recursion are all there are. *)
Lemma GC_events_fuel debug m fuel1 :
  ∀ fuel2 ids source current_path rank,
    m - rank ≤ fuel1 → m - rank ≤ fuel2 →
    GC_events debug fuel1 m ids source current_path rank
    = GC_events debug fuel2 m ids source current_path rank.
Proof.
  induction fuel1 as [|fuel1 IH]; intros fuel2 ids source current_path rank H1 H2.
  - destruct fuel2; simpl; destruct (decide (rank < m)); try lia; done.
  - destruct fuel2; simpl; destruct (decide (rank < m)); try lia; try done.
    do 2 f_equal. apply flat_map_ext. intros i.
    destruct (default false (<[source:=false]> ids !! i)); [|done].
    f_equal. apply IH; lia.
Qed.

Lemma GenerateChildren_fuel debug m n fuel ids source current_path rank tp :
  m - rank ≤ fuel →
  GenerateChildren debug fuel m n ids source current_path rank tp
  = GenerateChildren debug (m - rank) m n ids source current_path rank tp.
Proof.
  intros H. rewrite !GC_events_spec. f_equal. apply GC_events_fuel; lia.
Qed.

(** *** Reading a replayed trace *)

Lemma paths_by_rank_apply_event tp e r i :
  paths_by_rank (apply_event tp e) r i = paths_by_rank tp r i ++ pbr_of r i [e].
Proof.
  unfold pbr_of, paths_by_rank. destruct e as [r' i' p|p c|p]; simpl;
    rewrite ?app_nil_r; try done.
  destruct (decide (r' = r)) as [->|Hr].
  - rewrite lookup_insert_eq.
    destruct (decide (i' = i)) as [->|Hi].
    + rewrite lookup_insert_eq. rewrite decide_True by done. simpl.
      destruct (mPathsByRank tp !! r); simpl; done.
    + rewrite lookup_insert_ne by done. rewrite decide_False by naive_solver.
      rewrite app_nil_r. destruct (mPathsByRank tp !! r); simpl; done.
  - rewrite lookup_insert_ne by done. rewrite decide_False by naive_solver.
    by rewrite app_nil_r.
Qed.

Lemma pbr_of_app r i E1 E2 : pbr_of r i (E1 ++ E2) = pbr_of r i E1 ++ pbr_of r i E2.
Proof. unfold pbr_of. apply flat_map_app. Qed.

Lemma kids_of_app K E1 E2 : kids_of K (E1 ++ E2) = kids_of K E1 ++ kids_of K E2.
Proof. unfold kids_of. apply flat_map_app. Qed.

Lemma paths_by_rank_apply E : ∀ tp r i,
  paths_by_rank (foldl apply_event tp E) r i = paths_by_rank tp r i ++ pbr_of r i E.
Proof.
  induction E as [|e E IH]; intros tp r i.
  - simpl. by rewrite app_nil_r.
  - cbn [foldl]. rewrite IH, paths_by_rank_apply_event.
    change (e :: E) with ([e] ++ E). by rewrite (pbr_of_app _ _ [e] E), app_assoc.
Qed.

Lemma children_of_apply_event tp e K :
  children_of (apply_event tp e) K = children_of tp K ++ kids_of K [e].
Proof.
  unfold kids_of, children_of. destruct e as [r' i' p|p c|p]; simpl;
    rewrite ?app_nil_r; try done.
  - destruct (decide (p = K)) as [->|Hp].
    + by rewrite lookup_insert_eq.
    + rewrite lookup_insert_ne by done. by rewrite app_nil_r.
  - destruct (decide (p = K)) as [->|Hp].
    + by rewrite lookup_insert_eq.
    + by rewrite lookup_insert_ne by done.
Qed.

Lemma children_of_apply E : ∀ tp K,
  children_of (foldl apply_event tp E) K = children_of tp K ++ kids_of K E.
Proof.
  induction E as [|e E IH]; intros tp K.
  - simpl. by rewrite app_nil_r.
  - cbn [foldl]. rewrite IH, children_of_apply_event.
    change (e :: E) with ([e] ++ E). by rewrite (kids_of_app _ [e] E), app_assoc.
Qed.

Lemma mChildren_apply_event_None tp e K :
  mChildren (apply_event tp e) !! K = None
  ↔ mChildren tp !! K = None ∧ ¬ names_key K e.
Proof.
  destruct e as [r' i' p|p c|p]; simpl.
  - naive_solver.
  - destruct (decide (p = K)) as [->|Hp].
    + rewrite lookup_insert_eq. naive_solver.
    + rewrite lookup_insert_ne by done. naive_solver.
  - destruct (decide (p = K)) as [->|Hp].
    + rewrite lookup_insert_eq. naive_solver.
    + rewrite lookup_insert_ne by done. naive_solver.
Qed.

Lemma mChildren_apply_None E : ∀ tp K,
  mChildren (foldl apply_event tp E) !! K = None
  ↔ mChildren tp !! K = None ∧ Forall (λ e, ¬ names_key K e) E.
Proof.
  induction E as [|e E IH]; intros tp K; simpl.
  - split; [intros H; split; [done|constructor] | by intros [H _]].
  - rewrite IH, mChildren_apply_event_None, Forall_cons. naive_solver.
Qed.

Lemma mChildren_apply_empty E tp :
  mChildren (foldl apply_event tp E) = ∅
  ↔ mChildren tp = ∅ ∧ Forall is_EPath E.
Proof.
  split.
  - intros H. split.
    + apply map_eq. intros K. rewrite lookup_empty.
      assert (HK : mChildren (foldl apply_event tp E) !! K = None)
        by (by rewrite H, lookup_empty).
      by apply mChildren_apply_None in HK as [HK _].
    + apply Forall_forall. intros e He.
      destruct e as [r i p|p c|p]; simpl; [done| |].
      * assert (HK : mChildren (foldl apply_event tp E) !! p = None)
          by (by rewrite H, lookup_empty).
        apply mChildren_apply_None in HK as [_ HK].
        rewrite Forall_forall in HK. by apply (HK _ He).
      * assert (HK : mChildren (foldl apply_event tp E) !! p = None)
          by (by rewrite H, lookup_empty).
        apply mChildren_apply_None in HK as [_ HK].
        rewrite Forall_forall in HK. by apply (HK _ He).
  - intros [H0 HE]. apply map_eq. intros K. rewrite lookup_empty.
    apply mChildren_apply_None. split; [by rewrite H0, lookup_empty|].
    eapply Forall_impl; [exact HE|]. intros [] ?; simpl in *; tauto.
Qed.

Lemma elem_of_pbr_of P r i E : P ∈ pbr_of r i E ↔ EPath r i P ∈ E.
Proof.
  unfold pbr_of. rewrite list_elem_of_In, in_flat_map. split.
  - intros [e [He HP]]. apply list_elem_of_In in He.
    destruct e as [r' i' p|p c|p]; simpl in HP; try done.
    destruct (decide (r' = r ∧ i' = i)) as [[-> ->]|]; simpl in HP; [|done].
    destruct HP as [->|[]]. done.
  - intros He. exists (EPath r i P). split; [by apply list_elem_of_In|].
    rewrite decide_True by done. by left.
Qed.

Lemma elem_of_kids_of c K E : c ∈ kids_of K E ↔ EChild K c ∈ E.
Proof.
  unfold kids_of. rewrite list_elem_of_In, in_flat_map. split.
  - intros [e [He HP]]. apply list_elem_of_In in He.
    destruct e as [r' i' p|p c'|p]; simpl in HP; try done.
    destruct (decide (p = K)) as [->|]; simpl in HP; [|done].
    destruct HP as [->|[]]. done.
  - intros He. exists (EChild K c). split; [by apply list_elem_of_In|].
    rewrite decide_True by done. by left.
Qed.

Lemma kids_of_nil_iff K E :
  kids_of K E = [] ↔ ∀ c, EChild K c ∉ E.
Proof.
  split.
  - intros H c Hc. apply elem_of_kids_of in Hc. rewrite H in Hc.
    by apply not_elem_of_nil in Hc.
  - intros H. destruct (kids_of K E) as [|c l] eqn:Hk; [done|].
    exfalso. apply (H c), elem_of_kids_of. rewrite Hk. by left.
Qed.

(** *** Shape of the trace of one call *)

Section TraceShape.
Context (debug : bool) (m : nat).

Lemma GC_events_prefix fuel : ∀ ids s path rank,
  Forall (λ e, (path ++ [id_char s]) `prefix_of` event_path e)
         (GC_events debug fuel m ids s path rank).
Proof.
  induction fuel as [|fuel IH]; intros ids s path rank; simpl.
  - constructor; [done|]. apply Forall_app. split.
    + by destruct (decide (rank < m)).
    + destruct debug; repeat constructor; done.
  - constructor; [done|]. apply Forall_app. split.
    + destruct (decide (rank < m)); [|done].
      apply Forall_flat_map, Forall_forall. intros i _.
      destruct (default false (<[s:=false]> ids !! i)); [|done].
      apply Forall_app. split; [|repeat constructor; done].
      eapply Forall_impl; [apply IH|]. intros e He. simpl in He.
      by eapply prefix_app_l.
    + destruct debug; repeat constructor; done.
Qed.

(** The first push of a call names its own path; every other path push
    is one level deeper at least and is made for an id that was still
    available and is not the id of the call. *)
Lemma GC_events_paths fuel : ∀ ids s path rank r i P,
  rank = length path →
  EPath r i P ∈ GC_events debug fuel m ids s path rank →
  length P = r + 1 ∧
  ((r = rank ∧ i = s ∧ P = path ++ [id_char s])
   ∨ (rank < r ∧ r ≤ m ∧ i ≠ s ∧ ids !! i = Some true)).
Proof.
  induction fuel as [|fuel IH]; intros ids s path rank r i P Hrank; simpl;
    rewrite elem_of_cons, elem_of_app.
  - intros [Heq|[Hin|Hin]].
    + inversion Heq; subst. rewrite length_app. simpl. split; [lia|]. by left.
    + destruct (decide (rank < m)); by apply not_elem_of_nil in Hin.
    + not_a_touch debug Hin.
  - intros [Heq|[Hin|Hin]].
    + inversion Heq; subst. rewrite length_app. simpl. split; [lia|]. by left.
    + destruct (decide (rank < m)) as [Hlt|]; [|by apply not_elem_of_nil in Hin].
      apply list_elem_of_In, in_flat_map in Hin as [j [Hj Hin]].
      apply list_elem_of_In in Hin.
      destruct (<[s:=false]> ids !! j) as [[|]|] eqn:Hid; simpl in Hin;
        try by apply not_elem_of_nil in Hin.
      apply list_lookup_insert_Some in Hid as [[_ [? _]]|[Hne Hid]]; [done|].
      apply elem_of_app in Hin as [Hin|Hin];
        [|apply list_elem_of_singleton in Hin; done].
      apply IH in Hin as [Hlen Hcase];
        [|rewrite length_app; simpl; lia].
      split; [done|]. right.
      destruct Hcase as [(-> & -> & ->)|(Hr & Hm & Hi & Hid')].
      * repeat split; try lia; done.
      * apply list_lookup_insert_Some in Hid' as [[_ [? _]]|[Hne' Hid']]; [done|].
        repeat split; try lia; done.
    + not_a_touch debug Hin.
Qed.

(** A child pushed under [p] is a path that the recursive call pushed
    at the next rank. *)
Lemma GC_events_children fuel : ∀ ids s path rank p c,
  rank = length path →
  EChild p c ∈ GC_events debug fuel m ids s path rank →
  length p ≤ m ∧
  ∃ j, j < length ids ∧ c = p ++ [id_char j]
       ∧ EPath (length p) j c ∈ GC_events debug fuel m ids s path rank.
Proof.
  induction fuel as [|fuel IH]; intros ids s path rank p c Hrank; simpl;
    rewrite elem_of_cons, elem_of_app.
  - intros [Heq|[Hin|Hin]]; [done| |].
    + destruct (decide (rank < m)); by apply not_elem_of_nil in Hin.
    + not_a_touch debug Hin.
  - intros [Heq|[Hin|Hin]]; [done| |].
    + destruct (decide (rank < m)) as [Hlt|]; [|by apply not_elem_of_nil in Hin].
      apply list_elem_of_In, in_flat_map in Hin as [j [Hj Hin]].
      pose proof Hj as Hj'. apply in_seq in Hj'. rewrite length_insert in Hj'.
      apply list_elem_of_In in Hin.
      destruct (default false (<[s:=false]> ids !! j)) eqn:Hid;
        [|by apply not_elem_of_nil in Hin].
      assert (Hsub : ∀ e,
        e ∈ GC_events debug fuel m (<[s:=false]> ids) j
              (path ++ [id_char s]) (rank + 1) →
        e ∈ flat_map (λ i,
               if default false (<[s:=false]> ids !! i) then
                 GC_events debug fuel m (<[s:=false]> ids) i
                   (path ++ [id_char s]) (rank + 1)
                   ++ [EChild (path ++ [id_char s])
                         ((path ++ [id_char s]) ++ [id_char i])]
               else []) (seq 0 (length (<[s:=false]> ids)))).
      { intros e He. apply list_elem_of_In, in_flat_map. exists j.
        split; [done|]. rewrite Hid. apply list_elem_of_In, elem_of_app.
        by left. }
      apply elem_of_app in Hin as [Hin|Hin].
      * apply IH in Hin as [Hlen [k (Hk & Hc & Hin)]];
          [|rewrite length_app; simpl; lia].
        split; [done|]. exists k. rewrite length_insert in Hk.
        repeat split; try done.
        rewrite elem_of_cons, elem_of_app. right; left. by apply Hsub.
      * apply list_elem_of_singleton in Hin. inversion Hin; subst.
        rewrite length_app. simpl. split; [lia|].
        exists j. repeat split; [lia|].
        rewrite elem_of_cons, elem_of_app. right; left. apply Hsub.
        destruct fuel; simpl; rewrite Nat.add_1_r; by left.
    + not_a_touch debug Hin.
Qed.

(** The call registers its own path first. *)
Lemma GC_events_head fuel ids s path rank :
  EPath rank s (path ++ [id_char s]) ∈ GC_events debug fuel m ids s path rank.
Proof. destruct fuel; simpl; by left. Qed.
End TraceShape.

(** *** The children vector of every path of the tree *)

Lemma GC_events_S debug fuel m ids s path rank :
  GC_events debug (S fuel) m ids s path rank
  = EPath rank s (path ++ [id_char s]) ::
    (if decide (rank < m) then
       flat_map (GC_sub debug fuel m (<[s:=false]> ids) (path ++ [id_char s]) rank)
                (seq 0 (length ids))
     else [])
    ++ (if debug then [ETouch (path ++ [id_char s])] else []).
Proof. simpl. by rewrite length_insert. Qed.

Lemma GC_events_0 debug fuel m ids s path rank :
  ¬ rank < m →
  GC_events debug fuel m ids s path rank
  = EPath rank s (path ++ [id_char s]) ::
    (if debug then [ETouch (path ++ [id_char s])] else []).
Proof. intros H. destruct fuel; simpl; by rewrite decide_False. Qed.

Lemma kids_of_flat_map {A} K (g : A → list event) (l : list A) :
  kids_of K (flat_map g l) = flat_map (λ i, kids_of K (g i)) l.
Proof.
  induction l as [|a l IH]; simpl; [done|]. by rewrite kids_of_app, IH.
Qed.

Lemma kids_of_no_prefix Q K E :
  Forall (λ e, Q `prefix_of` event_path e) E →
  ¬ Q `prefix_of` K →
  kids_of K E = [].
Proof.
  intros HE HQ. apply kids_of_nil_iff. intros c Hc.
  rewrite Forall_forall in HE. by apply HE in Hc.
Qed.

Lemma flat_map_single {A B} (f : A → list B) (l : list A) (i : A) :
  NoDup l → i ∈ l → (∀ j, j ∈ l → j ≠ i → f j = []) →
  flat_map f l = f i.
Proof.
  induction 1 as [|a l Ha Hl IH]; intros Hi Hf.
  - by apply not_elem_of_nil in Hi.
  - simpl. apply elem_of_cons in Hi as [->|Hi].
    + assert (Hnil : flat_map f l = []).
      { clear IH Hl. induction l as [|b l IHl]; simpl; [done|].
        rewrite (Hf b).
        - apply IHl.
          + intros Hal. apply Ha. by right.
          + intros j Hj Hne. apply Hf; [|done].
            apply elem_of_cons in Hj as [->|Hj]; [by left|].
            right. by right.
        - right. by left.
        - intros ->. apply Ha. by left. }
      by rewrite Hnil, app_nil_r.
    + rewrite (Hf a); [|by left|by intros ->]. simpl.
      apply IH; [done|]. intros j Hj Hne. apply Hf; [by right|done].
Qed.

Lemma prefix_snoc_inj (P0 K : Path) (a b : ascii) :
  (P0 ++ [a]) `prefix_of` K → (P0 ++ [b]) `prefix_of` K → a = b.
Proof.
  intros [k1 H1] [k2 H2]. rewrite H1 in H2.
  rewrite <- !app_assoc in H2. apply app_inv_head in H2. by inversion H2.
Qed.

Lemma prefix_snoc_not_self (P0 : Path) (a : ascii) :
  ¬ (P0 ++ [a]) `prefix_of` P0.
Proof.
  intros H. apply prefix_length in H. rewrite length_app in H. simpl in H. lia.
Qed.

Section Kids.
Context (debug : bool) (m n : nat).
Hypothesis id_char_inj :
  ∀ j j', j < n → j' < n → id_char j = id_char j' → j = j'.

Lemma ids_track_step ids path s :
  s < n → ids_track n ids path →
  ids_track n (<[s:=false]> ids) (path ++ [id_char s]).
Proof.
  intros Hs [Hlen Htr]. split; [by rewrite length_insert|].
  intros j Hj. rewrite list_lookup_insert_Some, not_elem_of_app,
    list_elem_of_singleton.
  split.
  - intros [[_ [? _]]|[Hne Hid]]; [done|]. split; [by apply Htr|].
    intros Heq. apply Hne. symmetry. by apply id_char_inj.
  - intros [Hp Hne]. right. split; [by intros ->|]. by apply Htr.
Qed.

Lemma free_step_aux path s (l : list nat) :
  s < n → NoDup l → (∀ j, j ∈ l → j < n) →
  length (filter (λ j, id_char j ∉ path ++ [id_char s]) l)
    + (if decide (s ∈ l ∧ id_char s ∉ path) then 1 else 0)
  = length (filter (λ j, id_char j ∉ path) l).
Proof.
  intros Hs. induction 1 as [|a l Ha Hl IH]; intros Hlt.
  - case_decide as H; [|done]. destruct H as [H _].
    by apply not_elem_of_nil in H.
  - rewrite !filter_cons.
    assert (Ha_lt : a < n) by (apply Hlt; by left).
    specialize (IH (λ j Hj, Hlt j (list_elem_of_further _ _ _ Hj))).
    destruct (decide (a = s)) as [->|Hne].
    + rewrite decide_False
        by (rewrite not_elem_of_app, list_elem_of_singleton; naive_solver).
      rewrite decide_False in IH by naive_solver.
      destruct (decide (id_char s ∉ path)) as [Hp|Hp].
      * rewrite decide_True by (split; [by left|done]). simpl. lia.
      * rewrite decide_False by naive_solver. lia.
    + assert (Hiff : (s ∈ a :: l ∧ id_char s ∉ path)
                     ↔ (s ∈ l ∧ id_char s ∉ path)).
      { rewrite elem_of_cons. naive_solver. }
      destruct (decide (id_char a ∉ path)) as [Hp|Hp].
      * rewrite decide_True.
        2:{ rewrite not_elem_of_app, list_elem_of_singleton. split; [done|].
            intros Heq. apply Hne. by apply id_char_inj. }
        simpl. rewrite <- IH.
        destruct (decide (s ∈ l ∧ id_char s ∉ path));
          [rewrite decide_True by (by apply Hiff)
          |rewrite decide_False by (by rewrite Hiff)]; lia.
      * rewrite decide_False by (rewrite not_elem_of_app; naive_solver).
        rewrite <- IH.
        destruct (decide (s ∈ l ∧ id_char s ∉ path));
          [rewrite decide_True by (by apply Hiff)
          |rewrite decide_False by (by rewrite Hiff)]; lia.
Qed.

Lemma free_count_step path s :
  s < n → id_char s ∉ path →
  free_count n (path ++ [id_char s]) + 1 = free_count n path.
Proof.
  intros Hs Hp. unfold free_count.
  rewrite <- (free_step_aux path s (seq 0 n) Hs).
  - rewrite decide_True; [done|]. split; [|done].
    apply elem_of_seq. lia.
  - apply NoDup_seq.
  - intros j Hj. apply elem_of_seq in Hj. lia.
Qed.

Lemma length_expected_kids P : length (expected_kids n P) = free_count n P.
Proof. unfold expected_kids. by rewrite length_map. Qed.

Lemma kids_of_cons K e E : kids_of K (e :: E) = kids_of K [e] ++ kids_of K E.
Proof. change (e :: E) with ([e] ++ E). apply kids_of_app. Qed.

Lemma kids_of_touch K (b : bool) P0 :
  kids_of K (if b then [ETouch P0] else []) = [].
Proof. by destruct b. Qed.

(** The pushes made under [P0] by the loop of one call. *)
Lemma kids_of_own ids P0 fuel rank (l : list nat) :
  ids_track n ids P0 → (∀ j, j ∈ l → j < n) →
  flat_map (λ i, kids_of P0 (GC_sub debug fuel m ids P0 rank i)) l
  = map (λ j, P0 ++ [id_char j]) (filter (λ j, id_char j ∉ P0) l).
Proof.
  intros [Hlen Htr]. induction l as [|j l IH]; intros Hl; [done|].
  rewrite filter_cons. simpl flat_map.
  rewrite IH by (intros k Hk; apply Hl; by right).
  assert (Hj : j < n) by (apply Hl; by left).
  specialize (Htr j Hj). unfold GC_sub.
  destruct (ids !! j) as [[|]|] eqn:Hid; simpl.
  - rewrite decide_True by (by apply Htr).
    rewrite kids_of_app.
    rewrite (kids_of_no_prefix (P0 ++ [id_char j]));
      [|apply GC_events_prefix|apply prefix_snoc_not_self].
    unfold kids_of. simpl. by rewrite decide_True.
  - rewrite decide_False; [done|]. intros H. by apply Htr in H.
  - rewrite decide_False; [done|]. intros H. by apply Htr in H.
Qed.

Lemma GC_events_kids fuel : ∀ ids s path rank r i P,
  ids_track n ids path → s < n → ids !! s = Some true →
  rank = length path → m - rank ≤ fuel →
  free_count n path + length path = n →
  EPath r i P ∈ GC_events debug fuel m ids s path rank →
  kids_of P (GC_events debug fuel m ids s path rank)
    = (if decide (length P ≤ m) then expected_kids n P else [])
  ∧ free_count n P + length P = n.
Proof.
  induction fuel as [|fuel IH];
    intros ids s path rank r i P Htr Hs Hids Hrank Hfuel Hcnt Hin.
  - assert (Hge : ¬ rank < m) by lia.
    rewrite GC_events_0 in * by done.
    assert (Hnotin : id_char s ∉ path) by (by apply Htr).
    apply elem_of_cons in Hin as [Heq|Hin].
    2:{ not_a_touch debug Hin. }
    inversion Heq; subst r i P. split.
    + rewrite kids_of_cons, kids_of_touch. simpl.
      rewrite decide_False; [done|]. rewrite length_app. simpl. lia.
    + pose proof (free_count_step path s Hs Hnotin).
      rewrite length_app. simpl. lia.
  - assert (Hnotin : id_char s ∉ path) by (by apply Htr).
    pose proof (ids_track_step ids path s Hs Htr) as Htr'.
    assert (Hcnt' : free_count n (path ++ [id_char s])
                    + length (path ++ [id_char s]) = n).
    { pose proof (free_count_step path s Hs Hnotin).
      rewrite length_app. simpl. lia. }
    destruct (decide (rank < m)) as [Hlt|Hge].
    2:{ rewrite GC_events_0 in * by done.
        apply elem_of_cons in Hin as [Heq|Hin].
        2:{ not_a_touch debug Hin. }
        inversion Heq; subst r i P. split; [|done].
        rewrite kids_of_cons, kids_of_touch. simpl.
        rewrite decide_False; [done|]. rewrite length_app. simpl. lia. }
    rewrite GC_events_S in *. rewrite decide_True in * by done.
    destruct Htr as [Hlen Htr]. rewrite Hlen in *.
    rewrite kids_of_cons, kids_of_app, kids_of_touch, app_nil_r.
    change (kids_of P [EPath rank s (path ++ [id_char s])]) with (@nil Path).
    rewrite app_nil_l, kids_of_flat_map.
    apply elem_of_cons in Hin as [Heq|Hin].
    { inversion Heq; subst r i P. split; [|done].
      rewrite decide_True by (rewrite length_app; simpl; lia).
      apply kids_of_own; [done|].
      intros j Hj. apply elem_of_seq in Hj. lia. }
    apply elem_of_app in Hin as [Hin|Hin].
    2:{ not_a_touch debug Hin. }
    apply list_elem_of_In, in_flat_map in Hin as [j [Hj Hin]].
    apply in_seq in Hj. apply list_elem_of_In in Hin.
    unfold GC_sub in Hin.
    destruct (<[s:=false]> ids !! j) as [[|]|] eqn:Hid; simpl in Hin;
      try by apply not_elem_of_nil in Hin.
    apply elem_of_app in Hin as [Hin|Hin];
      [|by apply list_elem_of_singleton in Hin].
    assert (HpreP : (path ++ [id_char s]) ++ [id_char j] `prefix_of` P).
    { pose proof (GC_events_prefix debug m fuel (<[s:=false]> ids) j
                    (path ++ [id_char s]) (rank + 1)) as Hpre.
      rewrite Forall_forall in Hpre. by apply Hpre in Hin. }
    assert (HneP : path ++ [id_char s] ≠ P).
    { intros <-. by apply prefix_snoc_not_self in HpreP. }
    rewrite (flat_map_single _ _ j).
    + unfold GC_sub. rewrite Hid. simpl. rewrite kids_of_app.
      unfold kids_of at 2. simpl. rewrite decide_False by done.
      rewrite app_nil_r.
      apply (IH _ _ _ _ r i); try done.
      * lia.
      * rewrite length_app. simpl. lia.
      * lia.
    + apply NoDup_seq.
    + apply elem_of_seq. lia.
    + intros j' Hj' Hne. apply elem_of_seq in Hj'. unfold GC_sub.
      destruct (default false (<[s:=false]> ids !! j')); [|done].
      rewrite kids_of_app. unfold kids_of at 2. simpl.
      rewrite decide_False by done. rewrite app_nil_r.
      apply (kids_of_no_prefix ((path ++ [id_char s]) ++ [id_char j']));
        [apply GC_events_prefix|].
      intros Hpre'. apply Hne.
      apply id_char_inj; [lia|lia|].
      by apply (prefix_snoc_inj (path ++ [id_char s]) P).
Qed.
End Kids.

(** The characters of the first 256 ids are pairwise different. *)
Lemma id_char_NoDup : NoDup (id_char <$> seq 0 256).
Proof. apply (bool_decide_unpack _). vm_compute. exact I. Qed.

Lemma id_char_inj_256 n j j' :
  n ≤ 256 → j < n → j' < n → id_char j = id_char j' → j = j'.
Proof.
  intros Hn Hj Hj' Heq.
  eapply (NoDup_lookup _ j j' (id_char j)); [apply id_char_NoDup| |].
  - rewrite list_lookup_fmap, lookup_seq_lt by lia. done.
  - rewrite list_lookup_fmap, lookup_seq_lt by lia. simpl. by rewrite Heq.
Qed.

(** ** Lemmas on the topology that [main] builds *)

Lemma elem_of_rep_events e k E : e ∈ rep_events k E ↔ 1 ≤ k ∧ e ∈ E.
Proof.
  induction k as [|k IH]; simpl.
  - split; [intros H; by apply not_elem_of_nil in H|lia].
  - rewrite elem_of_app, IH. split; [|naive_solver].
    intros [[_ H]|H]; (split; [lia|done]).
Qed.

Lemma kids_of_rep_events K k E :
  k = 1 ∨ Forall is_EPath E →
  1 ≤ k →
  kids_of K (rep_events k E) = kids_of K E.
Proof.
  intros [->|HE] Hk; [done|].
  assert (Hnil : kids_of K E = []).
  { apply kids_of_nil_iff. intros c Hc. rewrite Forall_forall in HE.
    by apply HE in Hc. }
  rewrite Hnil. clear Hk. induction k as [|k IH]; simpl; [done|].
  by rewrite kids_of_app, IH, Hnil.
Qed.

Section Construct.
Context (T : Traits).
Hypothesis source_lt : mSource T < mN T.

Lemma construct_step_spec w i k :
  1 ≤ k → (k = 1 ∨ Forall is_EPath (init_events T)) →
  topo w = foldl apply_event empty_Topology (rep_events k (init_events T)) →
  ∃ k', 1 ≤ k' ∧ (k' = 1 ∨ Forall is_EPath (init_events T))
        ∧ topo (construct_step T w i)
          = foldl apply_event empty_Topology (rep_events k' (init_events T))
        ∧ processes (construct_step T w i) = processes w ++ [init_process T i].
Proof.
  intros Hk Hcase Htopo. unfold construct_step, Process_ctor. simpl.
  destruct (decide (size (mChildren (topo w)) = 0)) as [Hsz|Hsz].
  - exists (S k). apply map_size_empty_iff in Hsz. rewrite Htopo in Hsz.
    apply mChildren_apply_empty in Hsz as [_ Hall].
    split; [lia|]. split.
    { right. apply Forall_forall. intros e He. rewrite Forall_forall in Hall.
      apply Hall, elem_of_rep_events. done. }
    split; [|done]. simpl.
    rewrite GC_events_spec, Htopo, <- foldl_app. done.
  - exists k. done.
Qed.

Lemma construct_steps_spec l : ∀ w k,
  1 ≤ k → (k = 1 ∨ Forall is_EPath (init_events T)) →
  topo w = foldl apply_event empty_Topology (rep_events k (init_events T)) →
  ∃ k', 1 ≤ k' ∧ (k' = 1 ∨ Forall is_EPath (init_events T))
        ∧ topo (foldl (construct_step T) w l)
          = foldl apply_event empty_Topology (rep_events k' (init_events T))
        ∧ processes (foldl (construct_step T) w l)
          = processes w ++ (init_process T <$> l).
Proof.
  induction l as [|i l IH]; intros w k Hk Hcase Htopo; simpl.
  - exists k. by rewrite app_nil_r.
  - destruct (construct_step_spec w i k Hk Hcase Htopo)
      as (k1 & Hk1 & Hcase1 & Htopo1 & Hprocs1).
    destruct (IH _ k1 Hk1 Hcase1 Htopo1) as (k2 & Hk2 & Hcase2 & Htopo2 & Hprocs2).
    exists k2. repeat split; try done.
    by rewrite Hprocs2, Hprocs1, <- app_assoc.
Qed.

Lemma construct_spec :
  ∃ k, 1 ≤ k ∧ (k = 1 ∨ Forall is_EPath (init_events T))
       ∧ topo (construct T)
         = foldl apply_event empty_Topology (rep_events k (init_events T))
       ∧ processes (construct T) = init_process T <$> seq 0 (mN T).
Proof.
  unfold construct.
  assert (Hseq : seq 0 (mN T) = 0 :: seq 1 (mN T - 1)).
  { pose proof source_lt as Hlt. destruct (mN T); [lia|].
    simpl. by rewrite Nat.sub_0_r. }
  rewrite Hseq. cbn [foldl].
  assert (H1 : topo (construct_step T (mkWorld empty_Topology []) 0)
               = foldl apply_event empty_Topology (rep_events 1 (init_events T))).
  { unfold construct_step, Process_ctor. simpl.
    rewrite decide_True by apply map_size_empty.
    rewrite GC_events_spec. done. }
  destruct (construct_steps_spec (seq 1 (mN T - 1)) _ 1 (le_n 1)
              (or_introl eq_refl) H1)
    as (k & Hk & Hcase & Htopo & Hprocs).
  exists k. repeat split; done.
Qed.

Lemma construct_processes :
  processes (construct T) = init_process T <$> seq 0 (mN T).
Proof. by destruct construct_spec as (k & _ & _ & _ & H). Qed.

Lemma elem_of_paths_by_rank_construct P r i :
  P ∈ paths_by_rank (topo (construct T)) r i ↔ EPath r i P ∈ (init_events T).
Proof.
  destruct construct_spec as (k & Hk & _ & Htopo & _).
  rewrite Htopo, paths_by_rank_apply. unfold paths_by_rank at 1. simpl.
  rewrite lookup_empty. simpl. rewrite elem_of_pbr_of, elem_of_rep_events.
  naive_solver.
Qed.

Lemma children_of_construct K :
  children_of (topo (construct T)) K = kids_of K (init_events T).
Proof.
  destruct construct_spec as (k & Hk & Hcase & Htopo & _).
  rewrite Htopo, children_of_apply. unfold children_of at 1. simpl.
  rewrite lookup_empty. simpl. by apply kids_of_rep_events.
Qed.

Lemma mChildren_construct_None K :
  mChildren (topo (construct T)) !! K = None
  ↔ Forall (λ e, ¬ names_key K e) (init_events T).
Proof.
  destruct construct_spec as (k & Hk & _ & Htopo & _).
  rewrite Htopo, mChildren_apply_None. simpl. rewrite lookup_empty.
  rewrite !Forall_forall. split.
  - intros [_ H] e He. apply H, elem_of_rep_events. done.
  - intros H. split; [done|]. intros e He.
    apply elem_of_rep_events in He as [_ He]. by apply H.
Qed.

(** *** The facts about the topology that messaging and decision use *)

Lemma paths_by_rank_shape P r i :
  P ∈ paths_by_rank (topo (construct T)) r i →
  length P = r + 1 ∧ r ≤ mM T ∧ i < mN T.
Proof.
  rewrite elem_of_paths_by_rank_construct. intros Hin.
  apply GC_events_paths in Hin as [Hlen Hcase]; [|done].
  split; [done|].
  destruct Hcase as [(-> & -> & _)|(_ & Hm & _ & Hid)]; [split; [lia|done]|].
  split; [done|]. apply lookup_lt_Some in Hid.
  by rewrite length_replicate in Hid.
Qed.

Lemma children_are_paths K c :
  c ∈ children_of (topo (construct T)) K →
  length K ≤ mM T ∧
  ∃ j, j < mN T ∧ c = K ++ [id_char j]
       ∧ c ∈ paths_by_rank (topo (construct T)) (length K) j.
Proof.
  rewrite children_of_construct, elem_of_kids_of. intros Hin.
  apply GC_events_children in Hin as [Hlen (j & Hj & Hc & Hin)]; [|done].
  split; [done|]. exists j. rewrite length_replicate in Hj.
  by rewrite elem_of_paths_by_rank_construct.
Qed.

Lemma root_paths P :
  P ∈ paths_by_rank (topo (construct T)) 0 (mSource T) →
  P = [id_char (mSource T)].
Proof.
  rewrite elem_of_paths_by_rank_construct. intros Hin.
  apply GC_events_paths in Hin as [_ [(_ & _ & ->)|(? & _)]]; [done|lia|done].
Qed.

Lemma root_path_exists :
  [id_char (mSource T)] ∈ paths_by_rank (topo (construct T)) 0 (mSource T).
Proof.
  rewrite elem_of_paths_by_rank_construct. apply (GC_events_head _ _ _ _ _ []).
Qed.

Lemma front_root :
  front (paths_by_rank (topo (construct T)) 0 (mSource T))
  = [id_char (mSource T)].
Proof.
  pose proof root_path_exists as Hex. pose proof root_paths as Hall.
  destruct (paths_by_rank (topo (construct T)) 0 (mSource T)) as [|P l].
  - by apply not_elem_of_nil in Hex.
  - simpl. apply Hall. by left.
Qed.

Lemma source_paths_later r :
  1 ≤ r → paths_by_rank (topo (construct T)) r (mSource T) = [].
Proof.
  intros Hr.
  destruct (paths_by_rank (topo (construct T)) r (mSource T)) as [|P l] eqn:Hp;
    [done|].
  assert (Hin : P ∈ paths_by_rank (topo (construct T)) r (mSource T))
    by (rewrite Hp; by left).
  apply elem_of_paths_by_rank_construct, GC_events_paths in Hin
    as [_ [(? & _)|(_ & _ & ? & _)]]; [lia|done|done].
Qed.
End Construct.

(** ** Lemmas on messaging: what one call changes in the vector *)

Lemma ensure_lookup path m K :
  ensure path m !! K
  = if decide (K = path) then Some (default default_Node (m !! path)) else m !! K.
Proof.
  unfold ensure. destruct (m !! path) eqn:Hm.
  - case_decide; by subst.
  - case_decide; subst; [by rewrite lookup_insert_eq|by rewrite lookup_insert_ne].
Qed.

Section Messaging.
Context (T : Traits).

Lemma ReceiveMessage_length j P nd procs :
  length (ReceiveMessage j P nd procs) = length procs.
Proof.
  unfold ReceiveMessage. destruct (procs !! j); [|done]. by rewrite length_insert.
Qed.

Lemma ReceiveMessage_lookup j P nd procs k :
  ReceiveMessage j P nd procs !! k
  = if decide (k = j) then
      (λ p, mkProcess (mId p) (<[P := nd]> (mNodes p))) <$> procs !! k
    else procs !! k.
Proof.
  unfold ReceiveMessage. destruct (procs !! j) as [p|] eqn:Hj.
  - case_decide; subst.
    + rewrite list_lookup_insert_eq by (by eapply lookup_lt_Some).
      by rewrite Hj.
    + by rewrite list_lookup_insert_ne.
  - case_decide; subst; [by rewrite Hj|done].
Qed.

Lemma node_at_length self Q procs :
  length (node_at self Q procs).2 = length procs.
Proof.
  unfold node_at. destruct (procs !! self) as [p|]; [|done].
  destruct (mNodes p !! Q); [done|]. simpl. by rewrite length_insert.
Qed.

Lemma node_at_lookup self Q procs k :
  (node_at self Q procs).2 !! k
  = if decide (k = self) then
      (λ p, mkProcess (mId p) (ensure Q (mNodes p))) <$> procs !! k
    else procs !! k.
Proof.
  unfold node_at, ensure. destruct (procs !! self) as [p|] eqn:Hp.
  - destruct (mNodes p !! Q) eqn:HQ; simpl.
    + case_decide; subst; [|done]. rewrite Hp. simpl. rewrite HQ.
      by destruct p.
    + case_decide; subst.
      * rewrite list_lookup_insert_eq by (by eapply lookup_lt_Some).
        rewrite Hp. simpl. by rewrite HQ.
      * by rewrite list_lookup_insert_ne.
  - simpl. case_decide; subst; [by rewrite Hp|done].
Qed.

Lemma node_at_value self Q procs :
  (node_at self Q procs).1
  = default default_Node (procs !! self ≫= λ p, mNodes p !! Q).
Proof.
  unfold node_at. destruct (procs !! self) as [p|]; simpl; [|done].
  by destruct (mNodes p !! Q).
Qed.

Lemma deliver_length P val l : ∀ procs,
  length (foldl (deliver T P val) procs l) = length procs.
Proof.
  induction l as [|j l IH]; intros procs; simpl; [done|].
  rewrite IH. unfold deliver. case_decide; [|done].
  apply ReceiveMessage_length.
Qed.

Lemma deliver_lookup P val l : ∀ procs k,
  NoDup l →
  foldl (deliver T P val) procs l !! k
  = if decide (k ∈ l ∧ k ≠ mSource T) then
      (λ p, mkProcess (mId p) (<[P := val k]> (mNodes p))) <$> procs !! k
    else procs !! k.
Proof.
  induction l as [|j l IH]; intros procs k Hnd; cbn [foldl].
  - case_decide as H; [|done]. destruct H as [H _].
    by apply not_elem_of_nil in H.
  - apply NoDup_cons in Hnd as [Hj Hnd]. rewrite IH by done.
    assert (Hstep : deliver T P val procs j !! k
                    = if decide (k = j ∧ j ≠ mSource T) then
                        (λ p, mkProcess (mId p) (<[P := val k]> (mNodes p)))
                          <$> procs !! k
                      else procs !! k).
    { unfold deliver. destruct (decide (j ≠ mSource T)) as [Hs|Hs].
      - rewrite ReceiveMessage_lookup.
        destruct (decide (k = j)) as [->|Hkj].
        + by rewrite decide_True.
        + by rewrite decide_False by naive_solver.
      - by rewrite decide_False by naive_solver. }
    rewrite Hstep. clear Hstep.
    destruct (decide (k = j)) as [->|Hkj].
    + rewrite (decide_False (P:=j ∈ l ∧ _)) by naive_solver.
      destruct (decide (j ≠ mSource T)) as [Hs|Hs].
      * rewrite decide_True by done.
        rewrite decide_True by (split; [by left|done]). done.
      * rewrite decide_False by naive_solver.
        rewrite decide_False by naive_solver. done.
    + rewrite (decide_False (P:=k = j ∧ _)) by naive_solver.
      destruct (decide (k ∈ l ∧ k ≠ mSource T)) as [[Hl Hs]|Hn].
      * rewrite decide_True by (split; [by right|done]). done.
      * rewrite decide_False; [done|].
        rewrite elem_of_cons. naive_solver.
Qed.

Lemma send_path_unfold self procs P :
  send_path T self procs P
  = foldl (deliver T P (λ j,
             mkNode (GetValue T
                       (input_value (node_at self (take (length P - 1) P) procs).1)
                       (default self (mId <$> procs !! self)) j P)
                    UNKNOWN))
          (node_at self (take (length P - 1) P) procs).2
          (seq 0 (mN T)).
Proof.
  unfold send_path. destruct (node_at self (take (length P - 1) P) procs).
  done.
Qed.

Lemma send_path_length self procs P :
  length (send_path T self procs P) = length procs.
Proof. by rewrite send_path_unfold, deliver_length, node_at_length. Qed.

(** After the call, the process at index [k] is the process before it
    with: the read at the parent path when [k] is the sender, and then
    the delivered node when [k] is not the source. *)
Lemma send_path_lookup self procs P k :
  send_path T self procs P !! k
  = (λ p, mkProcess (mId p)
       ((if decide (k < mN T ∧ k ≠ mSource T) then
           <[P := mkNode (GetValue T
                    (input_value (node_at self (take (length P - 1) P) procs).1)
                    (default self (mId <$> procs !! self)) k P) UNKNOWN]>
         else id)
        ((if decide (k = self) then ensure (take (length P - 1) P) else id)
           (mNodes p))))
    <$> procs !! k.
Proof.
  rewrite send_path_unfold, deliver_lookup by apply NoDup_seq.
  rewrite node_at_lookup.
  destruct (procs !! k) as [p|] eqn:Hp; simpl.
  - destruct (decide (k ∈ seq 0 (mN T) ∧ k ≠ mSource T)) as [[Hk Hs]|Hn].
    + apply elem_of_seq in Hk.
      rewrite (decide_True (P:=k < mN T ∧ _)) by (split; [lia|done]).
      case_decide; simpl; done.
    + rewrite (decide_False (P:=k < mN T ∧ _)).
      2:{ intros [Hk Hs]. apply Hn. split; [|done]. apply elem_of_seq. lia. }
      case_decide; simpl; [done|by destruct p].
  - repeat case_decide; done.
Qed.
End Messaging.

(** ** Invariants of the messaging rounds *)

Lemma foldl_invariant {A B} (f : A → B → A) (I : A → Prop) (ok : B → Prop) :
  (∀ a b, I a → ok b → I (f a b)) →
  ∀ l a, I a → Forall ok l → I (foldl f a l).
Proof.
  intros Hstep. induction l as [|b l IH]; intros a Ha Hl; simpl; [done|].
  apply Forall_cons in Hl as [Hb Hl]. apply IH; [|done]. by apply Hstep.
Qed.

(** A property that some step of a loop establishes and the others keep
    holds at the end of the loop. *)
Lemma foldl_establish {A B} (f : A → B → A) (I Q : A → Prop)
    (ok hit : B → Prop) :
  (∀ a b, I a → ok b → I (f a b)) →
  (∀ a b, I a → ok b → Q a → Q (f a b)) →
  (∀ a b, I a → ok b → hit b → Q (f a b)) →
  ∀ l a, I a → Forall ok l → (Q a ∨ Exists hit l) → Q (foldl f a l).
Proof.
  intros HI Hkeep Hhit. induction l as [|b l IH]; intros a Ha Hl HQ; simpl.
  - destruct HQ as [HQ|HQ]; [done|]. by apply Exists_nil in HQ.
  - apply Forall_cons in Hl as [Hb Hl].
    apply IH; [by apply HI|done|].
    destruct HQ as [HQ|HQ]; [left; by apply Hkeep|].
    apply Exists_cons in HQ as [HQ|HQ]; [left; by apply Hhit|by right].
Qed.

Section Run.
Context (T : Traits).
Hypothesis source_lt : mSource T < mN T.

Lemma Good_construct : Good T (processes (construct T)).
Proof.
  rewrite construct_processes by done. repeat split.
  - by rewrite length_fmap, length_seq.
  - intros j p Hj. rewrite list_lookup_fmap in Hj.
    destruct (seq 0 (mN T) !! j) as [i|] eqn:Hi; [|done].
    apply lookup_seq in Hi as [-> _]. simpl in Hj. by inversion Hj.
  - rewrite list_lookup_fmap, lookup_seq_lt by done. done.
Qed.

Lemma send_path_Good self procs P :
  Good T procs →
  (self = mSource T → P = [id_char (mSource T)]) →
  Good T (send_path T self procs P).
Proof.
  intros (Hlen & Hid & Hsrc) HP. repeat split.
  - by rewrite send_path_length.
  - intros j p. rewrite send_path_lookup.
    destruct (procs !! j) as [q|] eqn:Hq; [|done]. simpl.
    intros Hp. inversion Hp. simpl. by apply Hid.
  - rewrite send_path_lookup, Hsrc. simpl.
    rewrite decide_False by naive_solver. simpl.
    unfold init_process.
    rewrite (decide_True (P:=mSource T = mSource T)) by done.
    case_decide as Hself; [|done].
    rewrite HP by done. simpl. unfold ensure.
    by rewrite lookup_singleton_eq.
Qed.

Lemma send_path_Has_new self procs P :
  Good T procs → Has T (send_path T self procs P) P.
Proof.
  intros (Hlen & _ & _) j p Hj Hne.
  assert (Hlt : j < mN T).
  { apply lookup_lt_Some in Hj. by rewrite send_path_length, Hlen in Hj. }
  rewrite send_path_lookup in Hj.
  destruct (procs !! j) as [q|]; [|done]. simpl in Hj.
  inversion Hj. simpl. rewrite decide_True by done.
  rewrite lookup_insert_eq. done.
Qed.

Lemma send_path_Has_mono self procs P Q :
  Has T procs Q → Has T (send_path T self procs P) Q.
Proof.
  intros HQ j p Hj Hne. rewrite send_path_lookup in Hj.
  destruct (procs !! j) as [q|] eqn:Hq; [|done]. simpl in Hj.
  injection Hj as <-. simpl. specialize (HQ j q Hq Hne).
  assert (HQ' : is_Some
    ((if decide (j = self) then ensure (take (length P - 1) P) else id)
       (mNodes q) !! Q)).
  { case_decide; [|exact HQ]. rewrite ensure_lookup.
    case_decide; [by eexists|exact HQ]. }
  destruct (decide (j < mN T ∧ j ≠ mSource T)); [|exact HQ'].
  rewrite lookup_insert.
  destruct (decide (P = Q)); [by eexists|exact HQ'].
Qed.

Lemma own_paths_of_source r P :
  P ∈ paths_by_rank (topo (construct T)) r (mSource T) →
  P = [id_char (mSource T)].
Proof.
  destruct r as [|r]; [by apply root_paths|].
  rewrite source_paths_later by (done || lia).
  intros H. by apply not_elem_of_nil in H.
Qed.

Lemma SendMessages_unfold tp r self procs :
  Good T procs → self < mN T →
  SendMessages T tp r self procs
  = foldl (send_path T self) procs (paths_by_rank tp r self).
Proof.
  intros (Hlen & Hid & _) Hself. unfold SendMessages.
  destruct (procs !! self) as [p|] eqn:Hp; simpl; [|done].
  by rewrite (Hid _ _ Hp).
Qed.

Lemma SendMessages_Good r self procs :
  Good T procs → self < mN T →
  Good T (SendMessages T (topo (construct T)) r self procs).
Proof.
  intros HG Hself. rewrite SendMessages_unfold by done.
  apply (foldl_invariant _ (Good T)
           (λ P, self = mSource T → P = [id_char (mSource T)])); [|done|].
  - intros a P Ha HP. by apply send_path_Good.
  - apply Forall_forall. intros P HP ->. by eapply own_paths_of_source.
Qed.

Lemma SendMessages_Has r self procs Q :
  Good T procs → self < mN T →
  Has T procs Q ∨ Q ∈ paths_by_rank (topo (construct T)) r self →
  Has T (SendMessages T (topo (construct T)) r self procs) Q.
Proof.
  intros HG Hself HQ. rewrite SendMessages_unfold by done.
  apply (foldl_establish _ (Good T) (λ procs, Has T procs Q)
           (λ P, self = mSource T → P = [id_char (mSource T)])
           (λ P, P = Q)); try done.
  - intros a P Ha HP. by apply send_path_Good.
  - intros a P Ha HP Hhas. by apply send_path_Has_mono.
  - intros a P Ha HP ->. by apply send_path_Has_new.
  - apply Forall_forall. intros P HP ->. by eapply own_paths_of_source.
  - destruct HQ as [HQ|HQ]; [by left|right].
    apply Exists_exists. by exists Q.
Qed.

Lemma run_round_Good r procs :
  Good T procs → Good T (run_round T (topo (construct T)) procs r).
Proof.
  intros HG. unfold run_round.
  apply (foldl_invariant _ (Good T) (λ j, j < mN T)); [|done|].
  - intros a j Ha Hj. by apply SendMessages_Good.
  - apply Forall_forall. intros j Hj. apply elem_of_seq in Hj. lia.
Qed.

Lemma run_round_Has r procs j Q :
  Good T procs →
  Has T procs Q ∨ (j < mN T ∧ Q ∈ paths_by_rank (topo (construct T)) r j) →
  Has T (run_round T (topo (construct T)) procs r) Q.
Proof.
  intros HG HQ. unfold run_round.
  apply (foldl_establish _ (Good T) (λ procs, Has T procs Q)
           (λ j, j < mN T)
           (λ j, Q ∈ paths_by_rank (topo (construct T)) r j)); try done.
  - intros a i Ha Hi. by apply SendMessages_Good.
  - intros a i Ha Hi Hhas. apply SendMessages_Has; [done|done|by left].
  - intros a i Ha Hi Hin. apply SendMessages_Has; [done|done|by right].
  - apply Forall_forall. intros i Hi. apply elem_of_seq in Hi. lia.
  - destruct HQ as [HQ|[Hj HQ]]; [by left|right].
    apply Exists_exists. exists j. split; [|done]. apply elem_of_seq. lia.
Qed.

Lemma run_rounds_topo w : topo (run_rounds T w) = topo w.
Proof. done. Qed.

Lemma run_rounds_Good : Good T (processes (run_rounds T (construct T))).
Proof.
  unfold run_rounds. simpl.
  apply (foldl_invariant _ (Good T) (λ _, True)).
  - intros a r Ha _. by apply run_round_Good.
  - apply Good_construct.
  - apply Forall_forall. done.
Qed.

(** After the rounds every process but the source holds a node at
    every path of the topology. *)
Lemma run_rounds_Has r j Q :
  Q ∈ paths_by_rank (topo (construct T)) r j →
  Has T (processes (run_rounds T (construct T))) Q.
Proof.
  intros HQ. pose proof (paths_by_rank_shape T source_lt Q r j HQ)
    as (_ & Hr & Hj).
  unfold run_rounds. simpl.
  apply (foldl_establish _ (Good T) (λ procs, Has T procs Q) (λ _, True)
           (λ r', r' = r)); try done.
  - intros a r' Ha _. by apply run_round_Good.
  - intros a r' Ha _ Hhas. apply (run_round_Has _ _ 0); [done|by left].
  - intros a r' Ha _ ->. apply (run_round_Has _ _ j); [done|by right].
  - apply Good_construct.
  - apply Forall_forall. done.
  - right. apply Exists_exists. exists r. split; [|done].
    apply elem_of_seq. lia.
Qed.
End Run.

(** ** Lemmas on the majority reduction *)

Section Majority.
Context (T : Traits).

Lemma node_ref_present P s nd :
  nodes s !! P = Some nd → node_ref P s = (nd, s).
Proof. unfold node_ref. by intros ->. Qed.

Lemma node_ref_value P s :
  (node_ref P s).1 = default default_Node (nodes s !! P).
Proof. unfold node_ref. by destruct (nodes s !! P). Qed.

Lemma node_ref_reads P s K :
  default default_Node (nodes (node_ref P s).2 !! K)
  = default default_Node (nodes s !! K).
Proof.
  unfold node_ref. destruct (nodes s !! P) eqn:HP; simpl; [done|].
  rewrite lookup_insert. case_decide; subst; [by rewrite HP|done].
Qed.

Lemma tally_cons v x votes :
  tally v (x :: votes) = (if decide (x = v) then 1 else 0) + tally v votes.
Proof. unfold tally. rewrite filter_cons. by case_decide. Qed.

Lemma count_votes kids : ∀ counts s,
  (∀ v, count (foldl count_vote (counts, s) kids).1 v
        = count counts v + tally v (out (nodes s) <$> kids))
  ∧ (∀ K, default default_Node
            (nodes (foldl count_vote (counts, s) kids).2 !! K)
          = default default_Node (nodes s !! K)).
Proof.
  induction kids as [|c kids IH]; intros counts s; cbn [foldl].
  - split; [intros v; unfold tally; simpl; lia|done].
  - unfold count_vote at 2 4. cbn [fst snd].
    pose proof (node_ref_value c s) as Hval.
    pose proof (node_ref_reads c s) as Hreads.
    destruct (node_ref c s) as [node s1]. cbn [fst snd] in *.
    destruct (IH (<[output_value node := S (count counts (output_value node))]>
                    counts) s1) as [IHc IHr].
    split.
    + intros v. rewrite IHc, fmap_cons.
      assert (Hmap : out (nodes s1) <$> kids = out (nodes s) <$> kids).
      { apply list_fmap_ext. intros _ K _. unfold out. by rewrite Hreads. }
      assert (Hout : out (nodes s) c = output_value node).
      { unfold out. by rewrite <- Hval. }
      rewrite Hmap, Hout, tally_cons.
      unfold count at 1. rewrite lookup_insert.
      destruct (decide (output_value node = v)) as [<-|]; simpl;
        unfold count; lia.
    + intros K. by rewrite IHr, Hreads.
Qed.

Lemma count_votes_present kids : ∀ counts s,
  (∀ c, c ∈ kids → is_Some (nodes s !! c)) →
  (foldl count_vote (counts, s) kids).2 = s.
Proof.
  induction kids as [|c kids IH]; intros counts s Hall; cbn [foldl]; [done|].
  unfold count_vote at 2. cbn [fst snd].
  destruct (Hall c) as [nd Hnd]; [by left|].
  rewrite (node_ref_present _ _ _ Hnd). apply IH.
  intros c' Hc'. apply Hall. by right.
Qed.

(** The value that [GetMajority] returns. *)
Lemma GetMajority_value tp P s :
  (GetMajority T tp P s).1
  = majority_spec (GetDefault T) (child_votes tp P (nodes s)).
Proof.
  unfold GetMajority, majority_spec, child_votes.
  pose proof (count_votes (children_of tp P)
                (<[UNKNOWN:=0]> (<[ZERO:=0]> (<[ONE:=0]> ∅))) s) as [Hc _].
  destruct (foldl count_vote _ (children_of tp P)) as [counts s'].
  cbn [fst snd] in *. rewrite length_fmap.
  rewrite (Hc ONE), (Hc ZERO).
  change (count (<[UNKNOWN:=0]> (<[ZERO:=0]> (<[ONE:=0]> ∅))) ONE) with 0.
  change (count (<[UNKNOWN:=0]> (<[ZERO:=0]> (<[ONE:=0]> ∅))) ZERO) with 0.
  rewrite !Nat.add_0_l. done.
Qed.

Lemma GetMajority_state tp P s :
  (∀ c, c ∈ children_of tp P → is_Some (nodes s !! c)) →
  (GetMajority T tp P s).2 = s.
Proof.
  intros Hall. unfold GetMajority.
  pose proof (count_votes_present (children_of tp P)
                (<[UNKNOWN:=0]> (<[ZERO:=0]> (<[ONE:=0]> ∅))) s Hall) as Hs.
  destruct (foldl count_vote _ (children_of tp P)) as [counts s'].
  cbn [fst snd] in *. done.
Qed.

(** The votes are ONE, ZERO or something else. *)
Lemma tally_total votes :
  tally ONE votes + tally ZERO votes ≤ length votes.
Proof.
  induction votes as [|x votes IH]; [done|].
  rewrite !tally_cons. simpl.
  destruct (decide (x = ONE)) as [->|]; [rewrite decide_False by done; lia|].
  case_decide; lia.
Qed.

Lemma tally_total_binary votes :
  (∀ v, v ∈ votes → v = ZERO ∨ v = ONE) →
  tally ONE votes + tally ZERO votes = length votes.
Proof.
  induction votes as [|x votes IH]; intros Hall; [done|].
  rewrite !tally_cons. simpl.
  rewrite <- IH by (intros v Hv; apply Hall; by right).
  destruct (Hall x) as [->| ->]; [by left| |].
  - rewrite decide_False by done. rewrite decide_True by done. lia.
  - rewrite decide_True by done. rewrite decide_False by done. lia.
Qed.

Lemma tally_all_other v votes :
  (∀ x, x ∈ votes → x ≠ v) → tally v votes = 0.
Proof.
  induction votes as [|x votes IH]; intros Hall; [done|].
  rewrite tally_cons, IH by (intros y Hy; apply Hall; by right).
  rewrite decide_False; [done|]. apply Hall. by left.
Qed.
End Majority.

(** ** Lemmas on the decision phase on a complete node map *)

Lemma agree_refl S a : agree S a a.
Proof. intros P. by destruct (a !! P). Qed.

Lemma agree_weaken (S1 S2 : Path → Prop) a b :
  (∀ P, S1 P → S2 P) → agree S1 a b → agree S2 a b.
Proof.
  intros Hsub Hag P. specialize (Hag P).
  destruct (a !! P), (b !! P); try done.
  destruct Hag as [Hi Ho]. split; [done|]. intros HS. apply Ho. naive_solver.
Qed.

Lemma agree_eq a b : agree (λ _, False) a b → a = b.
Proof.
  intros Hag. apply map_eq. intros P. specialize (Hag P).
  destruct (a !! P) as [[xi xo]|], (b !! P) as [[yi yo]|]; try done.
  destruct Hag as [Hi Ho]. simpl in *. rewrite Hi, Ho; [done|tauto].
Qed.

Lemma agree_g_leaf S a b P : agree S a b → g_leaf a P = g_leaf b P.
Proof.
  intros Hag. specialize (Hag P). unfold g_leaf.
  destruct (a !! P), (b !! P); try done. by destruct Hag.
Qed.

Lemma agree_out S a b P : agree S a b → ¬ S P → out a P = out b P.
Proof.
  intros Hag HS. specialize (Hag P). unfold out.
  destruct (a !! P), (b !! P); try done. destruct Hag as [_ Ho]. by apply Ho.
Qed.

Lemma agree_step_both S g a b P :
  agree S a b → g a P = g b P →
  agree (λ K, S K ∧ K ≠ P) (step g a P) (step g b P).
Proof.
  intros Hag Hg K. specialize (Hag K). unfold step. rewrite !lookup_alter.
  destruct (decide (P = K)) as [->|Hne].
  - destruct (a !! K), (b !! K); try done. simpl.
    destruct Hag as [Hi _]. split; [done|]. intros _. done.
  - destruct (a !! K), (b !! K); try done.
    destruct Hag as [Hi Ho]. split; [done|]. intros HS. apply Ho.
    intros HK. apply HS. split; [done|]. by intros ->.
Qed.

Lemma agree_step_right S g a b P :
  agree S a b → S P → agree S a (step g b P).
Proof.
  intros Hag HS K. specialize (Hag K). unfold step. rewrite lookup_alter.
  destruct (decide (P = K)) as [->|Hne]; [|done].
  destruct (a !! K), (b !! K); try done. simpl.
  destruct Hag as [Hi _]. split; [done|]. intros Hn. by destruct Hn.
Qed.

Lemma pass_agree g L : ∀ (S : Path → Prop) a b,
  (∀ a b P, agree S a b → P ∈ L → g a P = g b P) →
  agree S a b →
  agree (λ K, S K ∧ K ∉ L) (pass g L a) (pass g L b).
Proof.
  induction L as [|P L IH]; intros S a b Hg Hag; simpl.
  - eapply agree_weaken; [|exact Hag]. intros K HK. split; [done|].
    apply not_elem_of_nil.
  - assert (HgP : g a P = g b P) by (apply Hg; [done|by left]).
    pose proof (agree_step_both S g a b P Hag HgP) as Hag1.
    eapply agree_weaken; [|apply (λ H, IH _ _ _ H Hag1)].
    + intros K [[HS Hne] HL]. split; [done|].
      rewrite not_elem_of_cons. done.
    + intros a' b' P' Hag' HP'. apply Hg; [|by right].
      eapply agree_weaken; [|exact Hag']. by intros K [HK _].
Qed.

Lemma pass_agree_right g L (S : Path → Prop) : ∀ a b,
  Forall S L → agree S a b → agree S a (pass g L b).
Proof.
  induction L as [|P L IH]; intros a b HL Hag; simpl; [done|].
  apply Forall_cons in HL as [HP HL]. apply IH; [done|].
  by apply agree_step_right.
Qed.

Lemma step_is_Some g nds P K : is_Some (step g nds P !! K) ↔ is_Some (nds !! K).
Proof. unfold step. apply lookup_alter_is_Some. Qed.

Lemma pass_is_Some g L : ∀ nds K,
  is_Some (pass g L nds !! K) ↔ is_Some (nds !! K).
Proof.
  induction L as [|P L IH]; intros nds K; [done|].
  change (pass g (P :: L) nds) with (pass g L (step g nds P)).
  by rewrite IH, step_is_Some.
Qed.

Lemma step_input g nds P K :
  input_value <$> step g nds P !! K = input_value <$> nds !! K.
Proof.
  unfold step. rewrite lookup_alter. case_decide; [subst|done].
  by destruct (nds !! K).
Qed.

Lemma pass_input g L : ∀ nds K,
  input_value <$> pass g L nds !! K = input_value <$> nds !! K.
Proof.
  induction L as [|P L IH]; intros nds K; [done|].
  change (pass g (P :: L) nds) with (pass g L (step g nds P)).
  by rewrite IH, step_input.
Qed.

Lemma for_rank_flat {S} T tp r (body : S → Path → S) s :
  for_rank T tp r body s = foldl body s (rank_paths T tp r).
Proof. unfold for_rank, rank_paths. by rewrite foldl_flat_map. Qed.

Lemma elem_of_rank_paths T tp r P :
  P ∈ rank_paths T tp r ↔ ∃ i, i < mN T ∧ P ∈ paths_by_rank tp r i.
Proof.
  unfold rank_paths. rewrite list_elem_of_In, in_flat_map. split.
  - intros [i [Hi HP]]. apply in_seq in Hi. exists i.
    split; [lia|]. by apply list_elem_of_In.
  - intros [i [Hi HP]]. exists i. split; [apply in_seq; lia|].
    by apply list_elem_of_In.
Qed.

Lemma DState_eta s : mkDState (nodes s) (missed s) = s.
Proof. by destruct s. Qed.

Lemma leaf_step_present s P :
  is_Some (nodes s !! P) →
  leaf_step s P = mkDState (step g_leaf (nodes s) P) (missed s).
Proof.
  intros [nd Hnd]. unfold leaf_step. rewrite (node_ref_present _ _ _ Hnd).
  unfold set_output, step, g_leaf. by rewrite Hnd.
Qed.

Lemma reduce_step_present T tp s P :
  is_Some (nodes s !! P) →
  (∀ c, c ∈ children_of tp P → is_Some (nodes s !! c)) →
  reduce_step T tp s P = mkDState (step (g_red T tp) (nodes s) P) (missed s).
Proof.
  intros [nd Hnd] Hkids. unfold reduce_step.
  rewrite (node_ref_present _ _ _ Hnd).
  pose proof (GetMajority_value T tp P s) as Hv.
  pose proof (GetMajority_state T tp P s Hkids) as Hs.
  destruct (GetMajority T tp P s) as [v s']. simpl in *. subst.
  done.
Qed.

Section Decision.
Context (T : Traits).
Hypothesis source_lt : mSource T < mN T.
#[local] Abbreviation tp := (topo (construct T)).

Lemma rank_paths_in_topo r P : P ∈ rank_paths T tp r → in_topo tp P.
Proof. rewrite elem_of_rank_paths. intros (i & _ & HP). by exists r, i. Qed.

Lemma in_topo_rank_paths P :
  in_topo tp P →
  1 ≤ length P ∧ length P ≤ mM T + 1 ∧ P ∈ rank_paths T tp (length P - 1).
Proof.
  intros (r & i & HP).
  pose proof (paths_by_rank_shape T source_lt P r i HP) as (Hlen & Hr & Hi).
  repeat split; [lia|lia|]. apply elem_of_rank_paths. exists i.
  split; [done|]. by replace (length P - 1) with r by lia.
Qed.

Lemma rank_paths_length r P : P ∈ rank_paths T tp r → length P = r + 1.
Proof.
  rewrite elem_of_rank_paths. intros (i & _ & HP).
  by apply (paths_by_rank_shape T source_lt) in HP as (? & _).
Qed.

Lemma children_in_topo P c :
  c ∈ children_of tp P → in_topo tp c ∧ length c = length P + 1.
Proof.
  intros Hc. apply (children_are_paths T source_lt) in Hc
    as (_ & j & _ & -> & Hin).
  split; [by exists (length P), j|]. rewrite length_app. done.
Qed.

Lemma Present_pass g L nds : Present tp nds → Present tp (pass g L nds).
Proof. intros HP K HK. apply pass_is_Some. by apply HP. Qed.

Lemma foldl_leaf_present L : ∀ s,
  Present tp (nodes s) → Forall (in_topo tp) L →
  foldl leaf_step s L = mkDState (pass g_leaf L (nodes s)) (missed s).
Proof.
  induction L as [|P L IH]; intros s Hpre HL.
  - simpl. by rewrite DState_eta.
  - apply Forall_cons in HL as [HP HL]. cbn [foldl].
    rewrite leaf_step_present by (by apply Hpre).
    rewrite IH; [done| |done]. simpl.
    intros K HK. apply step_is_Some. by apply Hpre.
Qed.

Lemma foldl_reduce_present L : ∀ s,
  Present tp (nodes s) → Forall (in_topo tp) L →
  foldl (reduce_step T tp) s L
  = mkDState (pass (g_red T tp) L (nodes s)) (missed s).
Proof.
  induction L as [|P L IH]; intros s Hpre HL.
  - simpl. by rewrite DState_eta.
  - apply Forall_cons in HL as [HP HL]. cbn [foldl].
    rewrite reduce_step_present.
    + rewrite IH; [done| |done]. simpl.
      intros K HK. apply step_is_Some. by apply Hpre.
    + by apply Hpre.
    + intros c Hc. apply Hpre. by apply children_in_topo in Hc as [? _].
Qed.

Lemma Forall_rank_paths r : Forall (in_topo tp) (rank_paths T tp r).
Proof. apply Forall_forall. intros P. apply rank_paths_in_topo. Qed.

Lemma rounds_present l : ∀ s,
  Present tp (nodes s) →
  foldl (λ s round, for_rank T tp round (reduce_step T tp) s) s l
  = mkDState
      (foldl (λ nds r, pass (g_red T tp) (rank_paths T tp r) nds) (nodes s) l)
      (missed s).
Proof.
  induction l as [|r l IH]; intros s Hpre.
  - simpl. by rewrite DState_eta.
  - cbn [foldl]. rewrite for_rank_flat.
    rewrite foldl_reduce_present by (done || apply Forall_rank_paths).
    rewrite IH; [done|]. simpl. by apply Present_pass.
Qed.

Lemma Present_rounds l : ∀ nds,
  Present tp nds →
  Present tp
    (foldl (λ nds r, pass (g_red T tp) (rank_paths T tp r) nds) nds l).
Proof.
  induction l as [|r l IH]; intros nds Hpre; [done|].
  cbn [foldl]. apply IH. by apply Present_pass.
Qed.

Lemma Present_decide_nodes nds :
  Present tp nds → Present tp (decide_nodes T tp nds).
Proof. intros H. apply Present_rounds. by apply Present_pass. Qed.

Lemma root_in_topo : in_topo tp [id_char (mSource T)].
Proof. exists 0, (mSource T). by apply root_path_exists. Qed.

(** [Decide] on a process that holds a node at every path: no read
    misses, and the map afterwards is [decide_nodes] of the map. *)
Lemma Decide_present p :
  mId p ≠ mSource T → Present tp (mNodes p) →
  Decide T tp p
  = (out (decide_nodes T tp (mNodes p)) [id_char (mSource T)],
     mkDState (decide_nodes T tp (mNodes p)) []).
Proof.
  intros Hid Hpre. unfold Decide. rewrite decide_False by done.
  rewrite for_rank_flat.
  rewrite foldl_leaf_present by (done || apply Forall_rank_paths).
  rewrite rounds_present by (by apply Present_pass).
  cbn [nodes missed]. fold (decide_nodes T tp (mNodes p)).
  rewrite front_root by done.
  destruct (Present_decide_nodes _ Hpre _ root_in_topo) as [nd Hnd].
  rewrite (node_ref_present _ _ nd) by done.
  unfold out. by rewrite Hnd.
Qed.

(** *** A second run of the passes changes nothing *)

Lemma leaf_agree a b :
  agree (below T (mM T + 1)) a b →
  agree (below T (mM T))
    (pass g_leaf (rank_paths T tp (mM T)) a)
    (pass g_leaf (rank_paths T tp (mM T)) b).
Proof.
  intros Hag. eapply agree_weaken; [|apply pass_agree; [|exact Hag]].
  - intros K [[Hin Hlen] Hnot]. split; [done|].
    apply in_topo_rank_paths in Hin as (_ & _ & Hin).
    destruct (decide (length K = mM T + 1)) as [Heq|]; [|lia].
    exfalso. apply Hnot. by replace (mM T) with (length K - 1) by lia.
  - intros a' b' P Hag' _. by eapply agree_g_leaf.
Qed.

Lemma red_agree r a b :
  agree (below T (r + 1)) a b →
  agree (below T r)
    (pass (g_red T tp) (rank_paths T tp r) a)
    (pass (g_red T tp) (rank_paths T tp r) b).
Proof.
  intros Hag. eapply agree_weaken; [|apply pass_agree; [|exact Hag]].
  - intros K [[Hin Hlen] Hnot]. split; [done|].
    apply in_topo_rank_paths in Hin as (_ & _ & Hin).
    destruct (decide (length K = r + 1)) as [Heq|]; [|lia].
    exfalso. apply Hnot. by replace r with (length K - 1) by lia.
  - intros a' b' P Hag' HP. unfold g_red, child_votes. f_equal.
    apply list_fmap_ext. intros _ c Hc%list_elem_of_lookup_2.
    apply (agree_out _ _ _ _ Hag').
    apply children_in_topo in Hc as [_ Hlen].
    apply rank_paths_length in HP. intros [_ Hle]. lia.
Qed.

Lemma rounds_agree k : ∀ a b,
  agree (below T k) a b →
  agree (below T 0)
    (foldl (λ nds r, pass (g_red T tp) (rank_paths T tp r) nds) a (rev (seq 0 k)))
    (foldl (λ nds r, pass (g_red T tp) (rank_paths T tp r) nds) b (rev (seq 0 k))).
Proof.
  induction k as [|k IH]; intros a b Hag; [done|].
  rewrite seq_S, rev_app_distr. cbn [rev app foldl]. apply IH.
  apply red_agree. by rewrite Nat.add_1_r.
Qed.

Lemma decide_nodes_agree a b :
  agree (below T (mM T + 1)) a b → decide_nodes T tp a = decide_nodes T tp b.
Proof.
  intros Hag. apply agree_eq. eapply agree_weaken;
    [|apply rounds_agree, leaf_agree, Hag].
  intros K [Hin Hlen]. apply in_topo_rank_paths in Hin. lia.
Qed.

Lemma Forall_below r :
  r ≤ mM T → Forall (below T (mM T + 1)) (rank_paths T tp r).
Proof.
  intros Hr. apply Forall_forall. intros P HP. split.
  - by eapply rank_paths_in_topo.
  - apply rank_paths_length in HP. lia.
Qed.

Lemma decide_nodes_self a : agree (below T (mM T + 1)) a (decide_nodes T tp a).
Proof.
  unfold decide_nodes.
  assert (Hrounds : ∀ l b, Forall (λ r, r ≤ mM T) l →
    agree (below T (mM T + 1)) a b →
    agree (below T (mM T + 1)) a
      (foldl (λ nds r, pass (g_red T tp) (rank_paths T tp r) nds) b l)).
  { induction l as [|r l IH]; intros b Hl Hag; [done|].
    apply Forall_cons in Hl as [Hr Hl]. cbn [foldl]. apply IH; [done|].
    apply pass_agree_right; [by apply Forall_below|done]. }
  apply Hrounds.
  - apply Forall_forall. intros r Hr%list_elem_of_In%in_rev%in_seq. lia.
  - apply pass_agree_right; [by apply Forall_below|apply agree_refl].
Qed.

Lemma decide_nodes_idem a :
  decide_nodes T tp (decide_nodes T tp a) = decide_nodes T tp a.
Proof. symmetry. apply decide_nodes_agree, decide_nodes_self. Qed.

Lemma decide_nodes_input a K :
  input_value <$> decide_nodes T tp a !! K = input_value <$> a !! K.
Proof.
  unfold decide_nodes.
  assert (Hrounds : ∀ l b,
    input_value <$>
      foldl (λ nds r, pass (g_red T tp) (rank_paths T tp r) nds) b l !! K
    = input_value <$> b !! K).
  { induction l as [|r l IH]; intros b; [done|].
    cbn [foldl]. by rewrite IH, pass_input. }
  by rewrite Hrounds, pass_input.
Qed.
End Decision.

(** ** Lemmas on the schedule of [main] *)




Section SourceFrozen.
Context (T : Traits).
Hypothesis source_lt : mSource T < mN T.
#[local] Abbreviation tp := (topo (construct T)).

Lemma run_schedule_Good sched procs :
  Good T procs → Forall (λ rj, rj.2 < mN T) sched →
  Good T (run_schedule T tp sched procs).
Proof.
  intros HG Hs. unfold run_schedule.
  apply (foldl_invariant _ (Good T) (λ rj, rj.2 < mN T)); [|done|done].
  intros a [r j] Ha Hj. by apply SendMessages_Good.
Qed.

Lemma Decide_source p :
  mId p = mSource T → mNodes p = {[ [] := GetSourceValue T ]} →
  Decide T tp p = (input_value (GetSourceValue T), mkDState (mNodes p) []).
Proof.
  intros Hid Hn. unfold Decide. rewrite decide_True by done.
  rewrite (node_ref_present _ _ (GetSourceValue T)); [done|].
  simpl. by rewrite Hn, lookup_singleton_eq.
Qed.

Lemma Decide_at_source procs :
  Good T procs →
  Decide_at T tp (mSource T) procs = (input_value (GetSourceValue T), procs).
Proof.
  intros (_ & _ & Hsrc). unfold Decide_at. rewrite Hsrc.
  rewrite Decide_source; [|done|].
  - simpl. f_equal. apply list_insert_id. rewrite Hsrc. unfold init_process.
    by rewrite decide_True.
  - unfold init_process. simpl. by rewrite decide_True.
Qed.
End SourceFrozen.

Lemma free_count_nil n : free_count n [] = n.
Proof.
  unfold free_count. generalize 0 as a.
  induction n as [|n IH]; intros a; [done|]. cbn [seq].
  rewrite filter_cons, decide_True by apply not_elem_of_nil.
  cbn [length]. by rewrite IH.
Qed.

Lemma ids_track_init n : ids_track n (replicate n true) [].
Proof.
  split; [apply length_replicate|]. intros j Hj.
  rewrite lookup_replicate. split; [intros _; apply not_elem_of_nil|done].
Qed.

(** ** Lemmas on the run of [main] shared by the claims below *)

Section AfterRounds.
Context (T : Traits).
Hypothesis source_lt : mSource T < mN T.
#[local] Abbreviation tp := (topo (construct T)).
#[local] Abbreviation final := (processes (run_rounds T (construct T))).

Lemma final_lookup j :
  j < mN T → ∃ p, final !! j = Some p ∧ mId p = j.
Proof.
  intros Hj. destruct (run_rounds_Good T source_lt) as (Hlen & Hid & _).
  destruct (lookup_lt_is_Some_2 final j) as [p Hp]; [by rewrite Hlen|].
  exists p. split; [done|]. by apply Hid.
Qed.

Lemma final_Present j p :
  final !! j = Some p → j ≠ mSource T → Present tp (mNodes p).
Proof.
  intros Hp Hne P (r & i & HP).
  by apply (run_rounds_Has T source_lt r i P HP j p).
Qed.

Lemma final_source p :
  final !! mSource T = Some p → p = init_process T (mSource T).
Proof.
  destruct (run_rounds_Good T source_lt) as (_ & _ & Hsrc).
  rewrite Hsrc. by intros [= <-].
Qed.

Lemma Decide_at_present procs j p :
  procs !! j = Some p → mId p ≠ mSource T → Present tp (mNodes p) →
  Decide_at T tp j procs
  = (out (decide_nodes T tp (mNodes p)) [id_char (mSource T)],
     <[j := mkProcess (mId p) (decide_nodes T tp (mNodes p))]> procs).
Proof.
  intros Hp Hid Hpre. unfold Decide_at. rewrite Hp.
  by rewrite (Decide_present T source_lt p Hid Hpre).
Qed.
End AfterRounds.

(** ** The definitions on small inputs *)

(** Three processes, one relay round, source 0. *)
Example topology_3_1 :
  let tp := topo (construct (reference_Traits 0 1 3 false)) in
  paths_by_rank tp 0 0 = [[id_char 0]]
  ∧ paths_by_rank tp 1 1 = [[id_char 0; id_char 1]]
  ∧ paths_by_rank tp 1 2 = [[id_char 0; id_char 2]]
  ∧ children_of tp [id_char 0]
    = [[id_char 0; id_char 1]; [id_char 0; id_char 2]]
  ∧ mChildren tp !! [id_char 0; id_char 1] = None.
Proof. vm_compute. repeat split; reflexivity. Qed.

(** With the debug trace on, the read [mChildren[ path ].size()] leaves an
    empty entry at every leaf. *)
Example topology_3_1_debug :
  mChildren (topo (construct (reference_Traits 0 1 3 true)))
    !! [id_char 0; id_char 1] = Some [].
Proof. vm_compute. reflexivity. Qed.

(** Without relay rounds no path has a child, [mChildren] stays empty and
    each of the three constructors runs [GenerateChildren]. *)
Example topology_3_0_replayed :
  paths_by_rank (topo (construct (reference_Traits 0 0 3 false))) 0 0
  = [[id_char 0]; [id_char 0]; [id_char 0]].
Proof. vm_compute. reflexivity. Qed.

Example majority_spec_examples :
  majority_spec ZERO [ONE; ONE; ZERO] = ONE
  ∧ majority_spec ONE [ZERO; UNKNOWN; ZERO] = ZERO
  ∧ majority_spec ZERO [ONE; ZERO] = ZERO
  ∧ majority_spec ONE [ONE; ZERO; UNKNOWN; UNKNOWN] = UNKNOWN
  ∧ majority_spec ONE [FAULTY; FAULTY] = UNKNOWN.
Proof. vm_compute. repeat split; reflexivity. Qed.

(** Process 0 in the run of [main] after the rounds: the node of the
    source's message, of its own relay of it and of the relay by the
    faulty process 2. *)
Example reference_nodes_of_process_0 :
  let nds := mNodes (process_at main_Traits 0) in
  nds !! [id_char 3] = Some (mkNode ONE UNKNOWN)
  ∧ nds !! [id_char 3; id_char 0] = Some (mkNode ONE UNKNOWN)
  ∧ nds !! [id_char 3; id_char 1] = Some (mkNode ZERO UNKNOWN)
  ∧ nds !! [id_char 3; id_char 2] = Some (mkNode ONE UNKNOWN)
  ∧ nds !! [id_char 3; id_char 1; id_char 2] = Some (mkNode ONE UNKNOWN)
  ∧ size nds = 37.
Proof. vm_compute. repeat split; reflexivity. Qed.

(** ** Lemmas for the properties beyond the claims *)

(** ** More on the trace of one call *)

Lemma elem_of_GC_sub debug fuel m ids P0 rank j e :
  e ∈ GC_sub debug fuel m ids P0 rank j
  ↔ ids !! j = Some true
    ∧ (e ∈ GC_events debug fuel m ids j P0 (rank + 1)
       ∨ e = EChild P0 (P0 ++ [id_char j])).
Proof.
  unfold GC_sub. destruct (ids !! j) as [[|]|]; simpl.
  - rewrite elem_of_app, list_elem_of_singleton. naive_solver.
  - split; [intros H; by apply not_elem_of_nil in H|naive_solver].
  - split; [intros H; by apply not_elem_of_nil in H|naive_solver].
Qed.

Lemma elem_of_GC_events debug fuel m ids s path rank e :
  m - rank ≤ fuel →
  e ∈ GC_events debug fuel m ids s path rank
  ↔ e = EPath rank s (path ++ [id_char s])
    ∨ (rank < m ∧ ∃ j, j < length ids
         ∧ e ∈ GC_sub debug (fuel - 1) m (<[s:=false]> ids)
                 (path ++ [id_char s]) rank j)
    ∨ (debug = true ∧ e = ETouch (path ++ [id_char s])).
Proof.
  intros Hfuel. destruct (decide (rank < m)) as [Hlt|Hge].
  - destruct fuel as [|fuel]; [lia|]. rewrite GC_events_S.
    rewrite decide_True by done. simpl. rewrite Nat.sub_0_r.
    rewrite elem_of_cons, elem_of_app. split.
    + intros [->|[He|He]]; [by left| |].
      * right; left. split; [done|].
        apply list_elem_of_In, in_flat_map in He as [j [Hj He]].
        apply in_seq in Hj. exists j. split; [lia|]. by apply list_elem_of_In.
      * right; right. destruct debug; [|by apply not_elem_of_nil in He].
        apply list_elem_of_singleton in He. done.
    + intros [->|[[_ (j & Hj & He)]|[-> ->]]]; [by left| |].
      * right; left. apply list_elem_of_In, in_flat_map. exists j.
        split; [apply in_seq; lia|by apply list_elem_of_In].
      * right; right. by apply list_elem_of_singleton.
  - rewrite GC_events_0 by done. rewrite elem_of_cons. split.
    + intros [->|He]; [by left|]. right; right.
      destruct debug; [|by apply not_elem_of_nil in He].
      apply list_elem_of_singleton in He. done.
    + intros [->|[[? _]|[-> ->]]]; [by left|lia|].
      right. by apply list_elem_of_singleton.
Qed.

Section TraceMore.
Context (debug : bool) (m : nat).

(** Every path pushed below the first one extends a path pushed one rank
    higher by the character of its own id. *)
Lemma GC_events_parent fuel : ∀ ids s path rank r i P,
  m - rank ≤ fuel →
  EPath r i P ∈ GC_events debug fuel m ids s path rank →
  (r = rank ∧ i = s ∧ P = path ++ [id_char s])
  ∨ (rank < r ∧ ∃ Q i', P = Q ++ [id_char i]
       ∧ EPath (r - 1) i' Q ∈ GC_events debug fuel m ids s path rank).
Proof.
  induction fuel as [|fuel IH]; intros ids s path rank r i P Hfuel Hin.
  - apply elem_of_GC_events in Hin as [Heq|[[Hlt _]|[_ Heq]]];
      [|lia|done|done]. inversion Heq. by left.
  - pose proof Hin as Hin0.
    apply elem_of_GC_events in Hin as [Heq|[[Hlt (j & Hj & Hin)]|[_ Heq]]];
      [inversion Heq; by left| |done|done].
    simpl in Hin. rewrite Nat.sub_0_r in Hin.
    apply elem_of_GC_sub in Hin as [Hid [Hin|Heq]]; [|done].
    assert (Hsub : ∀ e,
      e ∈ GC_events debug fuel m (<[s:=false]> ids) j
            (path ++ [id_char s]) (rank + 1) →
      e ∈ GC_events debug (S fuel) m ids s path rank).
    { intros e He. apply elem_of_GC_events; [done|]. right; left.
      split; [done|]. exists j. split; [done|]. simpl.
      rewrite Nat.sub_0_r. apply elem_of_GC_sub. by split; [|left]. }
    right. apply IH in Hin as [(-> & -> & ->)|(Hr & Q & i' & -> & Hin)];
      [| |lia].
    + split; [lia|]. exists (path ++ [id_char s]), s. split; [done|].
      replace (rank + 1 - 1) with rank by lia. apply GC_events_head.
    + split; [lia|]. exists Q, i'. split; [done|]. by apply Hsub.
Qed.
End TraceMore.

Section PathForm.
Context (debug : bool) (m n : nat).
Hypothesis id_char_inj :
  ∀ j j', j < n → j' < n → id_char j = id_char j' → j = j'.

Lemma ids_track_avail ids path j :
  ids_track n ids path → j < n → id_char j ∉ path → ids !! j = Some true.
Proof. intros [_ H] Hj Hp. by apply H. Qed.

Lemma id_char_not_in (l : list nat) s :
  s < n → (∀ k, k ∈ l → k < n) → id_char s ∉ id_char <$> l → s ∉ l.
Proof.
  intros Hs Hl Hn Hin. apply Hn. apply list_elem_of_fmap. by exists s.
Qed.

Lemma id_char_not_in_fmap (l : list nat) s :
  s < n → (∀ k, k ∈ l → k < n) → s ∉ l → id_char s ∉ id_char <$> l.
Proof.
  intros Hs Hl Hn Hin. apply list_elem_of_fmap in Hin as (k & Heq & Hk).
  apply Hn. rewrite (id_char_inj s k); [done|done|by apply Hl|done].
Qed.

(** The paths that a call pushes are the characters of lists of
    pairwise different ids below [n] that extend the list of the call. *)
Lemma GC_events_ids fuel : ∀ ids s path rank l0 r i P,
  ids_track n ids path → s < n → ids !! s = Some true →
  path = id_char <$> l0 → NoDup l0 → (∀ k, k ∈ l0 → k < n) →
  m - rank ≤ fuel →
  EPath r i P ∈ GC_events debug fuel m ids s path rank →
  ∃ l, P = id_char <$> (l0 ++ s :: l) ∧ NoDup (l0 ++ s :: l)
       ∧ (∀ k, k ∈ l → k < n) ∧ last (s :: l) = Some i.
Proof.
  induction fuel as [|fuel IH];
    intros ids s path rank l0 r i P Htr Hs Hids -> Hnd Hlt Hfuel Hin.
  - apply elem_of_GC_events in Hin as [Heq|[[? _]|[_ Heq]]];
      [|lia|done|done]. inversion Heq; subst. exists [].
    rewrite fmap_app. repeat split; try done.
    + apply NoDup_app. repeat split; [done| |apply NoDup_singleton].
      intros k Hk ->%list_elem_of_singleton.
      destruct Htr as [_ Htr]. apply (Htr s Hs) in Hids. apply Hids.
      apply list_elem_of_fmap. by exists s.
    + intros k Hk. by apply not_elem_of_nil in Hk.
  - assert (Hnotin : s ∉ l0).
    { apply id_char_not_in; [done|done|]. destruct Htr as [_ Htr].
      by apply (Htr s Hs). }
    assert (Hnd' : NoDup (l0 ++ [s])).
    { apply NoDup_app. repeat split; [done| |apply NoDup_singleton].
      by intros k Hk ->%list_elem_of_singleton. }
    apply elem_of_GC_events in Hin as [Heq|[[Hlt' (j & Hj & Hin)]|[_ Heq]]];
      [| |done|done].
    + inversion Heq; subst. exists []. rewrite fmap_app.
      repeat split; try done. intros k Hk. by apply not_elem_of_nil in Hk.
    + simpl in Hin. rewrite Nat.sub_0_r in Hin.
      apply elem_of_GC_sub in Hin as [Hid [Hin|Heq]]; [|done].
      pose proof Htr as [Hlen _]. rewrite Hlen in Hj.
      apply (IH _ _ _ _ (l0 ++ [s])) in Hin; try done.
      * destruct Hin as (l & -> & Hnd2 & Hl & Hlast).
        exists (j :: l). rewrite <- app_assoc in *. simpl in *.
        repeat split; try done.
        intros k [->|Hk]%elem_of_cons; [done|by apply Hl].
      * by apply (ids_track_step n id_char_inj).
      * by rewrite fmap_app.
      * intros k [Hk| ->%list_elem_of_singleton]%elem_of_app;
          [by apply Hlt|done].
      * lia.
Qed.

(** A path of the tree that is not at the last rank has, for every id
    that does not occur in it, its extension by that id in the tree. *)
Lemma GC_events_extend fuel : ∀ ids s path rank r i' Q i,
  ids_track n ids path → s < n →
  rank = length path → m - rank ≤ fuel →
  EPath r i' Q ∈ GC_events debug fuel m ids s path rank →
  r < m → i < n → id_char i ∉ Q →
  EPath (r + 1) i (Q ++ [id_char i]) ∈ GC_events debug fuel m ids s path rank.
Proof.
  induction fuel as [|fuel IH];
    intros ids s path rank r i' Q i Htr Hs Hrank Hfuel Hin Hr Hi HQ.
  - apply elem_of_GC_events in Hin as [Heq|[[? _]|[_ Heq]]];
      [|lia|done|done]. inversion Heq; subst. lia.
  - pose proof (ids_track_step n id_char_inj ids path s Hs Htr) as Htr'.
    pose proof Htr as [Hlen _].
    apply elem_of_GC_events in Hin as [Heq|[[Hlt' (j & Hj & Hin)]|[_ Heq]]];
      [| |done|done].
    + inversion Heq; subst r i' Q.
      apply elem_of_GC_events; [done|]. right; left. split; [done|].
      exists i. split; [lia|]. simpl. rewrite Nat.sub_0_r.
      apply elem_of_GC_sub.
      split; [by apply (ids_track_avail _ (path ++ [id_char s]))|].
      left. apply GC_events_head.
    + simpl in Hin. rewrite Nat.sub_0_r in Hin.
      apply elem_of_GC_sub in Hin as [Hid [Hin|Heq]]; [|done].
      apply elem_of_GC_events; [done|]. right; left.
      split; [done|]. exists j. split; [done|]. simpl. rewrite Nat.sub_0_r.
      apply elem_of_GC_sub. split; [done|]. left.
      apply (IH _ _ _ _ r i'); try done.
      * lia.
      * rewrite length_app. simpl. lia.
      * lia.
Qed.
End PathForm.

Section Tree.
Context (T : Traits).
Hypothesis source_lt : mSource T < mN T.
Hypothesis small : mN T ≤ 256.
#[local] Abbreviation tp := (topo (construct T)).

Lemma char_inj j j' :
  j < mN T → j' < mN T → id_char j = id_char j' → j = j'.
Proof. apply id_char_inj_256, small. Qed.

Lemma paths_by_rank_tree P r i :
  P ∈ paths_by_rank tp r i → tree_path T r i P.
Proof.
  intros HP.
  pose proof (paths_by_rank_shape T source_lt P r i HP) as (Hlen & Hr & _).
  apply (elem_of_paths_by_rank_construct T source_lt) in HP.
  apply (GC_events_ids (mDebug T) (mM T) (mN T) char_inj _ _ _ _ _ [])
    in HP as (l & -> & Hnd & Hl & Hlast); try done.
  - exists (mSource T :: l). simpl in *. repeat split; try done.
    + intros k [->|Hk]%elem_of_cons; [done|by apply Hl].
    + rewrite length_fmap in Hlen. simpl in Hlen. done.
  - apply ids_track_init.
  - by rewrite lookup_replicate.
  - apply NoDup_nil_2.
  - intros k Hk. by apply not_elem_of_nil in Hk.
  - lia.
Qed.

Lemma tree_paths_by_rank P r i :
  tree_path T r i P → P ∈ paths_by_rank tp r i.
Proof.
  intros (l & -> & Hnd & Hl & Hhd & Hlast & Hlen & Hr).
  apply (elem_of_paths_by_rank_construct T source_lt).
  revert r i Hnd Hl Hhd Hlast Hlen Hr.
  induction l as [|k l IH] using rev_ind; intros r i Hnd Hl Hhd Hlast Hlen Hr;
    [done|].
  rewrite last_snoc in Hlast. injection Hlast as ->.
  destruct l as [|s l].
  - simpl in *. injection Hhd as ->. replace r with 0 by lia.
    apply (GC_events_head _ _ _ _ _ []).
  - simpl in Hhd. injection Hhd as ->.
    rewrite length_app in Hlen. simpl in Hlen.
    apply NoDup_app in Hnd as (Hnd & Hdis & _).
    destruct (last (mSource T :: l)) as [i'|] eqn:Hlast';
      [|by apply last_None in Hlast'].
    assert (Hprev : EPath (r - 1) i' (id_char <$> mSource T :: l)
                    ∈ init_events T).
    { apply IH; try done.
      - intros k Hk. apply Hl, elem_of_app. by left.
      - simpl. lia.
      - lia. }
    rewrite fmap_app. change (id_char <$> [i]) with [id_char i].
    replace r with (r - 1 + 1) at 1 by lia. unfold init_events in *.
    apply (GC_events_extend (mDebug T) (mM T) (mN T) char_inj _ _ _ _ _
             (r - 1) i'); try done.
    + apply ids_track_init.
    + lia.
    + lia.
    + apply Hl, elem_of_app. right. by left.
    + apply (id_char_not_in_fmap (mN T) char_inj).
      * apply Hl, elem_of_app. right. by left.
      * intros k' Hk'. apply Hl, elem_of_app. by left.
      * intros Hin. apply (Hdis _ Hin). by left.
Qed.

Lemma paths_by_rank_last P r i :
  P ∈ paths_by_rank tp r i → last P = Some (id_char i).
Proof.
  intros (l & -> & _ & _ & _ & Hlast & _)%paths_by_rank_tree.
  by rewrite fmap_last, Hlast.
Qed.

Lemma paths_by_rank_unique P r i r' i' :
  P ∈ paths_by_rank tp r i → P ∈ paths_by_rank tp r' i' → r = r' ∧ i = i'.
Proof.
  intros H1 H2.
  pose proof (paths_by_rank_shape T source_lt P r i H1) as (Hlen & _ & Hi).
  pose proof (paths_by_rank_shape T source_lt P r' i' H2) as (Hlen' & _ & Hi').
  split; [lia|]. apply paths_by_rank_last in H1, H2.
  rewrite H1 in H2. injection H2 as H2. by apply char_inj.
Qed.

Lemma paths_by_rank_NoDup P r i :
  P ∈ paths_by_rank tp r i → NoDup P.
Proof.
  intros (l & -> & Hnd & Hl & _)%paths_by_rank_tree.
  apply NoDup_fmap_2_strong; [|done].
  intros j j' Hj Hj'. apply char_inj; by apply Hl.
Qed.

Lemma paths_by_rank_head P r i :
  P ∈ paths_by_rank tp r i → head P = Some (id_char (mSource T)).
Proof.
  intros (l & -> & _ & _ & Hhd & _)%paths_by_rank_tree.
  destruct l; [done|]. simpl in *. by injection Hhd as ->.
Qed.
End Tree.

Lemma parent_snoc (Q : Path) c : parent (Q ++ [c]) = Q.
Proof.
  unfold parent. rewrite length_app. simpl.
  replace (length Q + 1 - 1) with (length Q) by lia.
  by rewrite take_app_length.
Qed.

Section TreeMore.
Context (T : Traits).
Hypothesis source_lt : mSource T < mN T.
#[local] Abbreviation tp := (topo (construct T)).

Lemma paths_by_rank_0 P i :
  P ∈ paths_by_rank tp 0 i → i = mSource T ∧ P = [id_char (mSource T)].
Proof.
  intros HP. apply (elem_of_paths_by_rank_construct T source_lt) in HP.
  apply GC_events_paths in HP as [_ [(_ & -> & ->)|(? & _)]]; [done|lia|done].
Qed.

Lemma paths_by_rank_parent P r i :
  P ∈ paths_by_rank tp r i → 1 ≤ r →
  ∃ i', P = parent P ++ [id_char i]
        ∧ parent P ∈ paths_by_rank tp (r - 1) i'.
Proof.
  intros HP Hr. apply (elem_of_paths_by_rank_construct T source_lt) in HP.
  apply GC_events_parent in HP as [(? & _)|(_ & Q & i' & -> & HQ)];
    [lia| |lia].
  exists i'. rewrite parent_snoc. split; [done|].
  by apply (elem_of_paths_by_rank_construct T source_lt).
Qed.

Lemma children_of_topo P r i :
  mN T ≤ 256 →
  P ∈ paths_by_rank tp r i →
  children_of tp P
  = if decide (r < mM T) then expected_kids (mN T) P else [].
Proof.
  intros Hn HP.
  pose proof (paths_by_rank_shape T source_lt P r i HP) as (Hlen & Hr & _).
  apply (elem_of_paths_by_rank_construct T source_lt) in HP.
  destruct (GC_events_kids (mDebug T) (mM T) (mN T)
              (λ j j', id_char_inj_256 (mN T) j j' Hn)
              (mM T) (replicate (mN T) true) (mSource T) [] 0 r i P)
    as [Hkids _]; try done.
  - apply ids_track_init.
  - by rewrite lookup_replicate.
  - lia.
  - rewrite free_count_nil. simpl. lia.
  - fold (init_events T) in Hkids.
    rewrite (children_of_construct T source_lt), Hkids.
    destruct (decide (r < mM T)).
    + by rewrite decide_True by lia.
    + by rewrite decide_False by lia.
Qed.

Lemma child_in_topo P r i k :
  mN T ≤ 256 →
  P ∈ paths_by_rank tp r i → r < mM T → k < mN T → id_char k ∉ P →
  P ++ [id_char k] ∈ paths_by_rank tp (r + 1) k.
Proof.
  intros Hn HP Hr Hk Hnot.
  apply (elem_of_paths_by_rank_construct T source_lt) in HP.
  apply (elem_of_paths_by_rank_construct T source_lt).
  apply (GC_events_extend (mDebug T) (mM T) (mN T)
           (λ j j', id_char_inj_256 (mN T) j j' Hn) _ _ _ _ _ r i); try done.
  - apply ids_track_init.
  - lia.
Qed.
End TreeMore.

(** ** How often the constructors run [GenerateChildren] *)

Lemma Forall_is_EPath_rep k E :
  1 ≤ k → Forall is_EPath (rep_events k E) ↔ Forall is_EPath E.
Proof.
  intros Hk. rewrite !Forall_forall. split.
  - intros H e He. apply H, elem_of_rep_events. done.
  - intros H e He. apply elem_of_rep_events in He as [_ He]. by apply H.
Qed.

Lemma pbr_of_rep_single r i k E x :
  pbr_of r i E = [x] → pbr_of r i (rep_events k E) = replicate k x.
Proof.
  intros HE. induction k as [|k IH]; [done|].
  simpl. rewrite pbr_of_app, IH, HE. clear.
  induction k as [|k IH]; simpl; [done|]. by rewrite IH.
Qed.

Lemma pbr_of_nil_iff r i E : pbr_of r i E = [] ↔ ∀ P, EPath r i P ∉ E.
Proof.
  split.
  - intros H P HP. apply elem_of_pbr_of in HP. rewrite H in HP.
    by apply not_elem_of_nil in HP.
  - intros H. destruct (pbr_of r i E) as [|P l] eqn:Hp; [done|].
    exfalso. apply (H P), elem_of_pbr_of. rewrite Hp. by left.
Qed.

(** A call registers its own path once. *)
Lemma pbr_of_own debug fuel m ids s path rank :
  rank = length path →
  pbr_of rank s (GC_events debug fuel m ids s path rank)
  = [path ++ [id_char s]].
Proof.
  intros Hrank.
  assert (Hrest : ∀ E, (∀ P, EPath rank s P ∉ E) →
    pbr_of rank s (EPath rank s (path ++ [id_char s]) :: E)
    = [path ++ [id_char s]]).
  { intros E HE. change (EPath rank s (path ++ [id_char s]) :: E)
      with ([EPath rank s (path ++ [id_char s])] ++ E).
    rewrite pbr_of_app. apply pbr_of_nil_iff in HE. rewrite HE.
    unfold pbr_of. simpl. by rewrite decide_True. }
  destruct fuel as [|fuel]; simpl; apply Hrest; intros P HP.
  - apply elem_of_app in HP as [HP|HP].
    + destruct (decide (rank < m)); by apply not_elem_of_nil in HP.
    + not_a_touch debug HP.
  - apply elem_of_app in HP as [HP|HP]; [|not_a_touch debug HP].
    destruct (decide (rank < m)); [|by apply not_elem_of_nil in HP].
    apply list_elem_of_In, in_flat_map in HP as [j [_ HP]].
    apply list_elem_of_In in HP.
    destruct (default false (<[s:=false]> ids !! j));
      [|by apply not_elem_of_nil in HP].
    apply elem_of_app in HP as [HP|HP];
      [|by apply list_elem_of_singleton in HP].
    apply GC_events_paths in HP as [_ [(? & _)|(? & _)]]; [lia|lia|].
    rewrite length_app. simpl. lia.
Qed.

Section Replays.
Context (T : Traits).
Hypothesis source_lt : mSource T < mN T.
#[local] Abbreviation tp := (topo (construct T)).

Lemma construct_steps_count l : ∀ w k,
  1 ≤ k →
  topo w = foldl apply_event empty_Topology (rep_events k (init_events T)) →
  ∃ k', topo (foldl (construct_step T) w l)
        = foldl apply_event empty_Topology (rep_events k' (init_events T))
      ∧ (Forall is_EPath (init_events T) → k' = k + length l)
      ∧ (¬ Forall is_EPath (init_events T) → k' = k).
Proof.
  induction l as [|i l IH]; intros w k Hk Htopo.
  - exists k. simpl. split; [done|]. split; [lia|done].
  - cbn [foldl].
    assert (Hstep : ∃ k1, 1 ≤ k1
      ∧ topo (construct_step T w i)
        = foldl apply_event empty_Topology (rep_events k1 (init_events T))
      ∧ (Forall is_EPath (init_events T) → k1 = k + 1)
      ∧ (¬ Forall is_EPath (init_events T) → k1 = k)).
    { unfold construct_step, Process_ctor. simpl.
      destruct (decide (size (mChildren (topo w)) = 0)) as [Hsz|Hsz].
      - exists (S k). apply map_size_empty_iff in Hsz. rewrite Htopo in Hsz.
        apply mChildren_apply_empty in Hsz as [_ Hall].
        apply Forall_is_EPath_rep in Hall; [|done].
        split; [lia|]. split; [|split; [lia|done]]. simpl.
        by rewrite GC_events_spec, Htopo, <- foldl_app.
      - exists k. split; [done|]. split; [done|]. split; [|done].
        intros Hall. exfalso. apply Hsz, map_size_empty_iff.
        rewrite Htopo. apply mChildren_apply_empty. split; [done|].
        by apply Forall_is_EPath_rep. }
    destruct Hstep as (k1 & Hk1 & Htopo1 & Hall1 & Hnot1).
    destruct (IH _ k1 Hk1 Htopo1) as (k2 & Htopo2 & Hall2 & Hnot2).
    exists k2. split; [done|]. split.
    + intros Hall. rewrite (Hall2 Hall), (Hall1 Hall). simpl. lia.
    + intros Hnot. by rewrite (Hnot2 Hnot), (Hnot1 Hnot).
Qed.

Lemma construct_count :
  ∃ k, topo (construct T)
       = foldl apply_event empty_Topology (rep_events k (init_events T))
     ∧ (Forall is_EPath (init_events T) → k = mN T)
     ∧ (¬ Forall is_EPath (init_events T) → k = 1).
Proof.
  unfold construct.
  assert (Hseq : seq 0 (mN T) = 0 :: seq 1 (mN T - 1)).
  { pose proof source_lt as Hlt. destruct (mN T); [lia|].
    simpl. by rewrite Nat.sub_0_r. }
  rewrite Hseq. cbn [foldl].
  assert (H1 : topo (construct_step T (mkWorld empty_Topology []) 0)
               = foldl apply_event empty_Topology
                   (rep_events 1 (init_events T))).
  { unfold construct_step, Process_ctor. simpl.
    rewrite decide_True by apply map_size_empty.
    rewrite GC_events_spec. done. }
  destruct (construct_steps_count (seq 1 (mN T - 1)) _ 1 (le_n 1) H1)
    as (k & Htopo & Hall & Hnot).
  exists k. split; [done|]. split; [|done].
  intros H. rewrite (Hall H), length_seq. pose proof source_lt. lia.
Qed.

Lemma init_events_all_EPath :
  Forall is_EPath (init_events T)
  ↔ mDebug T = false ∧ (mM T = 0 ∨ mN T = 1).
Proof.
  unfold init_events. split.
  - intros Hall. rewrite Forall_forall in Hall. split.
    + destruct (mDebug T) eqn:Hd; [|done]. exfalso.
      apply (Hall (ETouch ([] ++ [id_char (mSource T)]))).
      apply elem_of_GC_events; [lia|]. by right; right.
    + destruct (decide (mM T = 0)) as [|Hm]; [by left|right].
      destruct (decide (mN T = 1)) as [|Hn]; [done|]. exfalso.
      set (j := if decide (mSource T = 0) then 1 else 0).
      assert (Hj : j < mN T ∧ j ≠ mSource T).
      { unfold j. pose proof source_lt. case_decide; lia. }
      apply (Hall (EChild ([] ++ [id_char (mSource T)])
                     (([] ++ [id_char (mSource T)]) ++ [id_char j]))).
      apply elem_of_GC_events; [lia|]. right; left. split; [lia|].
      exists j. rewrite length_replicate. split; [lia|].
      apply elem_of_GC_sub. split; [|by right].
      rewrite list_lookup_insert_ne by lia.
      rewrite lookup_replicate. split; [done|lia].
  - intros [Hd Hcase]. apply Forall_forall. intros e He.
    apply elem_of_GC_events in He as [->|[[Hlt (j & Hj & He)]|[Hd' _]]];
      [done| |congruence|lia].
    destruct Hcase as [Hm|Hn]; [lia|].
    rewrite length_replicate, Hn in Hj.
    apply elem_of_GC_sub in He as [Hid _]. exfalso.
    pose proof source_lt as Hs. rewrite Hn in Hs.
    assert (j = 0) as -> by lia. assert (mSource T = 0) as Hs0 by lia.
    rewrite Hs0, Hn in Hid. simpl in Hid. done.
Qed.

Lemma root_list k :
  topo (construct T)
  = foldl apply_event empty_Topology (rep_events k (init_events T)) →
  paths_by_rank tp 0 (mSource T) = replicate k [id_char (mSource T)].
Proof.
  intros Htopo. rewrite Htopo, paths_by_rank_apply.
  unfold paths_by_rank at 1. simpl. rewrite lookup_empty. simpl.
  apply pbr_of_rep_single. unfold init_events.
  by rewrite pbr_of_own.
Qed.
End Replays.

(** ** What the rounds leave in the node maps *)

Lemma ensure_present (Q : Path) (m : gmap Path Node) :
  is_Some (m !! Q) → ensure Q m = m.
Proof. intros [nd H]. unfold ensure. by rewrite H. Qed.

Lemma length_parent (P : Path) : length (parent P) = length P - 1.
Proof. unfold parent. rewrite length_take. lia. Qed.

Section Relay.
Context (T : Traits).
Hypothesis source_lt : mSource T < mN T.
#[local] Abbreviation tp := (topo (construct T)).
#[local] Abbreviation final := (processes (run_rounds T (construct T))).

Lemma nodes_of_source procs :
  Good T procs → nodes_of procs (mSource T) = {[ [] := GetSourceValue T ]}.
Proof.
  intros (_ & _ & Hsrc). unfold nodes_of. rewrite Hsrc. simpl.
  by rewrite decide_True.
Qed.

Lemma send_path_nodes self procs P0 j :
  Good T procs → self < mN T →
  is_Some (nodes_of procs self !! parent P0) →
  nodes_of (send_path T self procs P0) j
  = if decide (j < mN T ∧ j ≠ mSource T)
    then <[P0 := relayed T procs self j P0]> (nodes_of procs j)
    else nodes_of procs j.
Proof.
  intros (Hlen & Hid & Hsrc) Hself Hpar. unfold nodes_of at 1.
  rewrite send_path_lookup.
  destruct (procs !! j) as [p|] eqn:Hp.
  - assert (Hj : j < mN T) by (rewrite <- Hlen; by eapply lookup_lt_Some).
    assert (Hnj : nodes_of procs j = mNodes p)
      by (unfold nodes_of; by rewrite Hp).
    simpl. rewrite Hnj.
    assert (Hens : (if decide (j = self)
                    then ensure (take (length P0 - 1) P0) else id) (mNodes p)
                   = mNodes p).
    { case_decide as Hjs; [|done]. subst j. apply ensure_present.
      rewrite <- Hnj. apply Hpar. }
    rewrite Hens. clear Hens.
    destruct (decide (j < mN T ∧ j ≠ mSource T)) as [Hd|Hd]; [|done].
    f_equal.
    unfold relayed, held. rewrite node_at_value.
    destruct (lookup_lt_is_Some_2 procs self) as [q Hq]; [lia|].
    unfold nodes_of, parent. rewrite Hq. simpl. by rewrite (Hid _ _ Hq).
  - simpl. apply lookup_ge_None in Hp.
    rewrite decide_False by lia. unfold nodes_of.
    apply lookup_ge_None in Hp. by rewrite Hp.
Qed.

Lemma send_path_held self procs P0 i Q :
  Good T procs → self < mN T →
  is_Some (nodes_of procs self !! parent P0) → Q ≠ P0 →
  held (send_path T self procs P0) i Q = held procs i Q.
Proof.
  intros HG Hself Hpar Hne. unfold held.
  rewrite (send_path_nodes self procs P0 i HG Hself Hpar).
  case_decide; [|done]. by rewrite lookup_insert_ne.
Qed.

Lemma sender_holds_parent k self procs P0 :
  RInv T k procs → self < mN T → P0 ∈ paths_by_rank tp k self →
  is_Some (nodes_of procs self !! parent P0).
Proof.
  intros (HG & HH & _) Hself HP0.
  destruct (decide (self = mSource T)) as [->|Hne].
  - apply (own_paths_of_source T source_lt) in HP0 as ->.
    rewrite (nodes_of_source _ HG). unfold parent. simpl.
    by rewrite lookup_singleton_eq.
  - destruct (decide (k = 0)) as [->|Hk].
    { by apply (paths_by_rank_0 T source_lt) in HP0 as [? _]. }
    destruct (paths_by_rank_parent T source_lt P0 k self HP0) as (i' & _ & Hpar);
      [lia|].
    destruct HG as (Hlen & _ & _).
    destruct (lookup_lt_is_Some_2 procs self) as [q Hq]; [lia|].
    unfold nodes_of. rewrite Hq. simpl.
    by apply (HH (k - 1) i' (parent P0) ltac:(lia) Hpar self q).
Qed.

Lemma send_path_RInv k self procs P0 :
  RInv T k procs → self < mN T → P0 ∈ paths_by_rank tp k self →
  RInv T k (send_path T self procs P0).
Proof.
  intros HI Hself HP0.
  pose proof (sender_holds_parent k self procs P0 HI Hself HP0) as Hpar.
  destruct HI as (HG & HH & HR).
  pose proof (paths_by_rank_shape T source_lt P0 k self HP0) as (HlenP0 & _ & _).
  split; [|split].
  - apply send_path_Good; [done|]. intros ->.
    by apply (own_paths_of_source T source_lt) in HP0.
  - intros r i Q Hr HQ. apply send_path_Has_mono. by eapply HH.
  - intros j P nd Hj Hnd.
    assert (Hstable : ∀ i P', length P' ≤ k + 1 →
              relayed T (send_path T self procs P0) i j P'
              = relayed T procs i j P').
    { intros i P' HP'. unfold relayed.
      rewrite (send_path_held self procs P0 i (parent P') HG Hself Hpar);
        [done|].
      intros Heq. apply (f_equal length) in Heq.
      rewrite length_parent in Heq. lia. }
    rewrite (send_path_nodes self procs P0 j HG Hself Hpar) in Hnd.
    assert (Hold : nodes_of procs j !! P = Some nd →
              length P ≤ k + 1
              ∧ ∃ i, i < mN T ∧ P ∈ paths_by_rank tp (length P - 1) i
                   ∧ nd = relayed T (send_path T self procs P0) i j P).
    { intros Hnd'. destruct (HR j P nd Hj Hnd') as (Hl & i & Hi & HPi & ->).
      split; [done|]. exists i. split; [done|]. split; [done|].
      by rewrite Hstable. }
    case_decide as Hd; [|by apply Hold].
    destruct (decide (P = P0)) as [->|Hne].
    + rewrite lookup_insert_eq in Hnd. injection Hnd as <-.
      split; [lia|]. exists self. split; [done|]. split.
      * by replace (length P0 - 1) with k by lia.
      * rewrite Hstable; [done|lia].
    + rewrite lookup_insert_ne in Hnd by done. by apply Hold.
Qed.

Lemma SendMessages_RInv k self procs :
  RInv T k procs → self < mN T →
  RInv T k (SendMessages T tp k self procs).
Proof.
  intros HI Hself. rewrite SendMessages_unfold; [|by destruct HI|done].
  apply (foldl_invariant (send_path T self) (RInv T k)
           (λ P, P ∈ paths_by_rank tp k self)); [|done|].
  - intros a P Ha HP. by apply send_path_RInv.
  - by apply Forall_forall.
Qed.

Lemma run_round_RInv k procs :
  RInv T k procs → RInv T (k + 1) (run_round T tp procs k).
Proof.
  intros HI.
  assert (HI' : RInv T k (run_round T tp procs k)).
  { unfold run_round.
    apply (foldl_invariant (λ procs j, SendMessages T tp k j procs)
             (RInv T k) (λ j, j < mN T)); [|done|].
    - intros a j Ha Hj. by apply SendMessages_RInv.
    - apply Forall_forall. intros j Hj. apply elem_of_seq in Hj. lia. }
  destruct HI' as (HG' & HH' & HR'). destruct HI as (HG & HH & _).
  split; [done|]. split.
  - intros r i Q Hr HQ. destruct (decide (r = k)) as [->|Hne].
    + pose proof (paths_by_rank_shape T source_lt Q k i HQ) as (_ & _ & Hi).
      apply (run_round_Has T source_lt k procs i Q HG). right. done.
    + apply (HH' r i Q); [lia|done].
  - intros j P nd Hj Hnd. destruct (HR' j P nd Hj Hnd) as (Hl & Hrest).
    split; [lia|done].
Qed.

Lemma RInv_construct : RInv T 0 (processes (construct T)).
Proof.
  split; [by apply Good_construct|]. split; [intros; lia|].
  intros j P nd Hj Hnd. exfalso. unfold nodes_of in Hnd.
  rewrite (construct_processes T source_lt) in Hnd.
  rewrite list_lookup_fmap in Hnd.
  destruct (seq 0 (mN T) !! j) as [x|] eqn:Hx; simpl in Hnd; [|done].
  apply lookup_seq in Hx as [-> _]. simpl in Hnd.
  by rewrite decide_False in Hnd.
Qed.

Lemma run_rounds_RInv : RInv T (mM T + 1) final.
Proof.
  unfold run_rounds. simpl.
  assert (H : ∀ k procs, RInv T 0 procs →
            RInv T k (foldl (run_round T tp) procs (seq 0 k))).
  { induction k as [|k IH]; intros procs HI; [done|].
    rewrite seq_S, foldl_app. simpl.
    replace (S k) with (k + 1) by lia. apply run_round_RInv. by apply IH. }
  apply H, RInv_construct.
Qed.

(** After the rounds, a process other than the source holds nodes at the
    paths of the topology and nowhere else. *)
Lemma final_keys j P :
  j < mN T → j ≠ mSource T →
  is_Some (nodes_of final j !! P) ↔ in_topo tp P.
Proof.
  intros Hj Hne. split.
  - intros [nd Hnd].
    destruct run_rounds_RInv as (_ & _ & HR).
    destruct (HR j P nd Hne Hnd) as (_ & i & _ & HP & _).
    by exists (length P - 1), i.
  - intros (r & i & HP).
    destruct (final_lookup T source_lt j Hj) as (p & Hp & _).
    unfold nodes_of. rewrite Hp. simpl.
    by apply (run_rounds_Has T source_lt r i P HP j p).
Qed.

(** The node of process [j] at a path of process [i] is the one that [i]
    made from what it holds, at the end, at the parent path. *)
Lemma final_relayed r i j P :
  mN T ≤ 256 → j < mN T → j ≠ mSource T →
  P ∈ paths_by_rank tp r i →
  nodes_of final j !! P = Some (relayed T final i j P).
Proof.
  intros Hn Hj Hne HP.
  destruct (proj2 (final_keys j P Hj Hne)) as [nd Hnd]; [by exists r, i|].
  rewrite Hnd. f_equal.
  destruct run_rounds_RInv as (_ & _ & HR).
  destruct (HR j P nd Hne Hnd) as (_ & i' & _ & HP' & ->).
  by destruct (paths_by_rank_unique T source_lt Hn P _ _ _ _ HP HP') as [_ ->].
Qed.
End Relay.

(** ** [Decide] as a recursion over the tree *)

Lemma out_step_eq g nds P :
  is_Some (nds !! P) → out (step g nds P) P = g nds P.
Proof.
  intros [nd H]. unfold out, step. rewrite lookup_alter_eq, H. done.
Qed.

Lemma out_step_ne g nds P K : K ≠ P → out (step g nds P) K = out nds K.
Proof. intros H. unfold out, step. by rewrite lookup_alter_ne. Qed.

(** A pass whose function reads nothing that the pass writes leaves, at
    every path of the list, the value of the function on the map before
    the pass. *)
Lemma pass_out g L : ∀ nds P,
  (∀ a K, agree (λ K, K ∈ L) nds a → K ∈ L → g a K = g nds K) →
  is_Some (nds !! P) → P ∈ L →
  out (pass g L nds) P = g nds P.
Proof.
  induction L as [|Q L IH] using rev_ind; intros nds P Hg HP HPL.
  { by apply not_elem_of_nil in HPL. }
  unfold pass. rewrite foldl_app. simpl. fold (pass g L nds).
  assert (Hag : agree (λ K, K ∈ L ++ [Q]) nds (pass g L nds)).
  { apply (agree_weaken (λ K, K ∈ L)).
    - intros K HK. apply elem_of_app. by left.
    - apply pass_agree_right; [|apply agree_refl].
      by apply Forall_forall. }
  destruct (decide (P = Q)) as [->|Hne].
  - rewrite out_step_eq by (by apply pass_is_Some).
    apply Hg; [done|]. apply elem_of_app. right. by left.
  - rewrite out_step_ne by done.
    apply elem_of_app in HPL as [HPL|HPL];
      [|by apply list_elem_of_singleton in HPL].
    apply IH; [|done|done].
    intros a K Ha HK. apply Hg.
    + apply (agree_weaken (λ K, K ∈ L)); [|done].
      intros K' HK'. apply elem_of_app. by left.
    + apply elem_of_app. by left.
Qed.

Lemma pass_out_other g L nds P :
  P ∉ L → out (pass g L nds) P = out nds P.
Proof.
  intros HP. symmetry. apply (agree_out (λ K, K ∈ L)); [|done].
  apply pass_agree_right; [|apply agree_refl]. by apply Forall_forall.
Qed.

Section Eval.
Context (T : Traits).
Hypothesis source_lt : mSource T < mN T.
#[local] Abbreviation tp := (topo (construct T)).

Lemma g_red_stable r nds a K :
  agree (λ K, K ∈ rank_paths T tp r) nds a → K ∈ rank_paths T tp r →
  g_red T tp a K = g_red T tp nds K.
Proof.
  intros Ha HK. unfold g_red, child_votes. f_equal.
  apply Forall_fmap_ext_1, Forall_forall. intros c Hc. symmetry.
  apply (agree_out _ _ _ _ Ha). intros Hc'.
  apply (rank_paths_length T source_lt) in Hc', HK.
  apply (children_in_topo T source_lt) in Hc as [_ Hlen]. lia.
Qed.

(** The node map after the leaf pass and the reduction passes of the
    ranks [mM - 1] down to [mM - j]. *)
Lemma stages_out nds j :
  Present tp nds → j ≤ mM T →
  let X := foldl (λ nds r, pass (g_red T tp) (rank_paths T tp r) nds)
             (pass g_leaf (rank_paths T tp (mM T)) nds)
             (rev (seq (mM T - j) j)) in
  Present tp X
  ∧ ∀ r P, mM T - j ≤ r → r ≤ mM T → P ∈ rank_paths T tp r →
      out X P = eval T tp nds (mM T - r) P.
Proof.
  intros Hpre. induction j as [|j IH]; intros Hj; cbv zeta.
  - simpl. split; [by apply Present_pass|].
    intros r P Hr1 Hr2 HP. assert (r = mM T) as -> by lia.
    rewrite Nat.sub_diag. simpl. apply pass_out; [|  |done].
    + intros a K Ha _. symmetry. by eapply agree_g_leaf.
    + apply Hpre. by eapply rank_paths_in_topo.
  - destruct (IH ltac:(lia)) as [HpreX HX]. clear IH.
    replace (mM T - S j) with (mM T - j - 1) by lia.
    assert (Hseq : seq (mM T - j - 1) (S j)
                   = (mM T - j - 1) :: seq (mM T - j) j).
    { simpl. f_equal. f_equal. lia. }
    rewrite Hseq. simpl rev. rewrite foldl_app. simpl.
    set (X := foldl _ _ (rev (seq (mM T - j) j))) in *.
    split; [by apply Present_pass|].
    intros r P Hr1 Hr2 HP.
    destruct (decide (r = mM T - j - 1)) as [->|Hne].
    + rewrite pass_out; [| |by apply HpreX; eapply rank_paths_in_topo|done].
      * replace (mM T - (mM T - j - 1)) with (S (mM T - (mM T - j))) by lia.
        simpl. unfold g_red, child_votes. f_equal.
        apply Forall_fmap_ext_1, Forall_forall. intros c Hc.
        apply HX; [lia|lia|].
        destruct (children_are_paths T source_lt P c Hc)
          as (_ & k & Hk & _ & Hck).
        apply (rank_paths_length T source_lt) in HP. rewrite HP in Hck.
        apply elem_of_rank_paths. exists k. split; [done|].
        by replace (mM T - j) with (mM T - j - 1 + 1) by lia.
      * intros a K. apply g_red_stable.
    + rewrite pass_out_other.
      * apply HX; [lia|done|done].
      * intros HP'. apply (rank_paths_length T source_lt) in HP, HP'. lia.
Qed.

Lemma decide_nodes_out nds r i P :
  Present tp nds → P ∈ paths_by_rank tp r i →
  out (decide_nodes T tp nds) P = eval T tp nds (mM T - r) P.
Proof.
  intros Hpre HP.
  pose proof (paths_by_rank_shape T source_lt P r i HP) as (_ & Hr & Hi).
  destruct (stages_out nds (mM T) Hpre (le_n _)) as [_ H].
  rewrite Nat.sub_diag in H. unfold decide_nodes. apply H; [lia|done|].
  apply elem_of_rank_paths. by exists i.
Qed.

Lemma Decide_eval p :
  mId p ≠ mSource T → Present tp (mNodes p) →
  (Decide T tp p).1 = eval T tp (mNodes p) (mM T) [id_char (mSource T)].
Proof.
  intros Hid Hpre. rewrite (Decide_present T source_lt p Hid Hpre). simpl.
  rewrite (decide_nodes_out _ 0 (mSource T)); [|done|].
  - by rewrite Nat.sub_0_r.
  - by apply root_path_exists.
Qed.
End Eval.

(** ** Non-faulty relays and the majority *)

Lemma tally_fmap_le (vote : nat → ascii) (bad : nat → bool) w x K :
  (∀ k, k ∈ K → bad k = false → vote k = w) → x ≠ w →
  tally x (vote <$> K) ≤ length (filter (λ k, bad k = true) K).
Proof.
  intros Hgood Hx. induction K as [|k K IH]; [done|].
  rewrite fmap_cons, tally_cons, filter_cons.
  assert (IH' := IH (λ k' Hk', Hgood k' (list_elem_of_further _ _ _ Hk'))).
  destruct (bad k) eqn:Hb.
  - rewrite (decide_True (P:=true = true)) by done. simpl. case_decide; lia.
  - rewrite (decide_False (P:=false = true)) by done.
    rewrite decide_False; [lia|].
    rewrite (Hgood k); [by intros ->| by left|done].
Qed.

Lemma tally_fmap_ge (vote : nat → ascii) (bad : nat → bool) w K :
  (∀ k, k ∈ K → bad k = false → vote k = w) →
  length K ≤ tally w (vote <$> K) + length (filter (λ k, bad k = true) K).
Proof.
  intros Hgood. induction K as [|k K IH]; [done|].
  rewrite fmap_cons, tally_cons, filter_cons.
  assert (IH' := IH (λ k' Hk', Hgood k' (list_elem_of_further _ _ _ Hk'))).
  destruct (bad k) eqn:Hb.
  - rewrite (decide_True (P:=true = true)) by done. simpl. case_decide; lia.
  - rewrite (decide_False (P:=false = true)) by done.
    rewrite decide_True; [simpl; lia|]. apply Hgood; [by left|done].
Qed.

Lemma tally_disjoint w votes :
  w ≠ ONE → w ≠ ZERO →
  tally ONE votes + tally ZERO votes + tally w votes ≤ length votes.
Proof.
  intros H1 H0. induction votes as [|x votes IH]; [done|].
  rewrite !tally_cons. simpl. repeat case_decide; subst; try done; lia.
Qed.

(** When fewer than half of the voters are bad and the others all vote
    [w], the majority is [w] if [w] is ONE or ZERO, and UNKNOWN if it is
    neither and there are two voters at least. *)
Lemma majority_of_good dflt (vote : nat → ascii) (bad : nat → bool) w K :
  (∀ k, k ∈ K → bad k = false → vote k = w) →
  2 * length (filter (λ k, bad k = true) K) < length K →
  (w = ONE ∨ w = ZERO ∨ 2 ≤ length K) →
  majority_spec dflt (vote <$> K)
  = if decide (w = ONE ∨ w = ZERO) then w else UNKNOWN.
Proof.
  intros Hgood Hbad Hw.
  pose proof (tally_fmap_ge vote bad w K Hgood) as Hge.
  pose proof (λ x, tally_fmap_le vote bad w x K Hgood) as Hle.
  pose proof (tally_total (vote <$> K)) as Htot.
  unfold majority_spec. rewrite length_fmap in *.
  set (c := length K) in *. set (b := length (filter _ K)) in *.
  assert (Hc : c = 2 * (c / 2) + c mod 2) by apply Nat.div_mod_eq.
  assert (Hm : c mod 2 < 2) by (apply Nat.mod_upper_bound; lia).
  destruct (decide (w = ONE ∨ w = ZERO)) as [Hbin|Hbin].
  - destruct Hbin as [Hw1|Hw0]; subst w.
    + rewrite decide_True; [done|lia].
    + assert (ONE ≠ ZERO) as H10 by done. apply Hle in H10.
      rewrite decide_False by lia. rewrite decide_True; [done|lia].
  - assert (ONE ≠ w) as H1 by naive_solver.
    assert (ZERO ≠ w) as H0 by naive_solver.
    apply Hle in H1, H0.
    assert (Hdis : tally ONE (vote <$> K) + tally ZERO (vote <$> K)
                   + tally w (vote <$> K) ≤ c).
    { unfold c. rewrite <- (length_fmap vote K).
      apply tally_disjoint; naive_solver. }
    rewrite decide_False by lia. rewrite decide_False by lia.
    rewrite decide_False; [done|].
    destruct Hw as [?|[?|?]]; [naive_solver|naive_solver|]. lia.
Qed.

Lemma settled_binary d v : v = ONE ∨ v = ZERO → settled d v = v.
Proof. intros H. destruct d; [done|]. simpl. by rewrite decide_True. Qed.

Lemma settled_other d v :
  ¬ (v = ONE ∨ v = ZERO) → ¬ (settled d v = ONE ∨ settled d v = ZERO).
Proof.
  intros H. destruct d; [done|]. simpl. rewrite decide_False by done.
  intros [?|?]; done.
Qed.

Lemma filter_comm_list {A} (P Q : A → Prop)
    `{!∀ x, Decision (P x)} `{!∀ x, Decision (Q x)} (l : list A) :
  filter P (filter Q l) = filter Q (filter P l).
Proof.
  induction l as [|x l IH]; [done|].
  rewrite !filter_cons.
  destruct (decide (Q x)), (decide (P x)); rewrite ?filter_cons;
    rewrite ?decide_True by done; rewrite ?decide_False by done;
    by rewrite IH.
Qed.

Section Faults.
Context (T : Traits).
Hypothesis source_lt : mSource T < mN T.
Hypothesis small : mN T ≤ 256.
#[local] Abbreviation tp := (topo (construct T)).
#[local] Abbreviation final := (processes (run_rounds T (construct T))).

Lemma free_count_topo P r i :
  P ∈ paths_by_rank tp r i → free_count (mN T) P + length P = mN T.
Proof.
  intros HP. apply (elem_of_paths_by_rank_construct T source_lt) in HP.
  destruct (GC_events_kids (mDebug T) (mM T) (mN T)
              (λ j j', id_char_inj_256 (mN T) j j' small)
              (mM T) (replicate (mN T) true) (mSource T) [] 0 r i P)
    as [_ Hcnt]; try done.
  - apply ids_track_init.
  - by rewrite lookup_replicate.
  - lia.
  - rewrite free_count_nil. simpl. lia.
Qed.

Lemma path_snoc P r i :
  P ∈ paths_by_rank tp r i →
  P = parent P ++ [id_char i] ∧ (id_char i ∉ parent P) ∧ i < mN T.
Proof.
  intros HP.
  pose proof (paths_by_rank_shape T source_lt P r i HP) as (_ & _ & Hi).
  assert (Heq : P = parent P ++ [id_char i]).
  { destruct (decide (r = 0)) as [->|Hr].
    - by apply (paths_by_rank_0 T source_lt) in HP as [-> ->].
    - destruct (paths_by_rank_parent T source_lt P r i HP) as (? & ? & _);
        [lia|done]. }
  split; [done|]. split; [|done].
  pose proof (paths_by_rank_NoDup T source_lt small P r i HP) as Hnd.
  rewrite Heq in Hnd. apply NoDup_app in Hnd as (_ & Hdis & _).
  intros Hin. apply (Hdis _ Hin). by left.
Qed.

Lemma NoDup_faulty_ids : NoDup (faulty_ids T).
Proof. apply NoDup_filter, NoDup_seq. Qed.

Lemma faulty_ids_lt k : k ∈ faulty_ids T → k < mN T.
Proof.
  intros Hk. apply list_elem_of_filter in Hk as [_ Hk].
  apply elem_of_seq in Hk. lia.
Qed.

Lemma faulty_free_step P r i :
  P ∈ paths_by_rank tp r i →
  length (faulty_free T P) + (if IsFaulty T i then 1 else 0)
  = length (faulty_free T (parent P)).
Proof.
  intros HP. destruct (path_snoc P r i HP) as (Heq & Hnin & Hi).
  unfold faulty_free.
  pose proof (free_step_aux (mN T)
                (λ j j', id_char_inj_256 (mN T) j j' small)
                (parent P) i (faulty_ids T) Hi NoDup_faulty_ids faulty_ids_lt)
    as Hstep.
  rewrite <- Heq in Hstep. rewrite <- Hstep.
  f_equal. destruct (IsFaulty T i) eqn:Hf.
  - rewrite decide_True; [done|]. split; [|done].
    apply list_elem_of_filter. split; [done|]. apply elem_of_seq. lia.
  - rewrite decide_False; [done|]. intros [Hin _].
    apply list_elem_of_filter in Hin as [Hin _]. congruence.
Qed.

(** The votes at an inner path, by the id of the child. *)
Lemma eval_S nds d P r i :
  P ∈ paths_by_rank tp r i → r < mM T →
  eval T tp nds (S d) P
  = majority_spec (GetDefault T)
      ((λ k, eval T tp nds d (P ++ [id_char k]))
         <$> filter (λ k, id_char k ∉ P) (seq 0 (mN T))).
Proof.
  intros HP Hr. simpl.
  rewrite (children_of_topo T source_lt P r i small HP).
  rewrite decide_True by done. unfold expected_kids.
  by rewrite <- list_fmap_compose.
Qed.

Lemma length_free P r i :
  P ∈ paths_by_rank tp r i →
  length (filter (λ k, id_char k ∉ P) (seq 0 (mN T))) = mN T - length P.
Proof.
  intros HP. pose proof (free_count_topo P r i HP) as H.
  unfold free_count in H. lia.
Qed.

Lemma held_source :
  held final (mSource T) [] = input_value (GetSourceValue T).
Proof.
  unfold held.
  rewrite (nodes_of_source T _ (run_rounds_Good T source_lt)).
  by rewrite lookup_singleton_eq.
Qed.

(** What a process other than the source holds at a path of the tree. *)
Lemma held_relayed r i j P :
  j < mN T → j ≠ mSource T → P ∈ paths_by_rank tp r i →
  held final j P = GetValue T (held final i (parent P)) i j P.
Proof.
  intros Hj Hne HP. unfold held at 1.
  by rewrite (final_relayed T source_lt r i j P small Hj Hne HP).
Qed.

Lemma not_in_path_not_source P r i k :
  P ∈ paths_by_rank tp r i → id_char k ∉ P → k ≠ mSource T.
Proof.
  intros HP Hk ->. apply Hk.
  pose proof (paths_by_rank_head T source_lt small P r i HP) as Hh.
  destruct P as [|c P]; [done|]. injection Hh as ->. by left.
Qed.

Hypothesis relays : ∀ i, i < mN T → IsFaulty T i = false → honest T i.

(** Below a path of a non-faulty process, with enough non-faulty
    children at every rank, every process computes the value that the
    owner of the path holds. *)
Lemma honest_subtree d : ∀ r i P,
  P ∈ paths_by_rank tp r i → r + d = mM T → IsFaulty T i = false →
  2 * length (faulty_free T P) + d ≤ mN T - length P →
  (held final i (parent P) = ONE ∨ held final i (parent P) = ZERO
   ∨ d = 0 ∨ d + 1 ≤ mN T - length P) →
  ∀ j, j < mN T → j ≠ mSource T →
    eval T tp (nodes_of final j) d P = settled d (held final i (parent P)).
Proof.
  induction d as [|d IH]; intros r i P HP Hrd Hi Hcnt Hv j Hj Hne.
  - change (eval T tp (nodes_of final j) 0 P) with (held final j P).
    rewrite (held_relayed r i j P Hj Hne HP). simpl.
    destruct (path_snoc P r i HP) as (_ & _ & Hlt).
    apply (relays i Hlt Hi).
  - destruct (path_snoc P r i HP) as (_ & _ & Hlt).
    set (v := held final i (parent P)) in *.
    rewrite (eval_S _ d P r i HP) by lia.
    rewrite (majority_of_good _ _ (IsFaulty T) (settled d v)).
    + destruct (decide (v = ONE ∨ v = ZERO)) as [Hb|Hb].
      * rewrite (settled_binary d v Hb). simpl. done.
      * rewrite decide_False by (by apply settled_other). simpl.
        by rewrite decide_False.
    + intros k Hk Hgood. apply list_elem_of_filter in Hk as [Hk Hkn].
      apply elem_of_seq in Hkn.
      assert (HPk : P ++ [id_char k] ∈ paths_by_rank tp (r + 1) k).
      { apply (child_in_topo T source_lt P r i k small HP); [lia|lia|done]. }
      pose proof (not_in_path_not_source P r i k HP Hk) as Hks.
      assert (Hheld : held final k (parent (P ++ [id_char k])) = v).
      { rewrite parent_snoc. rewrite (held_relayed r i k P); [|lia|done|done].
        apply (relays i Hlt Hi). }
      rewrite <- Hheld.
      apply (IH (r + 1) k); [done|lia|done| | |lia|done].
      * pose proof (faulty_free_step _ _ _ HPk) as Hstep.
        rewrite Hgood, parent_snoc in Hstep. rewrite length_app. simpl. lia.
      * rewrite Hheld, length_app. simpl.
        destruct Hv as [?|[?|[?|?]]]; [by left|by right; left|lia|].
        right. right. lia.
    + rewrite filter_comm_list. fold (faulty_ids T). fold (faulty_free T P).
      rewrite (length_free P r i HP). lia.
    + rewrite (length_free P r i HP).
      destruct (decide (v = ONE ∨ v = ZERO)) as [Hb|Hb].
      * rewrite (settled_binary d v Hb). naive_solver.
      * right. right.
        destruct Hv as [?|[?|[?|?]]]; [naive_solver|naive_solver|lia|lia].
Qed.

(** Below any path, with at most [d] faulty processes left and more than
    [3 d] processes left in all, any two processes compute the same
    value. *)
Lemma agreement_subtree d : ∀ r i P,
  P ∈ paths_by_rank tp r i → r + d = mM T →
  length (faulty_free T (parent P)) ≤ d →
  3 * d + length P < mN T + 1 →
  ∀ j j', j < mN T → j ≠ mSource T → j' < mN T → j' ≠ mSource T →
    eval T tp (nodes_of final j) d P = eval T tp (nodes_of final j') d P.
Proof.
  induction d as [|d IH]; intros r i P HP Hrd Hf Hn j j' Hj Hne Hj' Hne';
    pose proof (faulty_free_step P r i HP) as Hstep;
    destruct (IsFaulty T i) eqn:Hi.
  - lia.
  - rewrite !(honest_subtree 0 r i P); try done; lia.
  - rewrite !(eval_S _ d P r i HP) by lia. f_equal.
    apply Forall_fmap_ext_1, Forall_forall. intros k Hk.
    apply list_elem_of_filter in Hk as [Hk Hkn]. apply elem_of_seq in Hkn.
    apply (IH (r + 1) k); try done.
    + apply (child_in_topo T source_lt P r i k small HP); [lia|lia|done].
    + lia.
    + rewrite parent_snoc. lia.
    + rewrite length_app. simpl. lia.
  - rewrite !(honest_subtree (S d) r i P); try done; lia.
Qed.
End Faults.

(** ** The decisions that [main] reports *)

Lemma Decide_at_value T tp j procs :
  (Decide_at T tp j procs).1
  = match procs !! j with
    | Some p => (Decide T tp p).1
    | None => FAULTY
    end.
Proof.
  unfold Decide_at. destruct (procs !! j) as [p|]; [|done].
  by destruct (Decide T tp p).
Qed.

Lemma Decide_at_other T tp j procs j' :
  j' ≠ j → (Decide_at T tp j procs).2 !! j' = procs !! j'.
Proof.
  intros Hne. unfold Decide_at. destruct (procs !! j) as [p|]; [|done].
  destruct (Decide T tp p). simpl. by rewrite list_lookup_insert_ne.
Qed.

(** A call of [Decide] changes the process that it is called on and no
    other, so every call of the reporting loop sees its process as the
    rounds left it. *)
Lemma report_spec T tp procs0 l : ∀ acc,
  NoDup l → (∀ j, j ∈ l → acc.2 !! j = procs0 !! j) →
  (foldl (λ acc j,
            if IsFaulty T j then (acc.1 ++ [(j, None)], acc.2)
            else
              let '(v, procs) := Decide_at T tp j (acc.2) in
              (acc.1 ++ [(j, Some v)], procs))
         acc l).1
  = acc.1 ++ ((λ j, (j, if IsFaulty T j then None
                        else Some (Decide_at T tp j procs0).1)) <$> l).
Proof.
  induction l as [|j l IH]; intros acc Hnd Hsame.
  { simpl. by rewrite app_nil_r. }
  apply NoDup_cons in Hnd as [Hj Hnd]. cbn [foldl]. rewrite IH; [|done|].
  - rewrite fmap_cons.
    assert (Hv : (Decide_at T tp j (acc.2)).1 = (Decide_at T tp j procs0).1).
    { rewrite !Decide_at_value, Hsame; [done|by left]. }
    destruct (IsFaulty T j); simpl.
    + by rewrite <- app_assoc.
    + destruct (Decide_at T tp j (acc.2)) as [v procs]. simpl in *.
      by rewrite Hv, <- app_assoc.
  - intros j' Hj'. assert (j' ≠ j) by (by intros ->).
    destruct (IsFaulty T j); simpl.
    + apply Hsame. by right.
    + pose proof (Decide_at_other T tp j (acc.2) j' ltac:(done)) as Ho.
      destruct (Decide_at T tp j (acc.2)) as [v procs]. simpl in *.
      rewrite Ho. apply Hsame. by right.
Qed.

Lemma main_run_decisions T :
  main_run T
  = (λ j, (j, if IsFaulty T j then None else Some (decision T j)))
      <$> seq 0 (mN T).
Proof.
  unfold main_run, report.
  rewrite (report_spec T _ (processes (run_rounds T (construct T))));
    [done|apply NoDup_seq|done].
Qed.

Lemma faulty_free_nil T : faulty_free T [] = faulty_ids T.
Proof.
  unfold faulty_free. induction (faulty_ids T) as [|k l IH]; [done|].
  rewrite filter_cons, decide_True; [by rewrite IH|]. apply not_elem_of_nil.
Qed.

Section Decisions.
Context (T : Traits).
Hypothesis source_lt : mSource T < mN T.
#[local] Abbreviation tp := (topo (construct T)).
#[local] Abbreviation final := (processes (run_rounds T (construct T))).

Lemma decision_eval j :
  j < mN T → j ≠ mSource T →
  decision T j
  = eval T tp (nodes_of final j) (mM T) [id_char (mSource T)].
Proof.
  intros Hj Hne. destruct (final_lookup T source_lt j Hj) as (p & Hp & Hid).
  unfold decision. rewrite Decide_at_value, Hp.
  rewrite (Decide_eval T source_lt p);
    [|by rewrite Hid|by eapply final_Present].
  unfold nodes_of. by rewrite Hp.
Qed.

(** What round 0 leaves at the root path. *)
Lemma final_root j :
  j < mN T → j ≠ mSource T →
  nodes_of final j !! [id_char (mSource T)]
  = Some (mkNode (GetValue T (input_value (GetSourceValue T)) (mSource T) j
                    [id_char (mSource T)]) UNKNOWN).
Proof.
  intros Hj Hne.
  destruct (proj2 (final_keys T source_lt j [id_char (mSource T)] Hj Hne))
    as [nd Hnd]; [by apply root_in_topo|].
  rewrite Hnd. f_equal.
  destruct (run_rounds_RInv T source_lt) as (HG & _ & HR).
  destruct (HR j _ nd Hne Hnd) as (_ & i & _ & HP & ->).
  simpl in HP. apply (paths_by_rank_0 T source_lt) in HP as [-> _].
  unfold relayed, held. change (parent [id_char (mSource T)]) with (@nil ascii).
  rewrite (nodes_of_source T _ HG). by rewrite lookup_singleton_eq.
Qed.

Hypothesis small : mN T ≤ 256.
Hypothesis relays : ∀ i, i < mN T → IsFaulty T i = false → honest T i.

Lemma agreement j j' :
  length (faulty_ids T) ≤ mM T → 3 * mM T < mN T →
  j < mN T → j ≠ mSource T → j' < mN T → j' ≠ mSource T →
  decision T j = decision T j'.
Proof.
  intros Hcnt Hn Hj Hne Hj' Hne'.
  rewrite (decision_eval j Hj Hne), (decision_eval j' Hj' Hne').
  apply (agreement_subtree T source_lt small relays (mM T) 0 (mSource T));
    try done.
  - by apply root_path_exists.
  - change (parent [id_char (mSource T)]) with (@nil ascii).
    by rewrite faulty_free_nil.
  - simpl. lia.
Qed.
End Decisions.

(** ** The debug switch *)

Section Debug.
Context (T : Traits) (b : bool).
Hypothesis source_lt : mSource T < mN T.
Hypothesis small : mN T ≤ 256.
#[local] Abbreviation T' := (with_debug b T).
#[local] Abbreviation tp := (topo (construct T)).
#[local] Abbreviation tp' := (topo (construct T')).
#[local] Abbreviation final := (processes (run_rounds T (construct T))).
#[local] Abbreviation final' := (processes (run_rounds T' (construct T'))).

Lemma paths_by_rank_debug P r i :
  P ∈ paths_by_rank tp' r i ↔ P ∈ paths_by_rank tp r i.
Proof.
  split; intros HP.
  - apply (tree_paths_by_rank T source_lt small).
    by apply (paths_by_rank_tree T' source_lt small) in HP.
  - apply (tree_paths_by_rank T' source_lt small).
    by apply (paths_by_rank_tree T source_lt small) in HP.
Qed.

Lemma held_debug r : ∀ i P j,
  P ∈ paths_by_rank tp r i → j < mN T → j ≠ mSource T →
  held final' j P = held final j P.
Proof.
  induction r as [|r IH]; intros i P j HP Hj Hne.
  - apply (paths_by_rank_0 T source_lt) in HP as [-> ->]. unfold held.
    pose proof (final_root T' source_lt j Hj Hne) as H'.
    change (mSource T') with (mSource T) in H'. rewrite H'.
    by rewrite (final_root T source_lt j Hj Hne).
  - pose proof (proj2 (paths_by_rank_debug P (S r) i) HP) as HP'.
    rewrite (held_relayed T source_lt small (S r) i j P Hj Hne HP).
    rewrite (held_relayed T' source_lt small (S r) i j P Hj Hne HP').
    change (GetValue T') with (GetValue T). f_equal.
    destruct (paths_by_rank_parent T source_lt P (S r) i HP) as (i' & _ & Hpar);
      [lia|].
    replace (S r - 1) with r in Hpar by lia.
    pose proof (paths_by_rank_shape T source_lt P _ _ HP) as (_ & _ & Hi).
    apply (IH i'); [done|done|]. intros ->.
    rewrite (source_paths_later T source_lt (S r)) in HP by lia.
    by apply not_elem_of_nil in HP.
Qed.

Lemma eval_debug d : ∀ r i P j,
  P ∈ paths_by_rank tp r i → r + d = mM T → j < mN T → j ≠ mSource T →
  eval T' tp' (nodes_of final' j) d P = eval T tp (nodes_of final j) d P.
Proof.
  induction d as [|d IH]; intros r i P j HP Hrd Hj Hne.
  - change (held final' j P = held final j P). by eapply held_debug.
  - pose proof (proj2 (paths_by_rank_debug P r i) HP) as HP'.
    rewrite (eval_S T source_lt small _ d P r i HP) by lia.
    rewrite (eval_S T' source_lt small _ d P r i HP')
      by (change (mM T') with (mM T); lia).
    change (GetDefault T') with (GetDefault T).
    change (mN T') with (mN T). f_equal.
    apply Forall_fmap_ext_1, Forall_forall. intros k Hk.
    apply list_elem_of_filter in Hk as [Hk Hkn]. apply elem_of_seq in Hkn.
    apply (IH (r + 1) k); [|lia|done|done].
    apply (child_in_topo T source_lt P r i k small HP); [lia|lia|done].
Qed.

Lemma decision_debug j : j < mN T → decision T' j = decision T j.
Proof.
  intros Hj. destruct (decide (j = mSource T)) as [->|Hne].
  - unfold decision.
    rewrite (Decide_at_source T _ (run_rounds_Good T source_lt)).
    change (mSource T) with (mSource T') at 1.
    by rewrite (Decide_at_source T' _ (run_rounds_Good T' source_lt)).
  - rewrite (decision_eval T source_lt j Hj Hne).
    rewrite (decision_eval T' source_lt j Hj Hne).
    apply (eval_debug (mM T) 0 (mSource T)); [|done|done|done].
    by apply root_path_exists.
Qed.

End Debug.

(** ** The class of main.cpp *)

Section Reference.
Context (source m n : nat) (debug : bool).
#[local] Abbreviation R := (reference_Traits source m n debug).

Lemma reference_relays i : IsFaulty R i = false → honest R i.
Proof.
  simpl. intros Hi v j P. simpl. unfold reference_GetValue.
  case_decide as Hd; [done|].
  rewrite decide_False by naive_solver. by rewrite decide_False by naive_solver.
Qed.

Lemma reference_faulty_ids :
  length (faulty_ids R) ≤ if decide (source = 2) then 1 else 2.
Proof.
  assert (Hsub : ∀ k, k ∈ faulty_ids R → k = source ∨ k = 2).
  { intros k Hk. apply list_elem_of_filter in Hk as [Hk _]. simpl in Hk.
    by case_decide. }
  pose proof (NoDup_filter (λ k, IsFaulty R k = true) _ (NoDup_seq 0 (mN R)))
    as Hnd. fold (faulty_ids R) in Hnd.
  case_decide as Hs.
  - change 1 with (length [2]). apply submseteq_length, NoDup_submseteq; [done|].
    intros k Hk. apply list_elem_of_singleton. apply Hsub in Hk. lia.
  - change 2 with (length [source; 2]).
    apply submseteq_length, NoDup_submseteq; [done|].
    intros k Hk. apply Hsub in Hk as [->| ->]; [by left|by right; left].
Qed.
End Reference.

(** ** The dump routines *)

Lemma node_ref_here (s : DState) (P : Path) :
  is_Some (nodes s !! P) →
  node_ref P s = (default default_Node (nodes s !! P), s).
Proof. intros [nd H]. unfold node_ref. by rewrite H. Qed.

Lemma list_bind_bind {A B C} (f : A → list B) (g : B → list C) (l : list A) :
  (l ≫= f) ≫= g = l ≫= (λ x, f x ≫= g).
Proof.
  induction l as [|x l IH]; [done|].
  by rewrite !bind_cons, bind_app, IH.
Qed.

Lemma dot_line_unfold (nds : gmap Path Node) (Q : Path) :
  dot_line nds Q
  = (if decide (length Q = 1) then text "General->"
     else [dq] ++ node_text (default default_Node
                               (nds !! take (length Q - 1) Q))
                    (take (length Q - 1) Q)
            ++ [dq] ++ text "->")
      ++ [dq] ++ node_text (default default_Node (nds !! Q)) Q ++ [dq]
      ++ text ";" ++ [nl].
Proof. done. Qed.

Section Dumps.
Context (T : Traits).
Hypothesis source_lt : mSource T < mN T.
#[local] Abbreviation tp := (topo (construct T)).

Lemma leaf_children P i :
  P ∈ paths_by_rank tp (mM T) i → children_of tp P = [].
Proof.
  intros HP. destruct (children_of tp P) as [|c l] eqn:Hc; [done|].
  assert (Hin : c ∈ children_of tp P) by (rewrite Hc; by left).
  apply (children_are_paths T source_lt) in Hin as [Hlen _].
  apply (paths_by_rank_shape T source_lt) in HP as (? & _). lia.
Qed.

Lemma child_rank P r i c :
  P ∈ paths_by_rank tp r i → c ∈ children_of tp P →
  r < mM T ∧ ∃ k, c ∈ paths_by_rank tp (r + 1) k.
Proof.
  intros HP Hc.
  apply (paths_by_rank_shape T source_lt) in HP as (Hlen & _).
  destruct (children_are_paths T source_lt P c Hc) as (Hle & k & _ & _ & Hk).
  split; [lia|]. exists k. by rewrite Hlen in Hk.
Qed.

Lemma topo_path_not_nil P r i : P ∈ paths_by_rank tp r i → P ≠ [].
Proof.
  intros HP ->. apply (paths_by_rank_shape T source_lt) in HP as (? & _).
  simpl in *. lia.
Qed.

Lemma dump_fold (F : Path → DState → option (list ascii * DState))
    (s : DState) (f : Path → list ascii) (L : list Path) :
  (∀ c, c ∈ L → F c s = Some (f c, s)) →
  ∀ out,
    foldl (λ acc child,
             '(out, s) ← acc;
             '(t, s) ← F child s;
             Some (out ++ t, s))
          (Some (out, s)) L
    = Some (out ++ (L ≫= f), s).
Proof.
  induction L as [|c L IH]; intros Hc out.
  { simpl. by rewrite app_nil_r. }
  cbn [foldl]. cbn [mbind option_bind]. rewrite Hc by (by left). simpl.
  rewrite IH by (intros c' Hc'; apply Hc; by right).
  by rewrite <- app_assoc.
Qed.

Lemma Dump_spec d : ∀ fuel r i P s,
  Present tp (nodes s) → P ∈ paths_by_rank tp r i → r + d = mM T →
  d < fuel →
  Dump T fuel tp P s = Some (post_order tp d P ≫= dump_line (nodes s), s).
Proof.
  induction d as [|d IH]; intros fuel r i P s Hpre HP Hrd Hfuel;
    (destruct fuel as [|fuel]; [lia|]); cbn [Dump];
    rewrite (decide_False (P:=P = [])) by (by eapply topo_path_not_nil).
  - replace r with (mM T) in HP by lia. rewrite (leaf_children P i HP).
    simpl. rewrite node_ref_here by (apply Hpre; by exists (mM T), i).
    by rewrite app_nil_r.
  - rewrite (dump_fold (Dump T fuel tp) s
               (λ c, post_order tp d c ≫= dump_line (nodes s))).
    + simpl. rewrite node_ref_here by (apply Hpre; by exists r, i).
      rewrite bind_app. simpl. rewrite app_nil_r.
      by rewrite list_bind_bind.
    + intros c Hc. destruct (child_rank P r i c HP Hc) as (Hr & k & Hk).
      apply (IH fuel (r + 1) k); [done|done|lia|lia].
Qed.

Lemma Dump_root fuel s :
  Present tp (nodes s) → mM T < fuel →
  Dump T fuel tp [] s
  = Some (post_order tp (mM T) [id_char (mSource T)] ≫= dump_line (nodes s),
          s).
Proof.
  intros Hpre Hfuel.
  rewrite <- (Dump_spec (mM T) fuel 0 (mSource T) _ s Hpre
                (root_path_exists T source_lt)); [|lia|done].
  destruct fuel as [|fuel]; [lia|]. cbn [Dump].
  rewrite decide_True by done. rewrite (front_root T source_lt).
  by rewrite decide_False.
Qed.

Lemma parent_present (nds : gmap Path Node) P r i :
  Present tp nds → P ∈ paths_by_rank tp r i → length P ≠ 1 →
  is_Some (nds !! take (length P - 1) P).
Proof.
  intros Hpre HP Hlen.
  pose proof (paths_by_rank_shape T source_lt P r i HP) as (Hl & _).
  destruct (paths_by_rank_parent T source_lt P r i HP) as (i' & _ & Hpar);
    [lia|].
  apply Hpre. by exists (r - 1), i'.
Qed.

Lemma DumpDot_spec id d : ∀ fuel r i P s,
  Present tp (nodes s) → P ∈ paths_by_rank tp r i → r + d = mM T →
  d < fuel →
  DumpDot T fuel tp id P s
  = Some (post_order tp d P ≫= dot_line (nodes s), s).
Proof.
  induction d as [|d IH]; intros fuel r i P s Hpre HP Hrd Hfuel;
    (destruct fuel as [|fuel]; [lia|]); cbn [DumpDot];
    rewrite (bool_decide_eq_false_2 (P = [])) by (by eapply topo_path_not_nil);
    cbv zeta;
    rewrite (node_ref_here s P) by (apply Hpre; by exists r, i).
  - replace r with (mM T) in HP by lia. rewrite (leaf_children P i HP).
    cbn [foldl mbind option_bind].
    change (post_order tp 0 P ≫= dot_line (nodes s))
      with (dot_line (nodes s) P ++ []).
    rewrite app_nil_r, (dot_line_unfold (nodes s) P).
    case_decide as Hlen; [done|].
    by rewrite node_ref_here by (by eapply parent_present).
  - rewrite (dump_fold (DumpDot T fuel tp id) s
               (λ c, post_order tp d c ≫= dot_line (nodes s))).
    + cbn [mbind option_bind post_order].
      rewrite bind_app, list_bind_bind.
      change ([P] ≫= dot_line (nodes s)) with (dot_line (nodes s) P ++ []).
      rewrite app_nil_r, (dot_line_unfold (nodes s) P), app_nil_l.
      case_decide as Hlen.
      * by rewrite <- !app_assoc.
      * rewrite node_ref_here by (by eapply parent_present).
        by rewrite <- !app_assoc.
    + intros c Hc. destruct (child_rank P r i c HP Hc) as (Hr & k & Hk).
      apply (IH fuel (r + 1) k); [done|done|lia|lia].
Qed.

Lemma DumpDot_root id fuel s :
  Present tp (nodes s) → mM T < fuel →
  DumpDot T fuel tp id [] s
  = Some (dot_header id
            ++ (post_order tp (mM T) [id_char (mSource T)]
                  ≫= dot_line (nodes s))
            ++ text "};" ++ [nl],
          s).
Proof.
  intros Hpre Hfuel.
  pose proof (root_path_exists T source_lt) as HP.
  destruct fuel as [|fuel]; [lia|]. cbn [DumpDot].
  rewrite bool_decide_eq_true_2 by done. cbv zeta.
  rewrite (front_root T source_lt).
  rewrite (node_ref_here s _) by (apply Hpre; by exists 0, (mSource T)).
  destruct (mM T) as [|d] eqn:Hm.
  - rewrite <- Hm in HP at 1. rewrite (leaf_children _ _ HP).
    cbn [foldl mbind option_bind].
    change (post_order tp 0 [id_char (mSource T)] ≫= dot_line (nodes s))
      with (dot_line (nodes s) [id_char (mSource T)] ++ []).
    rewrite app_nil_r, (dot_line_unfold (nodes s) [id_char (mSource T)]).
    rewrite !decide_True by done. by rewrite <- !app_assoc.
  - rewrite (dump_fold (DumpDot T fuel tp id) s
               (λ c, post_order tp d c ≫= dot_line (nodes s))).
    + cbn [mbind option_bind post_order].
      rewrite bind_app, list_bind_bind.
      change ([[id_char (mSource T)]] ≫= dot_line (nodes s))
        with (dot_line (nodes s) [id_char (mSource T)] ++ []).
      rewrite app_nil_r, (dot_line_unfold (nodes s) [id_char (mSource T)]).
      rewrite !decide_True by done. by rewrite <- !app_assoc.
    + intros c Hc. destruct (child_rank _ 0 _ c HP Hc) as (Hr & k & Hk).
      apply (DumpDot_spec id d fuel (0 + 1) k); [done|done|lia|lia].
Qed.
End Dumps.

Lemma split_unique {A} (L1 L2 K1 K2 : list A) x :
  NoDup (L1 ++ x :: L2) → L1 ++ x :: L2 = K1 ++ x :: K2 → L1 = K1.
Proof.
  intros Hnd Heq. assert (Hnd' := Hnd). rewrite Heq in Hnd'.
  apply NoDup_app in Hnd as (_ & H1 & H2%NoDup_cons).
  apply NoDup_app in Hnd' as (_ & H1' & H2'%NoDup_cons).
  destruct (app_inj_pivot _ _ _ _ _ Heq)
    as [[[Hin _]|[_ Hin]]|[? _]]; [| |done]; apply list_elem_of_In in Hin.
  - destruct (H1 x Hin). by left.
  - destruct (H1' x Hin). by left.
Qed.

Lemma prefix_same_length {A} (l1 l2 l : list A) :
  l1 `prefix_of` l → l2 `prefix_of` l → length l1 = length l2 → l1 = l2.
Proof.
  intros [k1 ->] [k2 Heq] Hlen.
  apply (f_equal (take (length l1))) in Heq.
  rewrite take_app_length in Heq. rewrite Hlen, take_app_length in Heq. done.
Qed.

Lemma length_bind_const {A B} (f : A → list B) (l : list A) c :
  (∀ x, x ∈ l → length (f x) = c) → length (l ≫= f) = length l * c.
Proof.
  induction l as [|x l IH]; intros H; [done|].
  rewrite bind_cons, length_app, H by (by left).
  rewrite IH by (intros y Hy; apply H; by right). simpl. lia.
Qed.

Lemma post_order_self tp d P : P ∈ post_order tp d P.
Proof.
  destruct d; simpl; [by left|]. apply elem_of_app. right. by left.
Qed.

Section PostOrder.
Context (T : Traits).
Hypothesis source_lt : mSource T < mN T.
Hypothesis small : mN T ≤ 256.
#[local] Abbreviation tp := (topo (construct T)).

Lemma post_order_prefix d : ∀ P Q,
  Q ∈ post_order tp d P → P `prefix_of` Q ∧ length P ≤ length Q.
Proof.
  induction d as [|d IH]; intros P Q HQ; simpl in HQ.
  - apply list_elem_of_singleton in HQ as ->. done.
  - apply elem_of_app in HQ as [HQ|HQ];
      [|by apply list_elem_of_singleton in HQ as ->].
    apply list_elem_of_bind in HQ as (c & HQ & Hc).
    destruct (children_are_paths T source_lt P c Hc) as (_ & k & _ & -> & _).
    apply IH in HQ as [Hpre Hlen]. rewrite length_app in Hlen. simpl in Hlen.
    split; [|lia]. etrans; [|done]. by apply prefix_app_r.
Qed.

Lemma post_order_in_topo d : ∀ P Q,
  in_topo tp P → Q ∈ post_order tp d P → in_topo tp Q.
Proof.
  induction d as [|d IH]; intros P Q HP HQ; simpl in HQ.
  - by apply list_elem_of_singleton in HQ as ->.
  - apply elem_of_app in HQ as [HQ|HQ];
      [|by apply list_elem_of_singleton in HQ as ->].
    apply list_elem_of_bind in HQ as (c & HQ & Hc).
    apply (IH c); [|done].
    destruct (children_are_paths T source_lt P c Hc) as (_ & k & _ & _ & Hk).
    by exists (length P), k.
Qed.

(** The path of the topology that extends [P] towards a longer path
    [Q] of the topology is a child of [P]. *)
Lemma next_child P r i Q r' i' :
  P ∈ paths_by_rank tp r i → Q ∈ paths_by_rank tp r' i' →
  P `prefix_of` Q → P ≠ Q →
  ∃ c, c ∈ children_of tp P ∧ c `prefix_of` Q.
Proof.
  intros HP HQ Hpre Hne.
  pose proof (paths_by_rank_shape T source_lt P r i HP) as (HlP & _ & _).
  pose proof (paths_by_rank_shape T source_lt Q r' i' HQ) as (HlQ & Hr' & _).
  assert (Hlt : length P < length Q).
  { pose proof (prefix_length _ _ Hpre).
    destruct (decide (length P = length Q)) as [Heq|]; [|lia].
    destruct Hne. apply prefix_length_eq; [done|lia]. }
  destruct (paths_by_rank_tree T source_lt small Q r' i' HQ)
    as (l & HQl & Hnd & Hall & _ & _ & Hlen & _).
  destruct (lookup_lt_is_Some_2 l (length P)) as [k Hk]; [lia|].
  assert (HPl : P = id_char <$> take (length P) l).
  { rewrite fmap_take, <- HQl. destruct Hpre as [rest ->].
    by rewrite take_app_length. }
  assert (Hkn : k < mN T) by (apply Hall; by eapply list_elem_of_lookup_2).
  assert (Hnotin : id_char k ∉ P).
  { rewrite HPl.
    apply (id_char_not_in_fmap (mN T)
             (λ j j', id_char_inj_256 (mN T) j j' small)); [done| |].
    - intros k' Hk'. apply Hall. apply elem_of_take in Hk' as (x & Hx & _).
      by eapply list_elem_of_lookup_2.
    - rewrite <- (take_drop_middle l (length P) k Hk) in Hnd.
      apply NoDup_app in Hnd as (_ & Hdis & _). intros Hin.
      apply (Hdis _ Hin). by left. }
  exists (P ++ [id_char k]). split.
  - rewrite (children_of_topo T source_lt P r i small HP).
    rewrite decide_True by lia. unfold expected_kids.
    apply (list_elem_of_fmap_2 (λ j, P ++ [id_char j])).
    apply list_elem_of_filter. split; [done|]. apply elem_of_seq. lia.
  - assert (Htk : take (S (length P)) Q = P ++ [id_char k]).
    { rewrite HQl, <- fmap_take, (take_S_r _ _ _ Hk), fmap_app.
      by rewrite <- HPl. }
    rewrite <- Htk. apply prefix_take.
Qed.

Lemma post_order_complete d : ∀ r i P Q,
  P ∈ paths_by_rank tp r i → r + d = mM T →
  P `prefix_of` Q → in_topo tp Q → Q ∈ post_order tp d P.
Proof.
  induction d as [|d IH]; intros r i P Q HP Hrd Hpre (r' & i' & HQ).
  - pose proof (paths_by_rank_shape T source_lt P r i HP) as (HlP & _ & _).
    pose proof (paths_by_rank_shape T source_lt Q r' i' HQ) as (HlQ & Hr' & _).
    rewrite (prefix_length_eq _ _ Hpre) by lia. by left.
  - destruct (decide (P = Q)) as [->|Hne]; [apply post_order_self|].
    destruct (next_child P r i Q r' i' HP HQ Hpre Hne) as (c & Hc & Hcpre).
    simpl. apply elem_of_app. left. apply list_elem_of_bind. exists c.
    split; [|done].
    destruct (child_rank T source_lt P r i c HP Hc) as (Hr & k & Hk).
    apply (IH (r + 1) k); [done|lia|done|by exists r', i'].
Qed.

Lemma NoDup_children P r i :
  P ∈ paths_by_rank tp r i → NoDup (children_of tp P).
Proof.
  intros HP. rewrite (children_of_topo T source_lt P r i small HP).
  case_decide; [|apply NoDup_nil_2]. unfold expected_kids.
  apply (NoDup_fmap_2_strong (λ j, P ++ [id_char j])).
  - intros j j' Hj Hj' Heq.
    apply list_elem_of_filter in Hj as [_ Hj], Hj' as [_ Hj'].
    apply elem_of_seq in Hj, Hj'. apply app_inv_head in Heq.
    apply (id_char_inj_256 (mN T)); [done|lia|lia|congruence].
  - apply NoDup_filter, NoDup_seq.
Qed.

Lemma post_order_NoDup d : ∀ r i P,
  P ∈ paths_by_rank tp r i → NoDup (post_order tp d P).
Proof.
  induction d as [|d IH]; intros r i P HP; simpl; [apply NoDup_singleton|].
  pose proof (paths_by_rank_shape T source_lt P r i HP) as (HlP & _ & _).
  assert (Hkid : ∀ c, c ∈ children_of tp P →
            length c = length P + 1 ∧ ∃ k, c ∈ paths_by_rank tp (r + 1) k).
  { intros c Hc.
    destruct (children_are_paths T source_lt P c Hc) as (_ & k & _ & -> & Hk).
    rewrite length_app. split; [done|]. exists k. by rewrite HlP in Hk. }
  apply NoDup_app. split; [|split; [|apply NoDup_singleton]].
  - apply NoDup_bind.
    + intros c1 c2 Q Hc1 Hc2 HQ1 HQ2.
      apply post_order_prefix in HQ1 as [HQ1 _], HQ2 as [HQ2 _].
      apply (prefix_same_length _ _ Q HQ1 HQ2).
      destruct (Hkid c1 Hc1) as [-> _]. by destruct (Hkid c2 Hc2) as [-> _].
    + intros c Hc. destruct (Hkid c Hc) as (_ & k & Hk).
      by apply (IH (r + 1) k).
    + by eapply NoDup_children.
  - intros Q HQ ->%list_elem_of_singleton.
    apply list_elem_of_bind in HQ as (c & HQ & Hc).
    apply post_order_prefix in HQ as [_ Hlen].
    destruct (Hkid c Hc) as [Hl _]. lia.
Qed.

Lemma post_order_children_first d : ∀ r i P L1 L2 Q c,
  P ∈ paths_by_rank tp r i → r + d = mM T →
  post_order tp d P = L1 ++ Q :: L2 → c ∈ children_of tp Q → c ∈ L1.
Proof.
  induction d as [|d IH]; intros r i P L1 L2 Q c HP Hrd Heq Hc.
  - simpl in Heq. destruct L1 as [|x L1].
    + injection Heq as <- _. replace r with (mM T) in HP by lia.
      rewrite (leaf_children T source_lt P i HP) in Hc.
      by apply not_elem_of_nil in Hc.
    + injection Heq as _ Heq. by destruct L1.
  - pose proof (post_order_NoDup (S d) r i P HP) as Hnd.
    rewrite Heq in Hnd. simpl in Heq.
    destruct (decide (Q = P)) as [->|Hne].
    + assert (Heq' : L1 ++ P :: L2
                     = (children_of tp P ≫= post_order tp d) ++ P :: [])
        by done.
      rewrite (split_unique _ _ _ _ _ Hnd Heq').
      apply list_elem_of_bind. exists c. split; [apply post_order_self|done].
    + assert (HQ : Q ∈ children_of tp P ≫= post_order tp d).
      { assert (Hin : Q ∈ (children_of tp P ≫= post_order tp d) ++ [P]).
        { rewrite Heq. apply elem_of_app. right. by left. }
        apply elem_of_app in Hin as [Hin|Hin]; [done|].
        by apply list_elem_of_singleton in Hin. }
      apply list_elem_of_bind in HQ as (c0 & HQ & Hc0).
      apply list_elem_of_split in Hc0 as (K1 & K2 & HK).
      apply list_elem_of_split in HQ as (M1 & M2 & HM).
      assert (Heq' : L1 ++ Q :: L2
                = ((K1 ≫= post_order tp d) ++ M1)
                    ++ Q :: (M2 ++ (K2 ≫= post_order tp d) ++ [P])).
      { rewrite <- Heq, HK, bind_app, bind_cons, HM.
        by rewrite <- !app_assoc. }
      rewrite (split_unique _ _ _ _ _ Hnd Heq').
      apply elem_of_app. right.
      assert (Hc0 : c0 ∈ children_of tp P).
      { rewrite HK. apply elem_of_app. right. by left. }
      destruct (child_rank T source_lt P r i c0 HP Hc0) as (Hr & k & Hk).
      apply (IH (r + 1) k c0 M1 M2 Q c); [done|lia|done|done].
Qed.
Lemma post_order_length d : ∀ r i P,
  P ∈ paths_by_rank tp r i → r + d = mM T →
  length (post_order tp d P) = tree_size (mN T - length P) d.
Proof.
  induction d as [|d IH]; intros r i P HP Hrd; [done|].
  pose proof (paths_by_rank_shape T source_lt P r i HP) as (HlP & _ & _).
  simpl. rewrite length_app. simpl.
  rewrite (length_bind_const _ _ (tree_size (mN T - length P - 1) d)).
  - rewrite (children_of_topo T source_lt P r i small HP).
    rewrite decide_True by lia. rewrite length_expected_kids.
    pose proof (free_count_topo T source_lt small P r i HP).
    replace (free_count (mN T) P) with (mN T - length P) by lia. lia.
  - intros c Hc.
    destruct (child_rank T source_lt P r i c HP Hc) as (Hr & k & Hk).
    rewrite (IH (r + 1) k c Hk) by lia.
    apply (paths_by_rank_shape T source_lt) in Hk as (-> & _).
    f_equal. lia.
Qed.
End PostOrder.

(** * The claims *)

(** C1.  In the run that main.cpp hard-codes (n = 7, m = 2, source 3 with
    value ZERO, the source sending ZERO to odd and ONE to even receivers,
    process 2 always sending ONE, default ONE), the report of [main] lists
    one and the same decision for the processes 0, 1, 4, 5 and 6; the
    processes 2 and 3 are reported as faulty. *)
Theorem C1_reference_run_agreement :
  ∃ v, main_run main_Traits
       = [(0, Some v); (1, Some v); (2, None); (3, None);
          (4, Some v); (5, Some v); (6, Some v)].
Proof. exists ONE. vm_compute. reflexivity. Qed.

(** C2.  For every path [P] and every state of the node map,
    [GetMajority] returns ONE when the tally of ONE among the output
    values of the children of [P] exceeds [n / 2], [n] being the number of
    children; otherwise ZERO when the tally of ZERO exceeds [n / 2];
    otherwise the default of the Traits class when both tallies are equal
    and equal to [n / 2]; otherwise UNKNOWN. *)
Theorem C2_majority_rule (T : Traits) (tp : Topology) (P : Path) (s : DState) :
  let votes := child_votes tp P (nodes s) in
  let n := length (children_of tp P) in
  (GetMajority T tp P s).1
  = if decide (n / 2 < tally ONE votes) then ONE
    else if decide (n / 2 < tally ZERO votes) then ZERO
    else if decide (tally ONE votes = tally ZERO votes
                    ∧ tally ONE votes = n / 2) then GetDefault T
    else UNKNOWN.
Proof.
  simpl. rewrite GetMajority_value. unfold majority_spec, child_votes.
  by rewrite length_fmap.
Qed.

(** C3, as the claim states it, fails: in the run of [tie3_Traits] the
    root of process 1 has three children, an odd number, with the votes
    ONE, ZERO and UNKNOWN; both tallies are 1 = 3 / 2 and [GetMajority]
    returns the default, whichever it is. *)
Lemma C3_counterexample :
  let tp := topo (construct (tie3_Traits ONE)) in
  let s := state_after_leaves (tie3_Traits ONE) 1 in
  length (children_of tp [id_char 0]) = 3
  ∧ child_votes tp [id_char 0] (nodes s) = [ONE; ZERO; UNKNOWN]
  ∧ (GetMajority (tie3_Traits ONE) tp [id_char 0] s).1 = ONE
  ∧ (GetMajority (tie3_Traits ZERO) tp [id_char 0] s).1 = ZERO
  ∧ (Decide_at (tie3_Traits ZERO)
       (topo (construct (tie3_Traits ZERO))) 1
       (processes (run_rounds (tie3_Traits ZERO)
                     (construct (tie3_Traits ZERO))))).1 = ZERO.
Proof. vm_compute. repeat split; reflexivity. Qed.

(** C3, amended.  The default of the Traits class has an influence on
    what [GetMajority] returns only when the tallies of ONE and of ZERO
    among the children's output values both equal [n / 2] (integer
    division).  Then either [n] is even and every vote is ONE or ZERO, or
    [n] is odd and exactly one vote is neither.  So at a path with an odd
    number of children whose votes are all ONE or ZERO the default is
    never consulted. *)
Theorem C3_default_only_on_floor_split
    (T : Traits) (tp : Topology) (P : Path) (s : DState) :
  let votes := child_votes tp P (nodes s) in
  let n := length (children_of tp P) in
  (∀ d, (GetMajority (with_default d T) tp P s).1 ≠ (GetMajority T tp P s).1 →
        tally ONE votes = n / 2 ∧ tally ZERO votes = n / 2
        ∧ ((Nat.Even n ∧ tally ONE votes + tally ZERO votes = n)
           ∨ (Nat.Odd n ∧ tally ONE votes + tally ZERO votes + 1 = n)))
  ∧ (Nat.Odd n → (∀ v, v ∈ votes → v = ZERO ∨ v = ONE) →
     ∀ d, (GetMajority (with_default d T) tp P s).1 = (GetMajority T tp P s).1).
Proof.
  simpl.
  assert (Hlen : length (child_votes tp P (nodes s)) = length (children_of tp P))
    by (unfold child_votes; apply length_fmap).
  assert (Hmain : ∀ d,
    (GetMajority (with_default d T) tp P s).1 ≠ (GetMajority T tp P s).1 →
    tally ONE (child_votes tp P (nodes s)) = length (children_of tp P) / 2
    ∧ tally ZERO (child_votes tp P (nodes s)) = length (children_of tp P) / 2).
  { intros d. rewrite !GetMajority_value. unfold majority_spec. rewrite Hlen.
    simpl. repeat case_decide; try done. intros _. lia. }
  split.
  - intros d Hd. destruct (Hmain d Hd) as [H1 H0]. repeat split; try done.
    destruct (Nat.Even_or_Odd (length (children_of tp P))) as [[k Hk]|[k Hk]].
    + left. split; [by exists k|]. rewrite H1, H0, Hk.
      replace (2 * k) with (k * 2) by lia. rewrite Nat.div_mul by done. lia.
    + right. split; [by exists k|]. rewrite H1, H0, Hk.
      replace (2 * k + 1) with (1 + k * 2) by lia.
      rewrite Nat.div_add by done. simpl. lia.
  - intros [k Hk] Hbin d.
    destruct (decide ((GetMajority (with_default d T) tp P s).1
                      = (GetMajority T tp P s).1)) as [|Hne]; [done|].
    exfalso. destruct (Hmain d Hne) as [H1 H0].
    pose proof (tally_total_binary _ Hbin) as Hsum.
    rewrite Hlen, H1, H0, Hk in Hsum.
    replace (2 * k + 1) with (1 + k * 2) in Hsum by lia.
    rewrite Nat.div_add in Hsum by done. simpl in Hsum. lia.
Qed.

(** The default does decide the result at the root of process 1 in the
    run of [tie3_Traits], and the tallies there are as the theorem says. *)
Lemma C3_witness :
  let tp := topo (construct (tie3_Traits ONE)) in
  let s := state_after_leaves (tie3_Traits ONE) 1 in
  let votes := child_votes tp [id_char 0] (nodes s) in
  let n := length (children_of tp [id_char 0]) in
  tally ONE votes = n / 2 ∧ tally ZERO votes = n / 2
  ∧ ((Nat.Even n ∧ tally ONE votes + tally ZERO votes = n)
     ∨ (Nat.Odd n ∧ tally ONE votes + tally ZERO votes + 1 = n)).
Proof.
  apply (proj1 (C3_default_only_on_floor_split (tie3_Traits ONE)
                  (topo (construct (tie3_Traits ONE))) [id_char 0]
                  (state_after_leaves (tie3_Traits ONE) 1)) ZERO).
  vm_compute. discriminate.
Defined.

(** C4, as the claim states it, fails at a path with a single child: in
    the run of [mute_Traits 2] the root of process 1 has the one child
    [01], its vote is UNKNOWN, the tallies are 0 = 0 = 1 / 2 and
    [GetMajority] returns the default ONE. *)
Lemma C4_counterexample :
  let T := mute_Traits 2 in
  let tp := topo (construct T) in
  let s := state_after_leaves T 1 in
  children_of tp [id_char 0] = [[id_char 0; id_char 1]]
  ∧ child_votes tp [id_char 0] (nodes s) = [UNKNOWN]
  ∧ (GetMajority T tp [id_char 0] s).1 = ONE
  ∧ (Decide_at T tp 1 (processes (run_rounds T (construct T)))).1 = ONE.
Proof. vm_compute. repeat split; reflexivity. Qed.

(** C4, amended.  At every path with at least two children all of whose
    output values are UNKNOWN, [GetMajority] returns UNKNOWN. *)
Theorem C4_all_unknown_children
    (T : Traits) (tp : Topology) (P : Path) (s : DState) :
  2 ≤ length (children_of tp P) →
  (∀ v, v ∈ child_votes tp P (nodes s) → v = UNKNOWN) →
  (GetMajority T tp P s).1 = UNKNOWN.
Proof.
  intros Hn Hall. rewrite GetMajority_value. unfold majority_spec.
  assert (Hlen : length (child_votes tp P (nodes s)) = length (children_of tp P))
    by (unfold child_votes; apply length_fmap).
  rewrite Hlen.
  rewrite (tally_all_other ONE), (tally_all_other ZERO);
    try (intros x Hx; rewrite (Hall x Hx); done).
  assert (Hhalf : 1 ≤ length (children_of tp P) / 2).
  { apply Nat.div_le_lower_bound; lia. }
  rewrite decide_False by lia. rewrite decide_False by lia.
  rewrite decide_False by lia. done.
Qed.

Lemma C4_witness :
  (GetMajority (mute_Traits 3) (topo (construct (mute_Traits 3)))
     [id_char 0] (state_after_leaves (mute_Traits 3) 1)).1 = UNKNOWN.
Proof.
  apply C4_all_unknown_children.
  - vm_compute. lia.
  - vm_compute. intros v Hv.
    repeat (apply elem_of_cons in Hv as [->|Hv]; [reflexivity|]).
    by apply not_elem_of_nil in Hv.
Defined.

(** C5, as the claim states it, fails: in the run of [main], process 0
    holds no node at the path [30] after round 0; its own call
    [SendMessages( 1, ... )] delivers that path, whose last id is 0, to
    process 0 itself, and the node is still there after round 2. *)
Lemma C5_counterexample :
  let T := main_Traits in
  let tp := topo (construct T) in
  let P := [id_char 3; id_char 0] in
  let after0 := run_round T tp (processes (construct T)) 0 in
  let final := processes (run_rounds T (construct T)) in
  P ∈ paths_by_rank tp 1 0
  ∧ last P = Some (id_char 0)
  ∧ (after0 !! 0 ≫= λ p, mNodes p !! P) = None
  ∧ (SendMessages T tp 1 0 after0 !! 0 ≫= λ p, mNodes p !! P)
    = Some (mkNode ONE UNKNOWN)
  ∧ (final !! 0 ≫= λ p, mNodes p !! P) = Some (mkNode ONE UNKNOWN).
Proof.
  vm_compute. repeat split; try reflexivity. apply list_elem_of_here.
Qed.

(** C5, amended.  The only process left out of the deliveries is the
    source.  A call of [SendMessages] for round [r] on process [i]
    delivers every path of [mPathsByRank[ r ][ i ]] to every process other
    than the source, process [i] itself included.  After the rounds of
    [main], every process other than the source holds a node at every path
    of the topology, whatever the last id of the path is, and the node map
    of the source holds its seed alone. *)
Theorem C5_only_the_source_is_skipped (T : Traits) :
  mSource T < mN T →
  let tp := topo (construct T) in
  (∀ procs r i P j p,
     Good T procs → i < mN T → P ∈ paths_by_rank tp r i →
     SendMessages T tp r i procs !! j = Some p → j ≠ mSource T →
     is_Some (mNodes p !! P))
  ∧ (∀ r i P j p,
       P ∈ paths_by_rank tp r i →
       processes (run_rounds T (construct T)) !! j = Some p →
       (j ≠ mSource T → is_Some (mNodes p !! P))
       ∧ (j = mSource T → mNodes p = {[ [] := GetSourceValue T ]})).
Proof.
  intros Hs. simpl. split.
  - intros procs r i P j p HG Hi HP Hj Hne.
    by apply (SendMessages_Has T Hs r i procs P HG Hi (or_intror HP) j p).
  - intros r i P j p HP Hj. split.
    + intros Hne. by apply (run_rounds_Has T Hs r i P HP j p).
    + intros ->. apply (final_source T Hs) in Hj as ->.
      unfold init_process. simpl. by rewrite decide_True.
Qed.

Lemma C5_witness :
  is_Some (mNodes (process_at main_Traits 0) !! [id_char 3; id_char 0]).
Proof.
  refine (proj1 (proj2 (C5_only_the_source_is_skipped main_Traits _)
                   1 0 [id_char 3; id_char 0] 0
                   (process_at main_Traits 0) _ _) _).
  - vm_compute. lia.
  - vm_compute. apply list_elem_of_here.
  - vm_compute. reflexivity.
  - vm_compute. discriminate.
Defined.

(** C6.  Whatever the Traits class makes the processes send, and after
    any sequence of [SendMessages] calls on processes of the vector, in
    particular after the rounds of [main], [Decide] on the source returns
    the input value of the node that [GetSourceValue] seeded. *)
Theorem C6_source_decides_its_seed (T : Traits) :
  mSource T < mN T →
  let tp := topo (construct T) in
  (∀ sched, Forall (λ rj, rj.2 < mN T) sched →
     (Decide_at T tp (mSource T)
        (run_schedule T tp sched (processes (construct T)))).1
     = input_value (GetSourceValue T))
  ∧ (Decide_at T tp (mSource T) (processes (run_rounds T (construct T)))).1
    = input_value (GetSourceValue T).
Proof.
  intros Hs. simpl. split.
  - intros sched Hsched. rewrite (Decide_at_source T); [done|].
    apply run_schedule_Good; [done| |done]. by apply Good_construct.
  - rewrite (Decide_at_source T); [done|]. by apply run_rounds_Good.
Qed.

(** In the run of [main] the source decides ZERO. *)
Lemma C6_witness :
  (Decide_at main_Traits (topo (construct main_Traits)) SOURCE
     (processes (run_rounds main_Traits (construct main_Traits)))).1 = ZERO.
Proof.
  refine (proj2 (C6_source_decides_its_seed main_Traits _)).
  vm_compute. lia.
Defined.

(** C7.  After the rounds of [main], two calls of [Decide] in succession
    on any process return the same value, the second call changes nothing
    in the vector, and every node of the process has after the second call
    the input value it had before the first. *)
Theorem C7_decide_twice (T : Traits) (j : nat) :
  mSource T < mN T → j < mN T →
  let tp := topo (construct T) in
  let procs := processes (run_rounds T (construct T)) in
  let first := Decide_at T tp j procs in
  let second := Decide_at T tp j (first.2) in
  second.1 = first.1
  ∧ second.2 = first.2
  ∧ ∀ K, (second.2 !! j ≫= λ p, input_value <$> mNodes p !! K)
         = (procs !! j ≫= λ p, input_value <$> mNodes p !! K).
Proof.
  intros Hs Hj. cbv zeta.
  destruct (final_lookup T Hs j Hj) as (p & Hp & Hid).
  pose proof (run_rounds_Good T Hs) as HG.
  destruct (decide (j = mSource T)) as [->|Hne].
  - rewrite (Decide_at_source T _ HG). cbn [fst snd].
    rewrite (Decide_at_source T _ HG). done.
  - assert (Hpre : Present (topo (construct T)) (mNodes p))
      by (by eapply final_Present).
    assert (Hidp : mId p ≠ mSource T) by (by rewrite Hid).
    rewrite (Decide_at_present T Hs _ j p Hp Hidp Hpre). cbn [fst snd].
    assert (Hlt : j < length (processes (run_rounds T (construct T))))
      by (by eapply lookup_lt_Some).
    rewrite (Decide_at_present T Hs _ j
               (mkProcess (mId p) (decide_nodes T (topo (construct T)) (mNodes p))));
      [|by rewrite list_lookup_insert_eq|done
       |by apply Present_decide_nodes].
    cbn [fst snd mNodes mId]. rewrite decide_nodes_idem by done.
    rewrite list_insert_insert_eq. repeat split.
    intros K. rewrite list_lookup_insert_eq by done. rewrite Hp.
    cbn [mbind option_bind mNodes]. by apply decide_nodes_input.
Qed.

Lemma C7_witness :
  let T := main_Traits in
  let tp := topo (construct T) in
  let procs := processes (run_rounds T (construct T)) in
  (Decide_at T tp 0 (Decide_at T tp 0 procs).2).1 = (Decide_at T tp 0 procs).1.
Proof.
  refine (proj1 (C7_decide_twice main_Traits 0 _ _)); vm_compute; lia.
Defined.

(** C8, as the claim states it, fails when there are no more processes
    than relay rounds: with n = 2, m = 2 and source 0 the path [01] has no
    entry in [mChildren], every id being used up, and its length is 2, not
    m + 1 = 3. *)
Lemma C8_counterexample :
  let T := reference_Traits 0 2 2 false in
  let tp := topo (construct T) in
  mSource T < mN T
  ∧ [id_char 0; id_char 1] ∈ paths_by_rank tp 1 1
  ∧ mChildren tp !! [id_char 0; id_char 1] = None
  ∧ length [id_char 0; id_char 1] ≠ mM T + 1.
Proof.
  vm_compute. repeat split; try reflexivity; try lia; try discriminate.
  apply list_elem_of_here.
Qed.

(** C8, amended.  For every configuration with [source < n] and at most
    256 processes (the ids are then pairwise different as path
    characters), after the construction of the topology: every path of
    the topology without an entry in [mChildren] has length
    [min (m + 1) n], which is [m + 1] when [m < n]; and every path [P] of
    length at most [m] has as its children [P·j] for each id [j < n] that
    does not occur in [P], in ascending order of [j], which makes
    [n - |P|] children. *)
Theorem C8_tree_shape (T : Traits) :
  mSource T < mN T → mN T ≤ 256 →
  let tp := topo (construct T) in
  ∀ r i P,
    P ∈ paths_by_rank tp r i →
    (mChildren tp !! P = None → length P = (mM T + 1) `min` mN T)
    ∧ (length P ≤ mM T →
       children_of tp P
       = (λ j, P ++ [id_char j]) <$> filter (λ j, id_char j ∉ P) (seq 0 (mN T))
       ∧ length (children_of tp P) = mN T - length P).
Proof.
  intros Hs Hn. cbv zeta. intros r i P HP.
  pose proof (paths_by_rank_shape T Hs P r i HP) as (Hlen & Hr & _).
  apply (elem_of_paths_by_rank_construct T Hs) in HP.
  destruct (GC_events_kids (mDebug T) (mM T) (mN T)
              (λ j j', id_char_inj_256 (mN T) j j' Hn)
              (mM T) (replicate (mN T) true) (mSource T) [] 0 r i P)
    as [Hkids Hcnt]; try done.
  - apply ids_track_init.
  - by rewrite lookup_replicate.
  - lia.
  - rewrite free_count_nil. simpl. lia.
  - fold (init_events T) in Hkids.
    rewrite <- (children_of_construct T Hs) in Hkids.
    rewrite <- length_expected_kids in Hcnt. split.
    + intros Hnone. apply (mChildren_construct_None T Hs) in Hnone.
      assert (Hnil : children_of (topo (construct T)) P = []).
      { rewrite (children_of_construct T Hs). apply kids_of_nil_iff.
        intros c Hc. rewrite Forall_forall in Hnone.
        by apply (Hnone _ Hc). }
      rewrite Hnil in Hkids.
      destruct (decide (length P ≤ mM T)) as [Hle|Hgt]; [|lia].
      rewrite <- Hkids in Hcnt. simpl in Hcnt. lia.
    + intros Hle. rewrite decide_True in Hkids by done.
      split; [done|]. rewrite Hkids. lia.
Qed.

Lemma C8_witness :
  let tp := topo (construct main_Traits) in
  let P := [id_char 3; id_char 0] in
  (children_of tp P
   = [P ++ [id_char 1]; P ++ [id_char 2]; P ++ [id_char 4];
      P ++ [id_char 5]; P ++ [id_char 6]]
   ∧ length (children_of tp P) = 5)
  ∧ length (P ++ [id_char 1]) = 3.
Proof.
  cbv zeta. split.
  - refine (proj2 (C8_tree_shape main_Traits _ _ 1 0
                     [id_char 3; id_char 0] _) _).
    + vm_compute. lia.
    + vm_compute. lia.
    + vm_compute. apply list_elem_of_here.
    + vm_compute. lia.
  - refine (proj1 (C8_tree_shape main_Traits _ _ 2 1
                     [id_char 3; id_char 0; id_char 1] _) _).
    + vm_compute. lia.
    + vm_compute. lia.
    + vm_compute. apply list_elem_of_here.
    + vm_compute. reflexivity.
Defined.

(** The bound of 256 processes is needed: with 257 processes and source 1
    the ids 0 and 256 have the same character, the paths [1·0] and
    [1·256] are the same key of [mChildren], and the vector at that key
    receives the children of both. *)
Example ids_256_apart_share_a_character :
  let T := reference_Traits 1 2 257 false in
  let tp := topo (construct T) in
  id_char 256 = id_char 0
  ∧ length (children_of tp [id_char 1; id_char 0]) = 510
  ∧ mN T - length [id_char 1; id_char 0] = 255.
Proof. vm_compute. repeat split; reflexivity. Qed.

(** C9.  In the run of [main], for every process, no read [mNodes[ ... ]]
    of [Decide] misses: the leaf pass, the reduction passes with the reads
    of [GetMajority], and the read of the root all find a node that the
    constructor or a delivery put there. *)
Theorem C9_decide_finds_every_node (T : Traits) :
  mSource T < mN T →
  ∀ j p,
    processes (run_rounds T (construct T)) !! j = Some p →
    missed (Decide T (topo (construct T)) p).2 = [].
Proof.
  intros Hs j p Hp.
  destruct (decide (j = mSource T)) as [->|Hne].
  - apply (final_source T Hs) in Hp as ->.
    rewrite Decide_source; [done|done|].
    unfold init_process. simpl. by rewrite decide_True.
  - destruct (run_rounds_Good T Hs) as (_ & Hid & _).
    rewrite (Decide_present T Hs p); [done| |by eapply final_Present].
    by rewrite (Hid _ _ Hp).
Qed.

Lemma C9_witness :
  missed (Decide main_Traits (topo (construct main_Traits))
            (process_at main_Traits 0)).2 = [].
Proof.
  refine (C9_decide_finds_every_node main_Traits _ 0 _ _).
  - vm_compute. lia.
  - vm_compute. reflexivity.
Defined.

(** The list [missed] does record a read that finds nothing: [Decide] on
    process 0 before any round. *)
Example Decide_before_the_rounds_misses :
  missed (Decide main_Traits (topo (construct main_Traits))
            (init_process main_Traits 0)).2 ≠ [].
Proof. vm_compute. discriminate. Qed.




(** * Further properties of the program *)

(** X1.  The paths that [GenerateChildren] registers at rank [r] for the
    id [i] are exactly the strings of [r + 1] pairwise different ids below
    [mN] that start with the source and end with [i], [r] being at most
    [mM]; an id is written as the character [id + '0']. *)
Theorem X1_paths_are_the_simple_id_strings (T : Traits) :
  mSource T < mN T → mN T ≤ 256 →
  ∀ r i P,
    P ∈ paths_by_rank (topo (construct T)) r i ↔ tree_path T r i P.
Proof.
  intros Hs Hn r i P. split.
  - by apply paths_by_rank_tree.
  - by apply tree_paths_by_rank.
Qed.

Lemma X1_witness :
  [id_char 3; id_char 0] ∈ paths_by_rank (topo (construct main_Traits)) 1 0
  ↔ tree_path main_Traits 1 0 [id_char 3; id_char 0].
Proof.
  apply (X1_paths_are_the_simple_id_strings main_Traits); vm_compute; lia.
Defined.

(** X2.  A path is registered under one rank and one id only, it ends
    with the character of that id, and what [path.substr( 0,
    path.size() - 1 )] leaves of it is a path registered one rank
    earlier: the node that [SendMessages] reads for a path of rank 1 or
    more is the node of a path that was sent around in the round
    before. *)
Theorem X2_owner_and_parent_of_a_path (T : Traits) :
  mSource T < mN T → mN T ≤ 256 →
  ∀ r i P,
    P ∈ paths_by_rank (topo (construct T)) r i →
    (∀ r' i', P ∈ paths_by_rank (topo (construct T)) r' i' → r' = r ∧ i' = i)
    ∧ P = parent P ++ [id_char i]
    ∧ (1 ≤ r →
       ∃ i', parent P ∈ paths_by_rank (topo (construct T)) (r - 1) i').
Proof.
  intros Hs Hn r i P HP. split; [|split].
  - intros r' i' HP'.
    by destruct (paths_by_rank_unique T Hs Hn P _ _ _ _ HP' HP).
  - by destruct (path_snoc T Hs Hn P r i HP).
  - intros Hr. destruct (paths_by_rank_parent T Hs P r i HP Hr) as (i' & _ & H).
    by exists i'.
Qed.

Lemma X2_witness :
  [id_char 3; id_char 0] = parent [id_char 3; id_char 0] ++ [id_char 0]
  ∧ ∃ i', parent [id_char 3; id_char 0]
          ∈ paths_by_rank (topo (construct main_Traits)) (1 - 1) i'.
Proof.
  destruct (X2_owner_and_parent_of_a_path main_Traits
              ltac:(vm_compute; lia) ltac:(vm_compute; lia)
              1 0 [id_char 3; id_char 0]
              ltac:(vm_compute; apply list_elem_of_here)) as (_ & H1 & H2).
  split; [exact H1|]. apply H2. lia.
Defined.

(** X3.  The constructor of every process runs [GenerateChildren] when it
    finds [mChildren] empty.  With no relay round and the debug switch off
    nothing is ever put into [mChildren], so each of the [mN] constructors
    runs it and the root path is registered [mN] times; in every other
    case it is registered once. *)
Theorem X3_root_path_registrations (T : Traits) :
  mSource T < mN T →
  paths_by_rank (topo (construct T)) 0 (mSource T)
  = replicate (if decide (mDebug T = false ∧ mM T = 0) then mN T else 1)
      [id_char (mSource T)].
Proof.
  intros Hs. destruct (construct_count T Hs) as (k & Htopo & Hall & Hnot).
  rewrite (root_list T k Htopo). f_equal.
  destruct (decide (mDebug T = false ∧ (mM T = 0 ∨ mN T = 1))) as [Hd|Hd].
  - rewrite Hall by (by apply init_events_all_EPath).
    case_decide as Hc; [done|]. destruct Hd as (? & [?|?]); [|done].
    destruct Hc. done.
  - rewrite Hnot by (by rewrite (init_events_all_EPath T Hs)).
    rewrite decide_False; [done|]. intros [? ?]. apply Hd. by split; [|left].
Qed.

Lemma X3_witness :
  paths_by_rank (topo (construct (reference_Traits 0 0 3 false))) 0 0
  = [[id_char 0]; [id_char 0]; [id_char 0]].
Proof.
  apply (X3_root_path_registrations (reference_Traits 0 0 3 false)).
  vm_compute. lia.
Defined.

(** X4.  After the rounds of [main], the node map of a process other than
    the source has a node at every path of the topology and at no other
    key, and the output value of every node is still UNKNOWN: no
    [operator[]] of [SendMessages] has put a default node into it. *)
Theorem X4_node_maps_after_the_rounds (T : Traits) :
  mSource T < mN T →
  ∀ j P,
    j < mN T → j ≠ mSource T →
    (is_Some (nodes_of (processes (run_rounds T (construct T))) j !! P)
     ↔ in_topo (topo (construct T)) P)
    ∧ (∀ nd, nodes_of (processes (run_rounds T (construct T))) j !! P
             = Some nd → output_value nd = UNKNOWN).
Proof.
  intros Hs j P Hj Hne. split; [by apply final_keys|].
  intros nd Hnd. destruct (run_rounds_RInv T Hs) as (_ & _ & HR).
  by destruct (HR j P nd Hne Hnd) as (_ & i & _ & _ & ->).
Qed.

Lemma X4_witness :
  is_Some (nodes_of (processes (run_rounds main_Traits (construct main_Traits)))
             0 !! [id_char 3; id_char 0])
  ↔ in_topo (topo (construct main_Traits)) [id_char 3; id_char 0].
Proof.
  refine (proj1 (X4_node_maps_after_the_rounds main_Traits _ 0
                   [id_char 3; id_char 0] _ _)).
  - vm_compute. lia.
  - vm_compute. lia.
  - vm_compute. discriminate.
Defined.

(** X5.  After the rounds of [main], the node that a process [j] other
    than the source has at a path [P] of process [i] is the one that
    [SendMessages] of [i] made for it: its input value is what [GetValue]
    returns for the input value that [i] holds at the parent path, the
    sender [i], the receiver [j] and the path [P], and its output value is
    UNKNOWN. *)
Theorem X5_what_a_node_holds (T : Traits) :
  mSource T < mN T → mN T ≤ 256 →
  ∀ r i j P,
    j < mN T → j ≠ mSource T →
    P ∈ paths_by_rank (topo (construct T)) r i →
    nodes_of (processes (run_rounds T (construct T))) j !! P
    = Some (mkNode
              (GetValue T
                 (held (processes (run_rounds T (construct T))) i (parent P))
                 i j P)
              UNKNOWN).
Proof.
  intros Hs Hn r i j P Hj Hne HP.
  by rewrite (final_relayed T Hs r i j P Hn Hj Hne HP).
Qed.

Lemma X5_witness :
  nodes_of (processes (run_rounds main_Traits (construct main_Traits))) 1
    !! [id_char 3; id_char 0]
  = Some (mkNode
            (GetValue main_Traits
               (held (processes (run_rounds main_Traits (construct main_Traits)))
                  0 (parent [id_char 3; id_char 0]))
               0 1 [id_char 3; id_char 0])
            UNKNOWN).
Proof.
  refine (X5_what_a_node_holds main_Traits _ _ 1 0 1 [id_char 3; id_char 0]
            _ _ _).
  - vm_compute. lia.
  - vm_compute. lia.
  - vm_compute. lia.
  - vm_compute. discriminate.
  - vm_compute. apply list_elem_of_here.
Defined.

(** X6.  With no relay round ([mM] = 0) there is no majority to take:
    [Decide] of a process other than the source returns what [GetValue]
    made the source send to that process in round 0. *)
Theorem X6_decision_without_relay (T : Traits) (j : nat) :
  mSource T < mN T → mM T = 0 → j < mN T → j ≠ mSource T →
  decision T j
  = GetValue T (input_value (GetSourceValue T)) (mSource T) j
      [id_char (mSource T)].
Proof.
  intros Hs Hm Hj Hne. rewrite (decision_eval T Hs j Hj Hne), Hm.
  cbn [eval]. unfold g_leaf. by rewrite (final_root T Hs j Hj Hne).
Qed.

Lemma X6_witness :
  decision (reference_Traits 0 0 3 false) 1
  = GetValue (reference_Traits 0 0 3 false)
      (input_value (GetSourceValue (reference_Traits 0 0 3 false))) 0 1
      [id_char 0].
Proof.
  refine (X6_decision_without_relay (reference_Traits 0 0 3 false) 1 _ _ _ _).
  - vm_compute. lia.
  - reflexivity.
  - vm_compute. lia.
  - discriminate.
Defined.

(** X7.  After the rounds of [main], [Decide] of a process other than the
    source computes the recursive majority of the algorithm: the value of
    a path of rank [mM] is the input value of its node, the value of a
    path of a lower rank is the majority of the values of its children,
    the output value that [Decide] leaves at a path is that value, and
    what [Decide] returns is the value of the root path. *)
Theorem X7_Decide_is_the_recursive_majority (T : Traits) (j : nat) :
  mSource T < mN T → j < mN T → j ≠ mSource T →
  let tp := topo (construct T) in
  let procs := processes (run_rounds T (construct T)) in
  decision T j = eval T tp (nodes_of procs j) (mM T) [id_char (mSource T)]
  ∧ ∀ r i P,
      P ∈ paths_by_rank tp r i →
      out (nodes_of (Decide_at T tp j procs).2 j) P
      = eval T tp (nodes_of procs j) (mM T - r) P.
Proof.
  intros Hs Hj Hne. cbv zeta. split; [by apply decision_eval|].
  intros r i P HP. destruct (final_lookup T Hs j Hj) as (p & Hp & Hid).
  assert (Hpre : Present (topo (construct T)) (mNodes p))
    by (by eapply final_Present).
  assert (Hnj : nodes_of (processes (run_rounds T (construct T))) j
                = mNodes p) by (unfold nodes_of; by rewrite Hp).
  rewrite Hnj, (Decide_at_present T Hs _ j p Hp); [|by rewrite Hid|done].
  cbn [snd]. unfold nodes_of.
  rewrite list_lookup_insert_eq by (by eapply lookup_lt_Some). simpl.
  by rewrite (decide_nodes_out T Hs _ r i P Hpre HP).
Qed.

Lemma X7_witness :
  decision main_Traits 0
  = eval main_Traits (topo (construct main_Traits))
      (nodes_of (processes (run_rounds main_Traits (construct main_Traits))) 0)
      (mM main_Traits) [id_char (mSource main_Traits)].
Proof.
  refine (proj1 (X7_Decide_is_the_recursive_majority main_Traits 0 _ _ _)).
  - vm_compute. lia.
  - vm_compute. lia.
  - vm_compute. discriminate.
Defined.

(** X8.  The reporting loop of [main] prints, for every process in
    ascending order, that it is faulty or the value that [Decide] returns
    on the process as the rounds left it: a call of [Decide] changes the
    node map of its own process only, so the calls do not influence one
    another. *)
Theorem X8_report_of_main (T : Traits) :
  main_run T
  = (λ j, (j, if IsFaulty T j then None else Some (decision T j)))
      <$> seq 0 (mN T).
Proof. apply main_run_decisions. Qed.

(** X9.  Validity.  Let every process that [IsFaulty] does not mark pass
    on what it holds, let the source be one of them and its value be ONE
    or ZERO, and let [mN] exceed twice the number of marked processes plus
    [mM].  Then [Decide] of every process other than the source returns
    the value of the source, whatever the marked processes send. *)
Theorem X9_validity (T : Traits) (j : nat) :
  mSource T < mN T → mN T ≤ 256 →
  (∀ i, i < mN T → IsFaulty T i = false → honest T i) →
  IsFaulty T (mSource T) = false →
  input_value (GetSourceValue T) = ONE
  ∨ input_value (GetSourceValue T) = ZERO →
  2 * length (faulty_ids T) + mM T < mN T →
  j < mN T → j ≠ mSource T →
  decision T j = input_value (GetSourceValue T).
Proof.
  intros Hs Hn Hrel Hsrc Hseed Hcnt Hj Hne.
  rewrite (decision_eval T Hs j Hj Hne).
  pose proof (root_path_exists T Hs) as Hroot.
  pose proof (faulty_free_step T Hs Hn _ _ _ Hroot) as Hstep.
  change (parent [id_char (mSource T)]) with (@nil ascii) in Hstep.
  rewrite faulty_free_nil, Hsrc in Hstep.
  rewrite (honest_subtree T Hs Hn Hrel (mM T) 0 (mSource T)); try done.
  - change (parent [id_char (mSource T)]) with (@nil ascii).
    rewrite (held_source T Hs). by apply settled_binary.
  - simpl. lia.
  - change (parent [id_char (mSource T)]) with (@nil ascii).
    rewrite (held_source T Hs). naive_solver.
Qed.

Lemma X9_witness : decision loyal_Traits 1 = ONE.
Proof.
  refine (X9_validity loyal_Traits 1 _ _ _ _ _ _ _ _).
  - vm_compute. lia.
  - vm_compute. lia.
  - intros i _ Hi v k P. simpl in *. by case_decide.
  - reflexivity.
  - by left.
  - vm_compute. lia.
  - vm_compute. lia.
  - discriminate.
Defined.

(** X10.  Agreement.  Let every process that [IsFaulty] does not mark
    pass on what it holds, let at most [mM] processes be marked, and let
    [mN] exceed [3 * mM].  Then [Decide] returns the same value on all
    processes other than the source, whatever the source and the other
    marked processes send and whatever the tie-break default is. *)
Theorem X10_agreement (T : Traits) (j j' : nat) :
  mSource T < mN T → mN T ≤ 256 →
  (∀ i, i < mN T → IsFaulty T i = false → honest T i) →
  length (faulty_ids T) ≤ mM T → 3 * mM T < mN T →
  j < mN T → j ≠ mSource T → j' < mN T → j' ≠ mSource T →
  decision T j = decision T j'.
Proof. intros Hs Hn Hrel. by apply agreement. Qed.

Lemma X10_witness : decision main_Traits 0 = decision main_Traits 6.
Proof.
  refine (X10_agreement main_Traits 0 6 _ _ _ _ _ _ _ _ _).
  - vm_compute. lia.
  - vm_compute. lia.
  - intros i _. apply reference_relays.
  - vm_compute. lia.
  - vm_compute. lia.
  - vm_compute. lia.
  - discriminate.
  - vm_compute. lia.
  - discriminate.
Defined.

(** X11.  The program with other constants.  The Traits class of
    main.cpp marks the source and process 2 as faulty.  For every source
    id, every [M] that is at least the number of these processes (2, or 1
    when the source is process 2) and every [N] above [3 * M] (up to 256),
    and with either setting of the debug switch, the run of [main] reports
    the source and process 2 as faulty and one and the same value for all
    other processes. *)
Theorem X11_agreement_for_all_constants (source m n : nat) (debug : bool) :
  source < n → n ≤ 256 → (if decide (source = 2) then 1 else 2) ≤ m →
  3 * m < n →
  ∃ v,
    main_run (reference_Traits source m n debug)
    = (λ j, (j, if decide (j = source ∨ j = 2) then None else Some v))
        <$> seq 0 n.
Proof.
  intros Hs Hn Hm Hmn.
  set (T := reference_Traits source m n debug).
  set (j0 := if decide (source = 0) then 1 else 0).
  assert (Hj0 : j0 < n ∧ j0 ≠ source).
  { unfold j0. repeat case_decide; lia. }
  exists (decision T j0). rewrite main_run_decisions.
  apply Forall_fmap_ext_1, Forall_forall. intros j Hj.
  apply elem_of_seq in Hj.
  change (IsFaulty T j)
    with (if decide (j = source ∨ j = 2) then true else false).
  destruct (decide (j = source ∨ j = 2)) as [Hf|Hf]; [done|].
  do 2 f_equal.
  pose proof (reference_faulty_ids source m n debug) as Hc. fold T in Hc.
  apply (agreement T Hs Hn (λ i _, reference_relays source m n debug i));
    simpl; [lia|lia|lia|naive_solver|tauto|tauto].
Qed.

Lemma X11_witness :
  ∃ v,
    main_run (reference_Traits 0 2 8 true)
    = (λ j, (j, if decide (j = 0 ∨ j = 2) then None else Some v)) <$> seq 0 8.
Proof.
  apply (X11_agreement_for_all_constants 0 2 8 true); simpl; lia.
Defined.

(** X12.  The debug switch changes the output of [GenerateChildren] and
    how often the constructors run it, and nothing that [main] reports:
    the run with the switch set to [b] reports what the run of [T]
    reports. *)
Theorem X12_debug_switch (T : Traits) (b : bool) :
  mSource T < mN T → mN T ≤ 256 →
  main_run (with_debug b T) = main_run T.
Proof.
  intros Hs Hn. rewrite !main_run_decisions.
  change (mN (with_debug b T)) with (mN T).
  apply Forall_fmap_ext_1, Forall_forall. intros j Hj.
  apply elem_of_seq in Hj.
  change (IsFaulty (with_debug b T)) with (IsFaulty T).
  rewrite (decision_debug T b Hs Hn); [done|lia].
Qed.

Lemma X12_witness :
  main_run (with_debug true main_Traits) = main_run main_Traits.
Proof.
  apply (X12_debug_switch main_Traits true); vm_compute; lia.
Defined.

(** X13.  On a node map that has a node at every path of the topology,
    [Dump] returns with the map as it was, having written one line for
    every path of the topology and no line twice, every line after the
    lines of the children of its path; the line of a path shows the input
    value, the path and the output value of the node.  The recursion is
    [mM + 1] calls deep. *)
Theorem X13_Dump_lists_the_tree (T : Traits) (fuel : nat) (s : DState) :
  mSource T < mN T → mN T ≤ 256 →
  Present (topo (construct T)) (nodes s) → mM T < fuel →
  let tp := topo (construct T) in
  ∃ L : list Path,
    Dump T fuel tp [] s = Some (L ≫= dump_line (nodes s), s)
    ∧ NoDup L
    ∧ (∀ Q, Q ∈ L ↔ in_topo tp Q)
    ∧ (∀ L1 L2 Q c, L = L1 ++ Q :: L2 → c ∈ children_of tp Q → c ∈ L1).
Proof.
  intros Hs Hn Hpre Hfuel. cbv zeta.
  pose proof (root_path_exists T Hs) as Hroot.
  exists (post_order (topo (construct T)) (mM T) [id_char (mSource T)]).
  split; [by apply Dump_root|]. split; [by eapply post_order_NoDup|]. split.
  - intros Q. split.
    + apply post_order_in_topo; [done|by apply root_in_topo].
    + intros HQ. apply (post_order_complete T Hs Hn _ 0 (mSource T));
        [done|done| |done].
      destruct HQ as (r & i & HQ).
      pose proof (paths_by_rank_head T Hs Hn Q r i HQ) as Hh.
      destruct Q as [|c Q]; [done|]. injection Hh as ->.
      by exists Q.
  - intros L1 L2 Q c Heq Hc.
    by apply (post_order_children_first T Hs Hn (mM T) 0 (mSource T)
                [id_char (mSource T)] L1 L2 Q c).
Qed.

Lemma X13_witness :
  is_Some (Dump main_Traits 3 (topo (construct main_Traits)) []
             (mkDState (mNodes (process_at main_Traits 0)) [])).
Proof.
  destruct (X13_Dump_lists_the_tree main_Traits 3
              (mkDState (mNodes (process_at main_Traits 0)) []))
    as (L & HL & _).
  - vm_compute. lia.
  - vm_compute. lia.
  - apply (final_Present main_Traits ltac:(vm_compute; lia) 0).
    + vm_compute. reflexivity.
    + discriminate.
  - vm_compute. lia.
  - exact (ex_intro _ _ HL).
Defined.

(** X14.  On such a node map [DumpDot] returns with the map as it was as
    well.  It writes the header with the id of the process, then one edge
    for every line of [Dump] and in the same order, from the node of the
    parent path to the node of the path and from [General] to the node of
    the root path, and then the closing line. *)
Theorem X14_DumpDot_follows_Dump (T : Traits) (fuel id : nat) (s : DState) :
  mSource T < mN T →
  Present (topo (construct T)) (nodes s) → mM T < fuel →
  let tp := topo (construct T) in
  ∃ L : list Path,
    Dump T fuel tp [] s = Some (L ≫= dump_line (nodes s), s)
    ∧ DumpDot T fuel tp id [] s
      = Some (dot_header id ++ (L ≫= dot_line (nodes s))
                ++ text "};" ++ [nl], s).
Proof.
  intros Hs Hpre Hfuel. cbv zeta.
  exists (post_order (topo (construct T)) (mM T) [id_char (mSource T)]).
  split; [by apply Dump_root|by apply DumpDot_root].
Qed.

Lemma X14_witness :
  is_Some (DumpDot main_Traits 3 (topo (construct main_Traits)) 0 []
             (mkDState (mNodes (process_at main_Traits 0)) [])).
Proof.
  destruct (X14_DumpDot_follows_Dump main_Traits 3 0
              (mkDState (mNodes (process_at main_Traits 0)) []))
    as (L & _ & HL).
  - vm_compute. lia.
  - apply (final_Present main_Traits ltac:(vm_compute; lia) 0).
    + vm_compute. reflexivity.
    + discriminate.
  - vm_compute. lia.
  - exact (ex_intro _ _ HL).
Defined.

(** X15.  The size of the tree.  After the rounds of [main] the node map
    of every process other than the source has one node for every path of
    the topology, and their number is 1 + (n - 1) + (n - 1)(n - 2) + ...
    with [mM + 1] summands: 37 nodes for the constants of main.cpp. *)
Theorem X15_size_of_the_node_maps (T : Traits) (j : nat) :
  mSource T < mN T → mN T ≤ 256 → j < mN T → j ≠ mSource T →
  size (nodes_of (processes (run_rounds T (construct T))) j)
  = tree_size (mN T - 1) (mM T).
Proof.
  intros Hs Hn Hj Hne.
  set (L := post_order (topo (construct T)) (mM T) [id_char (mSource T)]).
  pose proof (root_path_exists T Hs) as Hroot.
  assert (Hnd : NoDup L) by (by eapply post_order_NoDup).
  assert (Hdom : dom (nodes_of (processes (run_rounds T (construct T))) j)
                 = list_to_set L).
  { apply set_eq. intros Q.
    rewrite elem_of_dom, elem_of_list_to_set, (final_keys T Hs j Q Hj Hne).
    split.
    - intros (r & i & HQ).
      apply (post_order_complete T Hs Hn _ 0 (mSource T));
        [done|done| |by exists r, i].
      pose proof (paths_by_rank_head T Hs Hn Q r i HQ) as Hh.
      destruct Q as [|c Q]; [done|]. injection Hh as ->. by exists Q.
    - apply post_order_in_topo; [done|by apply root_in_topo]. }
  rewrite <- size_dom, Hdom, size_list_to_set by done.
  unfold L. by rewrite (post_order_length T Hs Hn _ 0 (mSource T)).
Qed.

Lemma X15_witness :
  size (nodes_of (processes (run_rounds main_Traits (construct main_Traits))) 0)
  = tree_size (mN main_Traits - 1) (mM main_Traits).
Proof.
  apply (X15_size_of_the_node_maps main_Traits 0).
  - vm_compute. lia.
  - vm_compute. lia.
  - vm_compute. lia.
  - discriminate.
Defined.
